(** * Blocking synchronisation primitives and the elastic worker pool

    A shallow embedding of the C++ sources

    - [src/mutex/rw_lock.cpp] and [src/1.cpp]   (fair FIFO reader-writer lock)
    - [src/mutex/spin_lock.cpp]                 (TimedLock)
    - [src/mutex/recursive_lock.cpp]            (RecursiveLock)
    - [src/unnamed/part_003]                    (RecursiveTimedLock)
    - [src/unnamed/part_004]                    (lock_all / ScopedLock)
    - [src/unnamed/part_005], [src/thread_pool/src/_v4.hpp] (TaskQueue)
    - [src/unnamed/part_007], [src/thread_pool/src/_v4.hpp] (ThreadPool)

    Every member function runs under the object's internal mutex, so a call
    is one atomic transition of the object's state.  The only places where
    other threads interleave are the condition-variable waits; these are
    modelled by an explicit list of wake-ups supplied by the environment. *)

From Stdlib Require Import ZArith Lia Bool List String.
From stdpp Require Import base option list gmap.
Import ListNotations.

Local Open Scope Z_scope.

(** ** Machine integers *)

(** [std::size_t] and [std::uint64_t] on the 64-bit targets of the sources. *)
Definition wrap64 (z : Z) : Z := z mod 2 ^ 64.

(** [int] (32-bit two's complement). *)
Definition wrap32 (z : Z) : Z := (z + 2 ^ 31) mod 2 ^ 32 - 2 ^ 31.

(** The 64-bit signed tick counts of [std::chrono] (two's complement). *)
Definition wrap_i64 (z : Z) : Z := (z + 2 ^ 63) mod 2 ^ 64 - 2 ^ 63.

Definition int_range (z : Z) : Prop := - 2 ^ 31 <= z < 2 ^ 31.

(** ** How a call ends *)

(** A member function either returns, leaves by an exception
    ([throw std::runtime_error(...)]) or calls [std::terminate()]. *)
Inductive completion (A : Type) : Type :=
| Returned (a : A)
| Thrown (what : string)
| Terminated.
Arguments Returned {A} a.
Arguments Thrown {A} what.
Arguments Terminated {A}.

Definition returned {A} (c : completion A) : Prop :=
  match c with Returned _ => True | _ => False end.

(** A call that "fails with a reported error" does not return normally. *)
Definition reports_error {A} (c : completion A) : Prop :=
  match c with Returned _ => False | _ => True end.

(** ** Condition variables

    A thread blocked in [cond_.wait*] has released the internal mutex; when
    the underlying wait returns the thread owns the mutex again and sees the
    protected state as the other threads left it.  One [wakeup] is one return
    of the underlying wait: the reading, at that moment, of the clock the
    deadline is given in, and the protected state found. *)
Section CondVar.
Context {St : Type}.

Definition wakeup : Type := Z * St.

(** [cond_.wait(lock, pred)]:  [while (!pred()) wait(lock);]
    [None]: the thread is still asleep when the wake-ups run out. *)
Fixpoint cv_wait (pred : St -> bool) (wakes : list wakeup) (s : St)
  : option St :=
  if pred s then Some s
  else match wakes with
       | [] => None
       | (_, s') :: ws => cv_wait pred ws s'
       end.

(** [cond_.wait_until(lock, abs_time, pred)]:
    [while (!pred()) if (wait_until(lock, abs_time) == timeout) return pred();]
    [return true;]
    The underlying wait reports [timeout] when the clock has reached
    [abs_time] on return. *)
Fixpoint cv_wait_until (pred : St -> bool) (abs_time : Z)
         (wakes : list wakeup) (s : St) : option (bool * St) :=
  if pred s then Some (true, s)
  else match wakes with
       | [] => None
       | (t, s') :: ws =>
           if abs_time <=? t then Some (pred s', s')
           else cv_wait_until pred abs_time ws s'
       end.
End CondVar.

(** ** Fair FIFO reader-writer lock
    [fair_fifo::shared_mutex] of [src/mutex/rw_lock.cpp] (second variant,
    lines 700-886) and [shared_mutex] of [src/1.cpp]. *)
Module FairFifo.

Inductive Mode : Type := Read | Write.

(** A [Waiter] lives on the stack of the waiting thread; the queue stores
    its address.  [None] is the null pointer. *)
Definition waiter_ptr : Type := nat.

Record Node : Type := mkNode {
  mode : Mode;
  ticket : Z;
  waiter : option waiter_ptr
}.

(** The members of [shared_mutex], the [go] field of every live [Waiter]
    (a heap indexed by address), and the log of [cv.notify_one()] calls. *)
Record shared_mutex : Type := mkSM {
  q_ : list Node;
  has_writer_ : bool;
  reader_cnt_ : Z;
  pending_readers_ : Z;
  next_ticket_ : Z;
  go : gmap waiter_ptr bool;
  notified : list waiter_ptr
}.

Definition set_has_writer (b : bool) (s : shared_mutex) : shared_mutex :=
  mkSM (q_ s) b (reader_cnt_ s) (pending_readers_ s) (next_ticket_ s)
       (go s) (notified s).

Definition set_reader_cnt (n : Z) (s : shared_mutex) : shared_mutex :=
  mkSM (q_ s) (has_writer_ s) n (pending_readers_ s) (next_ticket_ s)
       (go s) (notified s).

Definition set_pending_readers (n : Z) (s : shared_mutex) : shared_mutex :=
  mkSM (q_ s) (has_writer_ s) (reader_cnt_ s) n (next_ticket_ s)
       (go s) (notified s).

Definition set_q (q : list Node) (s : shared_mutex) : shared_mutex :=
  mkSM q (has_writer_ s) (reader_cnt_ s) (pending_readers_ s)
       (next_ticket_ s) (go s) (notified s).

(** [w->go = true; w->cv.notify_one();] *)
Definition wake (w : waiter_ptr) (s : shared_mutex) : shared_mutex :=
  mkSM (q_ s) (has_writer_ s) (reader_cnt_ s) (pending_readers_ s)
       (next_ticket_ s) (<[w := true]> (go s)) (notified s ++ [w]).

(** [if (w) { w->go = true; w->cv.notify_one(); }] *)
Definition wake_if (w : option waiter_ptr) (s : shared_mutex) : shared_mutex :=
  match w with
  | Some p => wake p s
  | None => s
  end.

Definition is_read (n : Node) : bool :=
  match mode n with Read => true | Write => false end.

(** The [while] loop of [open_read_batch_and_wake_unsafe_]: pops the
    front while it is a [Read], collecting the non-null waiters and
    counting every popped node ([count] is a [std::size_t]). *)
Fixpoint pop_reads (q : list Node) (to_wake : list waiter_ptr) (count : Z)
  : list Node * list waiter_ptr * Z :=
  match q with
  | [] => (q, to_wake, count)
  | n :: q' =>
      if is_read n then
        pop_reads q'
                  (match waiter n with
                   | Some w => to_wake ++ [w]
                   | None => to_wake
                   end)
                  (wrap64 (count + 1))
      else (q, to_wake, count)
  end.

(** [for (Waiter* w : to_wake) { w->go = true; w->cv.notify_one(); }] *)
Definition wake_all (ws : list waiter_ptr) (s : shared_mutex) : shared_mutex :=
  fold_left (fun acc w => wake w acc) ws s.

Definition open_read_batch_and_wake_unsafe_ (s : shared_mutex) : shared_mutex :=
  let '(q', to_wake, count) := pop_reads (q_ s) [] 0 in
  wake_all to_wake (set_pending_readers count (set_q q' s)).

(** [try_lock]: the same text in both files
    ([rw_lock.cpp] 731-743, [1.cpp] 52-63). *)
Definition try_lock (s : shared_mutex) : bool * shared_mutex :=
  if has_writer_ s then (false, s)
  else if negb (reader_cnt_ s =? 0) || negb (pending_readers_ s =? 0)
       then (false, s)
  else match q_ s with
       | _ :: _ => (false, s)
       | [] => (true, set_has_writer true s)
       end.

(** [try_lock_shared]: the same text in both files
    ([rw_lock.cpp] 778-790, [1.cpp] 94-105). *)
Definition try_lock_shared (s : shared_mutex) : bool * shared_mutex :=
  if has_writer_ s then (false, s)
  else if negb (pending_readers_ s =? 0) then (false, s)
  else match q_ s with
       | _ :: _ => (false, s)
       | [] => (true, set_reader_cnt (wrap64 (reader_cnt_ s + 1)) s)
       end.

(** *** The scheduler and the releases of [src/mutex/rw_lock.cpp] *)

Definition wake_next_ (s : shared_mutex) : shared_mutex :=
  if has_writer_ s || negb (reader_cnt_ s =? 0) then s
  else if negb (pending_readers_ s =? 0) then s
  else match q_ s with
       | [] => s
       | n :: _ =>
           match mode n with
           | Write => wake_if (waiter n) s
           | Read => open_read_batch_and_wake_unsafe_ s
           end
       end.

Definition unlock (s : shared_mutex) : shared_mutex :=
  wake_next_ (set_has_writer false s).

Definition unlock_shared (s : shared_mutex) : shared_mutex :=
  let s1 := set_reader_cnt (wrap64 (reader_cnt_ s - 1)) s in
  if reader_cnt_ s1 =? 0 then wake_next_ s1 else s1.

(** *** The scheduler and the releases of [src/1.cpp] *)
Module Scratch.

(** The [else] branch of [wake_next_] holds only a comment. *)
Definition wake_next_ (s : shared_mutex) : shared_mutex :=
  if has_writer_ s || negb (reader_cnt_ s =? 0) then s
  else if negb (pending_readers_ s =? 0) then s
  else match q_ s with
       | [] => s
       | n :: _ =>
           match mode n with
           | Write => wake_if (waiter n) s
           | Read => s
           end
       end.

(** [has_writer_ = true; wake_next_();] *)
Definition unlock (s : shared_mutex) : shared_mutex :=
  wake_next_ (set_has_writer true s).

Definition unlock_shared (s : shared_mutex) : shared_mutex :=
  let s1 := set_reader_cnt (wrap64 (reader_cnt_ s - 1)) s in
  if reader_cnt_ s1 =? 0 then wake_next_ s1 else s1.

End Scratch.

(** The state is free: nobody inside, nobody being admitted. *)
Definition lock_free (s : shared_mutex) : Prop :=
  has_writer_ s = false /\ reader_cnt_ s = 0 /\ pending_readers_ s = 0.

(** The maximal prefix of consecutive [Read] nodes, and what follows it. *)
Fixpoint read_prefix (q : list Node) : list Node :=
  match q with
  | n :: q' => if is_read n then n :: read_prefix q' else []
  | [] => []
  end.

Fixpoint after_read_prefix (q : list Node) : list Node :=
  match q with
  | n :: q' => if is_read n then after_read_prefix q' else q
  | [] => []
  end.

(** The non-null waiters of a run of nodes, in queue order. *)
Definition waiters_of (ns : list Node) : list waiter_ptr :=
  omap waiter ns.

(** A writer inside, nothing else. *)
Definition writer_inside : shared_mutex := mkSM [] true 0 0 0 ∅ [].

(** A free lock with one reader (gate at address 7, still closed) queued. *)
Definition one_reader_queued : shared_mutex :=
  mkSM [mkNode Read 0 (Some 7%nat)] false 0 0 1 {[ 7%nat := false ]} [].

(** One reader inside, nobody else. *)
Definition one_reader_inside : shared_mutex := mkSM [] false 1 0 0 ∅ [].

End FairFifo.

(** ** Thread identities
    [std::thread::id]; the default-constructed id, which no running thread
    has, is [None] where an id is stored in a member. *)
Definition thread_id : Type := nat.

Definition same_thread (a b : thread_id) : bool := Nat.eqb a b.

Definition is_owner (this_id : thread_id) (owner : option thread_id) : bool :=
  match owner with
  | Some o => same_thread o this_id
  | None => false
  end.

(** ** Timed mutex: [TimedLock] of [src/mutex/spin_lock.cpp] *)
Module TimedLock.

(** [flag_] and the number of [cond_.notify_one()] calls made so far. *)
Record state : Type := mk {
  flag_ : bool;
  notify_count : nat
}.

Definition set_flag (b : bool) (s : state) : state :=
  mk b (notify_count s).

Definition notify_one (s : state) : state :=
  mk (flag_ s) (S (notify_count s)).

Definition not_held (s : state) : bool := negb (flag_ s).

(** A lock nobody holds, and a lock somebody holds. *)
Definition unheld : state := mk false 0.
Definition taken : state := mk true 0.

Definition lock (wakes : list (@wakeup state)) (s : state) : option state :=
  match cv_wait not_held wakes s with
  | Some s' => Some (set_flag true s')
  | None => None
  end.

(** The body has no check at all ("这里不检查..."): it clears the flag
    and notifies. *)
Definition unlock (s : state) : completion state :=
  Returned (notify_one (set_flag false s)).

Definition try_lock (s : state) : bool * state :=
  if flag_ s then (false, s) else (true, set_flag true s).

Definition try_lock_until (abs_time : Z) (wakes : list (@wakeup state))
           (s : state) : option (bool * state) :=
  if negb (flag_ s) then Some (true, set_flag true s)
  else match cv_wait_until not_held abs_time wakes s with
       | None => None
       | Some (false, s') => Some (false, s')
       | Some (true, s') => Some (true, set_flag true s')
       end.

(** [now] is the reading of [steady_clock::now()] taken by the call. *)
Definition try_lock_for (now rel_time : Z) (wakes : list (@wakeup state))
           (s : state) : option (bool * state) :=
  try_lock_until (now + rel_time) wakes s.

End TimedLock.

(** ** State shared by the two reentrant locks *)
Module Reentrant.

(** [owner_], [cnt_] (a [uint64_t]) and the number of notifications. *)
Record state : Type := mk {
  owner_ : option thread_id;
  cnt_ : Z;
  notify_count : nat
}.

Definition set_owner (o : option thread_id) (s : state) : state :=
  mk o (cnt_ s) (notify_count s).

Definition set_cnt (n : Z) (s : state) : state :=
  mk (owner_ s) n (notify_count s).

Definition notify_one (s : state) : state :=
  mk (owner_ s) (cnt_ s) (S (notify_count s)).

(** [++ cnt_] and [-- cnt_] on a [uint64_t]. *)
Definition incr_cnt (s : state) : state := set_cnt (wrap64 (cnt_ s + 1)) s.
Definition decr_cnt (s : state) : state := set_cnt (wrap64 (cnt_ s - 1)) s.

Definition initial : state := mk None 0 0.

(** [cnt_ == 0 || owner_ == this_id] *)
Definition available (this_id : thread_id) (s : state) : bool :=
  (cnt_ s =? 0) || is_owner this_id (owner_ s).

(** [count = 0 <-> owner = none], with the counter in its range. *)
Definition Inv (s : state) : Prop :=
  0 <= cnt_ s < 2 ^ 64 /\ (cnt_ s = 0 <-> owner_ s = None).

(** The counter can still be incremented without wrapping. *)
Definition room (s : state) : Prop := cnt_ s < 2 ^ 64 - 1.

(** The invariant holds and the counter is not at its largest value. *)
Definition good (s : state) : Prop := Inv s /\ room s.

(** Thread 1 holds the lock with the counter at its largest value. *)
Definition saturated : state := mk (Some 1%nat) (2 ^ 64 - 1) 0.

End Reentrant.

(** ** [RecursiveLock] of [src/mutex/recursive_lock.cpp] *)
Module RecursiveLock.
Import Reentrant.

Definition lock (this_id : thread_id) (wakes : list (@wakeup state))
           (s : state) : option state :=
  match cv_wait (available this_id) wakes s with
  | None => None
  | Some s1 =>
      let s2 := if cnt_ s1 =? 0 then set_owner (Some this_id) s1 else s1 in
      Some (incr_cnt s2)
  end.

(** [mtx_free]: whether [std::try_to_lock] obtained the internal mutex. *)
Definition try_lock (this_id : thread_id) (mtx_free : bool) (s : state)
  : bool * state :=
  if negb mtx_free then (false, s)
  else if cnt_ s =? 0 then (true, set_cnt 1 (set_owner (Some this_id) s))
  else if is_owner this_id (owner_ s) then (true, incr_cnt s)
  else (false, s).

Definition unlock (this_id : thread_id) (s : state) : completion state :=
  if negb (is_owner this_id (owner_ s)) then
    Thrown "unlock by another thread"
  else
    let s1 := decr_cnt s in
    if cnt_ s1 =? 0 then Returned (notify_one (set_owner None s1))
    else Returned s1.

End RecursiveLock.

(** ** [RecursiveTimedLock] of [src/unnamed/part_003] *)
Module RecursiveTimedLock.
Import Reentrant.

Definition lock (this_id : thread_id) (wakes : list (@wakeup state))
           (s : state) : option state :=
  match cv_wait (available this_id) wakes s with
  | None => None
  | Some s1 =>
      let s2 := if cnt_ s1 =? 0 then set_owner (Some this_id) s1 else s1 in
      Some (incr_cnt s2)
  end.

Definition try_lock (this_id : thread_id) (s : state) : bool * state :=
  if is_owner this_id (owner_ s) then (true, incr_cnt s)
  else if cnt_ s =? 0 then (true, set_cnt 1 (set_owner (Some this_id) s))
  else (false, s).

Definition unlock (this_id : thread_id) (s : state) : completion state :=
  if (cnt_ s =? 0) || negb (is_owner this_id (owner_ s)) then Terminated
  else
    let s1 := decr_cnt s in
    if cnt_ s1 =? 0 then Returned (notify_one (set_owner None s1))
    else Returned s1.

Definition unowned (s : state) : bool := cnt_ s =? 0.

Definition try_lock_until (this_id : thread_id) (abs_time : Z)
           (wakes : list (@wakeup state)) (s : state)
  : option (bool * state) :=
  if cnt_ s =? 0 then Some (true, set_cnt 1 (set_owner (Some this_id) s))
  else if is_owner this_id (owner_ s) then Some (true, incr_cnt s)
  else match cv_wait_until unowned abs_time wakes s with
       | None => None
       | Some (false, s') => Some (false, s')
       | Some (true, s') =>
           Some (true, set_cnt 1 (set_owner (Some this_id) s'))
       end.

Definition try_lock_for (this_id : thread_id) (now rel_time : Z)
           (wakes : list (@wakeup state)) (s : state)
  : option (bool * state) :=
  try_lock_until this_id (now + rel_time) wakes s.

End RecursiveTimedLock.

(** ** Multi-lock acquisition
    [my_sync_lib::detail::lock_all] of [src/unnamed/part_004] and
    [my_std_like::detail::Lock] of [src/mutex/rw_lock.cpp]. *)
Module MultiLock.

(** A lockable is named by its address. *)
Definition lockable : Type := nat.

Inductive event : Type :=
| EvLock (m : lockable)                 (* blocking [lock()] returned *)
| EvTryLock (m : lockable) (ok : bool)  (* [try_lock()] and its answer *)
| EvUnlock (m : lockable)
| EvYield.

(** What the calling thread holds, most recent first, and what it did. *)
Record caller : Type := mkCaller {
  held : list lockable;
  trace : list event
}.

Definition log (e : event) (c : caller) : caller :=
  mkCaller (held c) (trace c ++ [e]).

(** One acquisition of [m] less. *)
Fixpoint remove_first (m : lockable) (l : list lockable) : list lockable :=
  match l with
  | [] => []
  | x :: r => if Nat.eqb x m then r else x :: remove_first m r
  end.

(** [std::unique_lock<M> first(m)]: blocks until [m] is obtained. *)
Definition do_lock (m : lockable) (c : caller) : caller :=
  log (EvLock m) (mkCaller (m :: held c) (trace c)).

(** [std::unique_lock<M>(m, std::try_to_lock)]; [free] is the answer of
    [m.try_lock()]. *)
Definition do_try_lock (free : bool) (m : lockable) (c : caller) : caller :=
  log (EvTryLock m free)
      (if free then mkCaller (m :: held c) (trace c) else c).

(** The destructor of a [unique_lock] that still owns [m]. *)
Definition do_unlock (m : lockable) (c : caller) : caller :=
  log (EvUnlock m) (mkCaller (remove_first m (held c)) (trace c)).

Definition do_yield (c : caller) : caller := log EvYield c.

(** What the other threads leave a round to find: [avail i] is the
    answer [try_lock()] gives for the lockable at position [i] of the
    tuple when the round gets to it. *)
Definition availability : Type := Z -> bool.

(** *** [src/unnamed/part_004] *)

(** [TryLockRecursiveImpl<Tuple, Index, N>::do_try]; [t] holds the
    elements of the tuple from [Index] on.  The empty list is the
    [if constexpr (Index + 1 < N)] guard being false: nothing more to
    try. *)
Fixpoint do_try (avail : availability) (Index : Z) (t : list lockable)
         (c : caller) : bool * caller :=
  match t with
  | [] => (true, c)
  | m :: rest =>
      let c1 := do_try_lock (avail Index) m c in
      if avail Index then
        let '(ok, c2) := do_try avail (Index + 1) rest c1 in
        if ok then (true, c2)             (* first.release() *)
        else (false, do_unlock m c2)      (* ~unique_lock unlocks *)
      else (false, c1)
  end.

(** One iteration of the [for (;;)] of [lock_all]. *)
Definition lock_all_round (avail : availability) (m1 : lockable)
           (ms : list lockable) (c : caller) : bool * caller :=
  let c1 := do_lock m1 c in
  match ms with
  | [] => (true, c1)
  | _ :: _ =>
      let '(success, c2) := do_try avail 0 ms c1 in
      if success then (true, c2)
      else (false, do_unlock m1 (do_yield c2))
  end.

(** [None]: still retrying when the rounds supplied are used up. *)
Fixpoint lock_all (rounds : list availability) (m1 : lockable)
         (ms : list lockable) (c : caller) : option caller :=
  match rounds with
  | [] =>
      match ms with
      | [] => Some (do_lock m1 c)   (* no other lockable: no retry *)
      | _ :: _ => None
      end
  | avail :: later =>
      let '(done, c') := lock_all_round avail m1 ms c in
      if done then Some c' else lock_all later m1 ms c'
  end.

(** *** [src/mutex/rw_lock.cpp] *)

(** [TryLockImpl<Index>::DoTryLock(mtxes, index)]; [mtxes] holds the
    elements from [Index] on, the result is the final value of [index]. *)
Fixpoint DoTryLock (avail : availability) (Index : Z)
         (mtxes : list lockable) (index : Z) (c : caller) : Z * caller :=
  match mtxes with
  | [] => (index, c)
  | m :: rest =>
      let index := Index in
      let c1 := do_try_lock (avail Index) m c in
      if avail Index then
        let '(index, c2) :=
          match rest with
          | [] => (-1, c1)
          | _ :: _ => DoTryLock avail (Index + 1) rest index c1
          end in
        if index =? -1 then (index, c2)   (* lock.release() *)
        else (index, do_unlock m c2)      (* ~unique_lock unlocks *)
      else (index, c1)
  end.

(** One iteration of the [while (true)] of [Lock]. *)
Definition Lock_round (avail : availability) (m1 m2 : lockable)
           (m3 : list lockable) (c : caller) : bool * caller :=
  let c1 := do_lock m1 c in
  let index := 0 in
  let '(index, c2) :=
    match m3 with
    | _ :: _ => DoTryLock avail 0 (m2 :: m3) index c1
    | [] =>
        let c' := do_try_lock (avail 0) m2 c1 in
        if avail 0 then (-1, c') else (index, c')
    end in
  if index =? -1 then (true, c2)          (* first.release(); return *)
  else (false, do_unlock m1 c2).          (* ~unique_lock unlocks m1 *)

Fixpoint Lock (rounds : list availability) (m1 m2 : lockable)
         (m3 : list lockable) (c : caller) : option caller :=
  match rounds with
  | [] => None
  | avail :: later =>
      let '(done, c') := Lock_round avail m1 m2 m3 c in
      if done then Some c' else Lock later m1 m2 m3 c'
  end.

Definition nobody : caller := mkCaller [] [].

(** *** What a round is expected to do *)

(** Every [try_lock] of the round succeeds. *)
Fixpoint all_free (avail : availability) (Index : Z) (t : list lockable)
  : bool :=
  match t with
  | [] => true
  | _ :: r => avail Index && all_free avail (Index + 1) r
  end.

(** The lockables a round obtains by [try_lock]: the longest prefix of
    [t] for which the answers are all yes; and the one it fails on. *)
Fixpoint available_prefix (avail : availability) (Index : Z)
         (t : list lockable) : list lockable :=
  match t with
  | [] => []
  | m :: r =>
      if avail Index then m :: available_prefix avail (Index + 1) r else []
  end.

Fixpoint first_unavailable (avail : availability) (Index : Z)
         (t : list lockable) : option lockable :=
  match t with
  | [] => None
  | m :: r =>
      if avail Index then first_unavailable avail (Index + 1) r else Some m
  end.

(** The try phase: try-lock in order; at the first failure release what
    was obtained, latest first. *)
Definition try_phase (avail : availability) (Index : Z) (t : list lockable)
  : list event :=
  map (fun m => EvTryLock m true) (available_prefix avail Index t)
  ++ match first_unavailable avail Index t with
     | Some m =>
         EvTryLock m false
           :: map EvUnlock (rev (available_prefix avail Index t))
     | None => []
     end.

(** The lockable at position 1 of the tuple (the third lockable of the
    call) is taken, the others are free. *)
Definition third_busy : availability := fun i => negb (i =? 1).

(** Every lockable is free. *)
Definition all_idle : availability := fun _ => true.

End MultiLock.

(** ** Task queue
    [TaskQueue] of [src/unnamed/part_005] and of
    [src/thread_pool/src/_v4.hpp].  Time points are readings of
    [std::chrono::steady_clock], in its ticks (nanoseconds). *)
Module TaskQueue.
Section WithTask.
(** [Task = std::function<void()>], opaque here. *)
Context {Task : Type}.

Record TimeTask : Type := mkTimeTask {
  exec_tm_ : Z;
  task_ : Task
}.

Inductive PopResult : Type := OK | STOPPED | TIMEOUT.

Inductive notification : Type := NotifyOne | NotifyAll.

(** [delay_tasks_] is a [std::priority_queue<TimeTask>] whose [operator<]
    is reversed, so [top()] is an element of least [exec_tm_].  Its
    elements are kept here in a list; which of several elements with the
    same [exec_tm_] is on top is the library's choice and is not fixed by
    the model (see [DelayHeap] below). *)
Record TaskQueue : Type := mkTQ {
  tasks_ : list Task;
  delay_tasks_ : list TimeTask;
  stop_ : bool;
  cond_ : list notification
}.

Definition set_tasks (l : list Task) (q : TaskQueue) : TaskQueue :=
  mkTQ l (delay_tasks_ q) (stop_ q) (cond_ q).

Definition set_delay_tasks (d : list TimeTask) (q : TaskQueue) : TaskQueue :=
  mkTQ (tasks_ q) d (stop_ q) (cond_ q).

Definition set_stop (b : bool) (q : TaskQueue) : TaskQueue :=
  mkTQ (tasks_ q) (delay_tasks_ q) b (cond_ q).

Definition notify (n : notification) (q : TaskQueue) : TaskQueue :=
  mkTQ (tasks_ q) (delay_tasks_ q) (stop_ q) (cond_ q ++ [n]).

Definition empty_queue : TaskQueue := mkTQ [] [] false [].

(** [priority_queue::emplace] *)
Definition pq_emplace (x : TimeTask) (pq : list TimeTask) : list TimeTask :=
  pq ++ [x].

(** The library's heap.  The list is the content of the queue, [emplace]
    adding at its end; a heap says, for a content, which element [top()]
    is and what content [pop()] leaves ([None] on an empty queue).  The
    binary heap of the standard library is one: for a content it is the
    array obtained by pushing the elements in order, and the array that
    [pop()] leaves, read by index, is a content giving that array again.
    Every definition below works with whatever heap is supplied. *)
Class DelayHeap : Type :=
  pq_extract : list TimeTask -> option (TimeTask * list TimeTask).

(** What [std::priority_queue] promises: [top()] is an element that no
    other element precedes (here: of least [exec_tm_]), and [pop()]
    removes it and nothing else. *)
Definition lawful (extract : list TimeTask -> option (TimeTask * list TimeTask))
  : Prop :=
  (forall pq, extract pq = None <-> pq = [])
  /\ (forall pq d rest,
         extract pq = Some (d, rest) ->
         Permutation pq (d :: rest)
         /\ List.Forall (fun y => exec_tm_ d <= exec_tm_ y) rest).

(** One such heap, used to run examples: among the elements of least
    [exec_tm_] it takes the one inserted first. *)
Fixpoint first_least (pq : list TimeTask) : option (TimeTask * list TimeTask) :=
  match pq with
  | [] => None
  | x :: r =>
      match first_least r with
      | None => Some (x, [])
      | Some (y, r') =>
          if exec_tm_ x <=? exec_tm_ y then Some (x, r)
          else Some (y, x :: r')
      end
  end.

Context {heap : DelayHeap}.

Definition pq_top (pq : list TimeTask) : option TimeTask :=
  fst <$> pq_extract pq.

Definition is_nil {A} (l : list A) : bool :=
  match l with [] => true | _ :: _ => false end.

(** [size()] *)
Definition size (q : TaskQueue) : nat :=
  (length (tasks_ q) + length (delay_tasks_ q))%nat.

(** The submissions and [stop] are the same in both files
    ([push_priority] is called [push_front] in [_v4.hpp]). *)
Definition stop (q : TaskQueue) : TaskQueue :=
  notify NotifyAll (set_stop true q).

Definition push (task : Task) (q : TaskQueue) : TaskQueue :=
  if stop_ q then q
  else notify NotifyOne (set_tasks (tasks_ q ++ [task]) q).

Definition push_priority (task : Task) (q : TaskQueue) : TaskQueue :=
  if stop_ q then q
  else notify NotifyOne (set_tasks (task :: tasks_ q) q).

Definition push_front := push_priority.

Definition push_delay (task : Task) (exec_tm : Z) (q : TaskQueue) : TaskQueue :=
  if stop_ q then q
  else notify NotifyOne
         (set_delay_tasks (pq_emplace (mkTimeTask exec_tm task) (delay_tasks_ q)) q).

(** What [pop] hands back: the result, the task moved into [out_task]
    (if any) and the queue it leaves. *)
Definition popped : Type := PopResult * option Task * TaskQueue.

(** [!delay_tasks_.empty() && delay_tasks_.top().exec_tm_ <= now]:
    the top element and the heap without it when the test holds. *)
Definition ready_delay_task (now : Z) (q : TaskQueue)
  : option (TimeTask * list TimeTask) :=
  match pq_extract (delay_tasks_ q) with
  | Some (top, rest) => if exec_tm_ top <=? now then Some (top, rest) else None
  | None => None
  end.

(** [top_copy = top(); pop(); out_task = move(top_copy.task_); return OK] *)
Definition take_delayed (top_copy : TimeTask) (rest : list TimeTask)
           (q : TaskQueue) : popped :=
  (OK, Some (task_ top_copy), set_delay_tasks rest q).

(** [out_task = move(tasks_.front()); tasks_.pop_front(); return OK] *)
Definition take_normal (q : TaskQueue) : option popped :=
  match tasks_ q with
  | t :: rest => Some (OK, Some t, set_tasks rest q)
  | [] => None
  end.

Inductive cv_status : Type := no_timeout | timeout.

Definition is_timeout (c : cv_status) : bool :=
  match c with timeout => true | no_timeout => false end.

(** What a consumer finds when it gets past a wait of [pop] (or, in
    [_v4.hpp], past a [continue]): the status the wait returned, the queue
    as the other threads left it, the clock read right after the wait and
    the clock read at the top of the next iteration. *)
Record wake : Type := mkWake {
  wk_status : cv_status;
  wk_queue : TaskQueue;
  wk_clock : Z;
  wk_now : Z
}.

(** *** [pop] of [src/unnamed/part_005] *)

(** Steps 1-3 of one iteration; [inr] carries [wait_until_tm]. *)
Definition pop_try (deadline now : Z) (q : TaskQueue) : popped + Z :=
  if stop_ q && is_nil (delay_tasks_ q) && is_nil (tasks_ q) then
    inl (STOPPED, None, q)
  else match ready_delay_task now q with
       | Some (top_copy, rest) => inl (take_delayed top_copy rest q)
       | None =>
           match take_normal q with
           | Some r => inl r
           | None =>
               inr (match pq_top (delay_tasks_ q) with
                    | Some top => Z.min deadline (exec_tm_ top)
                    | None => deadline
                    end)
           end
       end.

Fixpoint pop_loop (deadline now : Z) (q : TaskQueue) (wakes : list wake)
  : option popped :=
  match pop_try deadline now q with
  | inl r => Some r
  | inr wait_until_tm =>
      match wakes with
      | [] => None
      | w :: ws =>
          if is_timeout (wk_status w) && (deadline <=? wk_clock w) then
            Some (TIMEOUT, None, wk_queue w)
          else pop_loop deadline (wk_now w) (wk_queue w) ws
      end
  end.

Definition ticks_per_second : Z := 1000000000.
Definition ticks_per_millisecond : Z := 1000000.

(** [auto deadline = steady_clock::now() + idle_timeout;]
    [entry] is the clock read here, [idle_timeout] a number of seconds;
    the seconds are turned into the nanosecond ticks of the clock and
    added in 64-bit signed arithmetic. *)
Definition idle_deadline (entry idle_timeout : Z) : Z :=
  wrap_i64 (entry + idle_timeout * ticks_per_second).

(** [now] is the first clock read of the loop. *)
Definition pop (entry idle_timeout now : Z) (q : TaskQueue)
           (wakes : list wake) : option popped :=
  pop_loop (idle_deadline entry idle_timeout) now q wakes.

(** *** [pop] of [src/thread_pool/src/_v4.hpp] *)

(** Steps 1-4 of one iteration. *)
Definition pop_try_v4 (now : Z) (q : TaskQueue) : option popped :=
  match ready_delay_task now q with
  | Some (top_copy, rest) => Some (take_delayed top_copy rest q)
  | None =>
      match take_normal q with
      | Some r => Some r
      | None =>
          if stop_ q && is_nil (tasks_ q) && is_nil (delay_tasks_ q)
          then Some (STOPPED, None, q)
          else None
      end
  end.

(** Step 5: the wait in milliseconds ([duration_cast] truncates). *)
Definition wait_duration (idle_timeout now : Z) (q : TaskQueue) : Z :=
  let wait_duration := idle_timeout * 1000 in
  match pq_top (delay_tasks_ q) with
  | Some top =>
      let time_until_next_ms :=
        Z.quot (exec_tm_ top - now) ticks_per_millisecond in
      let time_until_next_ms :=
        if time_until_next_ms <? 0 then 0 else time_until_next_ms in
      if time_until_next_ms <? wait_duration then time_until_next_ms
      else wait_duration
  | None => wait_duration
  end.

(** Step 6, after [cond_.wait_for] has returned. *)
Definition after_wait_v4 (idle_timeout wait_duration : Z) (w : wake)
  : option popped :=
  let q := wk_queue w in
  let now := wk_clock w in
  if is_timeout (wk_status w) then
    let no_normal_task := is_nil (tasks_ q) in
    let no_ready_delay :=
      match pq_top (delay_tasks_ q) with
      | None => true
      | Some top => now <? exec_tm_ top
      end in
    if stop_ q && no_normal_task && is_nil (delay_tasks_ q) then
      Some (STOPPED, None, q)
    else if no_normal_task && no_ready_delay
            && (idle_timeout * 1000 <=? wait_duration) then
      Some (TIMEOUT, None, q)
    else None
  else None.

Fixpoint pop_v4 (idle_timeout now : Z) (q : TaskQueue) (wakes : list wake)
  : option popped :=
  match pop_try_v4 now q with
  | Some r => Some r
  | None =>
      let wd := wait_duration idle_timeout now q in
      match wakes with
      | [] => None
      | w :: ws =>
          if wd <=? 0 then
            (* [continue]: the mutex is kept, only the clock moves *)
            pop_v4 idle_timeout (wk_now w) q ws
          else match after_wait_v4 idle_timeout wd w with
               | Some r => Some r
               | None => pop_v4 idle_timeout (wk_now w) (wk_queue w) ws
               end
      end
  end.

(** *** What one decision of [pop] does *)

(** [picked now q r]: with the clock at [now] and the queue [q] the first
    steps of the loop return [r], the delayed task being the one the heap
    has on top. *)
Definition picked (now : Z) (q : TaskQueue) (r : popped) : Prop :=
  (exists d rest,
      pq_extract (delay_tasks_ q) = Some (d, rest)
      /\ exec_tm_ d <= now
      /\ r = (OK, Some (task_ d), set_delay_tasks rest q))
  \/ (ready_delay_task now q = None
      /\ exists t ts, tasks_ q = t :: ts /\ r = (OK, Some t, set_tasks ts q))
  \/ (stop_ q = true /\ tasks_ q = [] /\ delay_tasks_ q = []
      /\ r = (STOPPED, None, q)).

(** Consumers calling [pop] over and over ([pop_once] is one such call):
    the tasks handed out, in order, and the queue left when a call hands
    out no task or [fuel] calls have been made. *)
Fixpoint drain_with (pop_once : TaskQueue -> option popped) (fuel : nat)
         (q : TaskQueue) : list Task * TaskQueue :=
  match fuel with
  | O => ([], q)
  | S fuel' =>
      match pop_once q with
      | Some (OK, Some t, q') =>
          let '(ts, q'') := drain_with pop_once fuel' q' in (t :: ts, q'')
      | _ => ([], q)
      end
  end.

(** Every call made at clock [now], with no wake-up to rely on. *)
Definition drain (fuel : nat) (entry idle_timeout now : Z) (q : TaskQueue)
  : list Task * TaskQueue :=
  drain_with (fun q0 => pop entry idle_timeout now q0 []) fuel q.

Definition drain_v4 (fuel : nat) (idle_timeout now : Z) (q : TaskQueue)
  : list Task * TaskQueue :=
  drain_with (fun q0 => pop_v4 idle_timeout now q0 []) fuel q.

(** Every delayed task of [q] is due at [now]. *)
Definition all_due (now : Z) (q : TaskQueue) : Prop :=
  List.Forall (fun d => exec_tm_ d <= now) (delay_tasks_ q).

(** *** The selection order in the words of the specification *)

(** [d] is a delayed task of [q] of earliest deadline, [rest] the other
    delayed tasks. *)
Definition earliest (q : TaskQueue) (d : TimeTask) (rest : list TimeTask)
  : Prop :=
  Permutation (delay_tasks_ q) (d :: rest)
  /\ List.Forall (fun y => exec_tm_ d <= exec_tm_ y) rest.

(** No delayed task of [q] is due at [now]. *)
Definition none_due (now : Z) (q : TaskQueue) : Prop :=
  List.Forall (fun y => now < exec_tm_ y) (delay_tasks_ q).

(** [selected now q r]: at clock [now] and queue [q] the rules allow [r].
    1. the earliest deadline of the delay heap has come: a delayed task of
       that deadline is extracted and returned;
    2. else the FIFO is not empty: its front is returned;
    3. the queue is stopped and both structures are empty: [STOPPED]. *)
Definition selected (now : Z) (q : TaskQueue) (r : popped) : Prop :=
  (exists d rest,
      earliest q d rest /\ exec_tm_ d <= now
      /\ r = (OK, Some (task_ d), set_delay_tasks rest q))
  \/ (none_due now q
      /\ exists t ts, tasks_ q = t :: ts /\ r = (OK, Some t, set_tasks ts q))
  \/ (stop_ q = true /\ tasks_ q = [] /\ delay_tasks_ q = []
      /\ r = (STOPPED, None, q)).

End WithTask.
Arguments TimeTask : clear implicits.
Arguments TaskQueue : clear implicits.
Arguments popped : clear implicits.
Arguments wake : clear implicits.
Arguments DelayHeap : clear implicits.

(** The heap the examples run with. *)
#[export] Instance first_least_heap {Task : Type} : DelayHeap Task :=
  first_least.

End TaskQueue.

(** ** Worker pool: the constructor
    [ThreadPool::ThreadPool] of [src/unnamed/part_007] and of
    [src/thread_pool/src/_v4.hpp]. *)
Module ThreadPool.
Section WithTask.
Context {Task : Type}.

(** A [std::thread] object: the handle of the thread it manages. *)
Record thread : Type := mkThread { get_id : thread_id }.

(** The members of [ThreadPool] ([idle_timeout_sec_] and [stop_] in
    [part_007] are [idle_timeout_] and [stopping_] in [_v4.hpp]). *)
Record pool : Type := mkPool {
  min_threads_ : Z;
  max_threads_ : Z;
  idle_timeout_ : Z;
  queue_ : TaskQueue.TaskQueue Task;
  workers_ : gmap thread_id thread;
  dead_workers_ : list thread;
  idle_threads_ : Z;
  stopping_ : bool
}.

(** The part of the process the constructor acts on: the pool under
    construction, the next thread id the system hands out and the threads
    started so far.  The pool shows what the constructor itself writes;
    the workers it starts run [worker_loop] on their own and cannot touch
    [workers_] before the constructor gives up [thread_mutex_]. *)
Record world : Type := mkWorld {
  the_pool : pool;
  next_thread_id : thread_id;
  started : list thread_id
}.

(** [std::thread t(&ThreadPool::worker_loop, this);]
    [workers_.emplace(t.get_id(), std::move(t));]
    ([emplace] keeps an entry that is already there). *)
Definition spawn_worker (w : world) : world :=
  let t := mkThread (next_thread_id w) in
  let p := the_pool w in
  let workers' :=
    match workers_ p !! get_id t with
    | Some _ => workers_ p
    | None => <[get_id t := t]> (workers_ p)
    end in
  mkWorld (mkPool (min_threads_ p) (max_threads_ p) (idle_timeout_ p)
                  (queue_ p) workers' (dead_workers_ p)
                  (idle_threads_ p) (stopping_ p))
          (S (get_id t)) (started w ++ [get_id t]).

(** [for (int i = 0; i < bound; i++) spawn], [i] being an [int]. *)
Fixpoint spawn_loop (fuel : nat) (i bound : Z) (w : world) : option world :=
  if i <? bound then
    match fuel with
    | O => None
    | S fuel' => spawn_loop fuel' (wrap32 (i + 1)) bound (spawn_worker w)
    end
  else Some w.

(** The member initialisers, before the body runs. *)
Definition init_members (min_threads max_threads idle_timeout_sec : Z) : pool :=
  mkPool min_threads (Z.max min_threads max_threads) idle_timeout_sec
         TaskQueue.empty_queue ∅ [] 0 false.

(** [part_007]: the loop runs to the parameter [min_threads]. *)
Definition ThreadPool (fuel : nat) (first_id : thread_id)
           (min_threads max_threads idle_timeout_sec : Z) : option world :=
  spawn_loop fuel 0 min_threads
             (mkWorld (init_members min_threads max_threads idle_timeout_sec)
                      first_id []).

(** [_v4.hpp]: the loop runs to the member [min_threads_]. *)
Definition ThreadPool_v4 (fuel : nat) (first_id : thread_id)
           (min_threads max_threads idle_timeout_sec : Z) : option world :=
  let p := init_members min_threads max_threads idle_timeout_sec in
  spawn_loop fuel 0 (min_threads_ p) (mkWorld p first_id []).

(** The world after [n] more workers have been spawned. *)
Fixpoint spawn_n (n : nat) (w : world) : world :=
  match n with
  | O => w
  | S k => spawn_n k (spawn_worker w)
  end.

(** Thread ids not yet handed out are not in [workers_]. *)
Definition ids_fresh (w : world) : Prop :=
  forall id : thread_id,
    (next_thread_id w <= id)%nat -> workers_ (the_pool w) !! id = None.

End WithTask.
Arguments pool : clear implicits.
Arguments world : clear implicits.
End ThreadPool.

(** ** Fair FIFO reader-writer lock: the blocking acquisitions
    [lock] and [lock_shared] of [src/mutex/rw_lock.cpp] (709-729, 754-776)
    and [lock_shared] of [src/1.cpp] (74-92). *)
Module FairFifoBlocking.
Import FairFifo.

Definition set_go (g : gmap waiter_ptr bool) (s : shared_mutex) : shared_mutex :=
  mkSM (q_ s) (has_writer_ s) (reader_cnt_ s) (pending_readers_ s)
       (next_ticket_ s) g (notified s).

(** [Waiter w;] at address [w]: its gate starts closed. *)
Definition new_waiter (w : waiter_ptr) (s : shared_mutex) : shared_mutex :=
  set_go (<[w := false]> (go s)) s.

(** The [Waiter] goes out of scope when the call returns. *)
Definition end_waiter (w : waiter_ptr) (s : shared_mutex) : shared_mutex :=
  set_go (delete w (go s)) s.

(** The predicate of [w.cv.wait(lk, [&]{ return w.go; })]. *)
Definition gate_open (w : waiter_ptr) (s : shared_mutex) : bool :=
  match go s !! w with
  | Some b => b
  | None => false
  end.

(** [my_ticket = next_ticket_++; q_.push_back(Node{m, my_ticket, &w});] *)
Definition enqueue (m : Mode) (w : waiter_ptr) (s : shared_mutex)
  : shared_mutex :=
  mkSM (q_ s ++ [mkNode m (next_ticket_ s) (Some w)])
       (has_writer_ s) (reader_cnt_ s) (pending_readers_ s)
       (wrap64 (next_ticket_ s + 1)) (go s) (notified s).

(** The part of an acquisition before the wait: the waiter is created,
    the node queued and the scheduler run. *)
Definition arrive (m : Mode) (w : waiter_ptr) (s : shared_mutex)
  : shared_mutex :=
  wake_next_ (enqueue m w (new_waiter w s)).

(** How [lock] ends: inside, or stopped by one of its two [assert]s. *)
Inductive entry : Type :=
| Entered (s : shared_mutex)
| AssertionFailed.

(** The part of [lock] after the wait: the two [assert]s,
    [q_.pop_front(); has_writer_ = true;]. *)
Definition lock_enter (my_ticket : Z) (w : waiter_ptr) (s : shared_mutex)
  : entry :=
  match q_ s with
  | [] => AssertionFailed
  | n :: rest =>
      if is_read n then AssertionFailed
      else if negb (ticket n =? my_ticket) then AssertionFailed
      else Entered (end_waiter w (set_has_writer true (set_q rest s)))
  end.

Definition lock (w : waiter_ptr) (wakes : list (@wakeup shared_mutex))
           (s : shared_mutex) : option entry :=
  match cv_wait (gate_open w) wakes (arrive Write w s) with
  | None => None
  | Some s1 => Some (lock_enter (next_ticket_ s) w s1)
  end.

(** The part of [lock_shared] after the wait:
    [++ reader_cnt_; -- pending_readers_;]. *)
Definition lock_shared_enter (w : waiter_ptr) (s : shared_mutex)
  : shared_mutex :=
  end_waiter w
    (set_pending_readers (wrap64 (pending_readers_ s - 1))
       (set_reader_cnt (wrap64 (reader_cnt_ s + 1)) s)).

Definition lock_shared (w : waiter_ptr) (wakes : list (@wakeup shared_mutex))
           (s : shared_mutex) : option shared_mutex :=
  match cv_wait (gate_open w) wakes (arrive Read w s) with
  | None => None
  | Some s1 => Some (lock_shared_enter w s1)
  end.

(** *** [lock_shared] of [src/1.cpp] *)

Definition scratch_arrive (m : Mode) (w : waiter_ptr) (s : shared_mutex)
  : shared_mutex :=
  Scratch.wake_next_ (enqueue m w (new_waiter w s)).

(** [++ reader_cnt_; if (pending_readers_ > 0) -- pending_readers_;] *)
Definition scratch_lock_shared_enter (w : waiter_ptr) (s : shared_mutex)
  : shared_mutex :=
  let s1 := set_reader_cnt (wrap64 (reader_cnt_ s + 1)) s in
  end_waiter w
    (if 0 <? pending_readers_ s1
     then set_pending_readers (wrap64 (pending_readers_ s1 - 1)) s1
     else s1).

Definition scratch_lock_shared (w : waiter_ptr)
           (wakes : list (@wakeup shared_mutex)) (s : shared_mutex)
  : option shared_mutex :=
  match cv_wait (gate_open w) wakes (scratch_arrive Read w s) with
  | None => None
  | Some s1 => Some (scratch_lock_shared_enter w s1)
  end.

(** *** Runs of calls *)

(** The readers at [ws] enter one after the other. *)
Definition readers_enter (ws : list waiter_ptr) (s : shared_mutex)
  : shared_mutex :=
  fold_left (fun acc w => lock_shared_enter w acc) ws s.

(** [k] readers leave one after the other. *)
Fixpoint readers_leave (k : nat) (s : shared_mutex) : shared_mutex :=
  match k with
  | O => s
  | S k' => readers_leave k' (unlock_shared s)
  end.

(** The members of the lock (queue and counters) agree; the gates and
    the notification log may differ. *)
Definition same_members (a b : shared_mutex) : Prop :=
  q_ a = q_ b /\ has_writer_ a = has_writer_ b
  /\ reader_cnt_ a = reader_cnt_ b
  /\ pending_readers_ a = pending_readers_ b
  /\ next_ticket_ a = next_ticket_ b.

(** A free lock with nobody queued. *)
Definition idle (s : shared_mutex) : Prop :=
  lock_free s /\ q_ s = [].

(** Three readers, a writer and a fourth reader queued on a free lock
    (gates at addresses 1 to 5). *)
Definition rrrwr : shared_mutex :=
  mkSM [mkNode Read 0 (Some 1%nat); mkNode Read 1 (Some 2%nat);
        mkNode Read 2 (Some 3%nat); mkNode Write 3 (Some 4%nat);
        mkNode Read 4 (Some 5%nat)]
       false 0 0 5
       (list_to_map [(1%nat, false); (2%nat, false); (3%nat, false);
                     (4%nat, false); (5%nat, false)])
       [].

End FairFifoBlocking.

(** ** [lock] of [src/1.cpp] (26-50) *)
Module ScratchLock.
Import FairFifo FairFifoBlocking.

Definition can_run_writer_unsafe_ (s : shared_mutex) : bool :=
  negb (has_writer_ s)
  && (reader_cnt_ s =? 0)
  && (pending_readers_ s =? 0)
  && match q_ s with
     | n :: _ => negb (is_read n)
     | [] => false
     end.

(** The negation of the condition of the [while] of [lock]. *)
Definition may_enter (my_ticket : Z) (s : shared_mutex) : bool :=
  can_run_writer_unsafe_ s
  && match q_ s with
     | n :: _ => negb (is_read n) && (ticket n =? my_ticket)
     | [] => false
     end.

(** [q_.pop_front(); has_writer_ = true;] and the end of the [Waiter]. *)
Definition enter (w : waiter_ptr) (s : shared_mutex) : shared_mutex :=
  end_waiter w (set_has_writer true (set_q (tail (q_ s)) s)).

(** The two waits of [lock] from a state the thread looks at with the
    mutex held: with its gate closed it waits; with its gate open it
    enters if [may_enter] holds, and otherwise closes its gate
    ([w.go = false]) and waits again.  After a wait it looks at the state
    found at the wake-up. *)
Fixpoint lock_from (my_ticket : Z) (w : waiter_ptr)
         (wakes : list (@wakeup shared_mutex)) (s : shared_mutex)
  : option shared_mutex :=
  if gate_open w s && may_enter my_ticket s then Some (enter w s)
  else match wakes with
       | [] => None
       | (_, s') :: ws => lock_from my_ticket w ws s'
       end.

Definition lock (w : waiter_ptr) (wakes : list (@wakeup shared_mutex))
           (s : shared_mutex) : option shared_mutex :=
  lock_from (next_ticket_ s) w wakes (scratch_arrive Write w s).

End ScratchLock.

(** ** Fair FIFO reader-writer lock: the threads using it
    The transitions the threads make on a [fair_fifo::shared_mutex] of
    [src/mutex/rw_lock.cpp] when they keep to its protocol: a release is
    made by a thread that is inside, a waiter goes on once its gate is
    open, the [Waiter] of a new acquisition is at an address no live
    [Waiter] has, and the 64-bit counters are not exhausted. *)
Module FairFifoProtocol.
Import FairFifo FairFifoBlocking.

(** The waiters whose nodes are queued. *)
Definition queued (s : shared_mutex) : list waiter_ptr := waiters_of (q_ s).

(** A lock as constructed. *)
Definition new_lock : shared_mutex := mkSM [] false 0 0 0 ∅ [].

(** The gate at [w] belongs to a reader: a queued node of it is [Read]. *)
Definition reader_gate (w : waiter_ptr) (s : shared_mutex) : Prop :=
  forall n, n ∈ q_ s -> waiter n = Some w -> mode n = Read.

Inductive step : shared_mutex -> shared_mutex -> Prop :=
| step_try_lock s :
    step s (snd (try_lock s))
| step_try_lock_shared s :
    reader_cnt_ s < 2 ^ 64 - 1 ->
    step s (snd (try_lock_shared s))
| step_arrive m w s :
    (* first half of [lock] and [lock_shared] *)
    go s !! w = None ->
    Z.of_nat (length (q_ s)) + 1 < 2 ^ 64 ->
    step s (arrive m w s)
| step_writer_enters my_ticket w s s' :
    (* second half of [lock], by the thread that queued the node *)
    gate_open w s = true ->
    mkNode Write my_ticket (Some w) ∈ q_ s ->
    lock_enter my_ticket w s = Entered s' ->
    step s s'
| step_reader_enters w s :
    (* second half of [lock_shared] *)
    gate_open w s = true ->
    reader_gate w s ->
    reader_cnt_ s < 2 ^ 64 - 1 ->
    step s (lock_shared_enter w s)
| step_unlock s :
    has_writer_ s = true ->
    step s (unlock s)
| step_unlock_shared s :
    0 < reader_cnt_ s ->
    step s (unlock_shared s).

Inductive reachable : shared_mutex -> Prop :=
| reach_new : reachable new_lock
| reach_step s s' : reachable s -> step s s' -> reachable s'.

(** What every reachable state satisfies.  [adm] lists the readers that
    have been admitted (gate open, node taken off the queue) and are yet
    to enter. *)
Record Inv (s : shared_mutex) : Prop := mkInv {
  inv_excl : has_writer_ s = true ->
             reader_cnt_ s = 0 /\ pending_readers_ s = 0;
  inv_cnt : 0 <= reader_cnt_ s < 2 ^ 64;
  inv_pend : pending_readers_ s < 2 ^ 64;
  inv_len : Z.of_nat (length (q_ s)) < 2 ^ 64;
  inv_nodes : List.Forall (fun n => waiter n <> None) (q_ s);
  inv_nodup : NoDup (queued s);
  inv_gates : forall w, w ∈ queued s -> go s !! w <> None;
  inv_head : forall w, w ∈ queued s -> go s !! w = Some true ->
             lock_free s
             /\ exists t rest, q_ s = mkNode Write t (Some w) :: rest;
  inv_adm : exists adm,
      NoDup adm
      /\ (forall w, w ∈ adm <-> go s !! w = Some true /\ w ∉ queued s)
      /\ pending_readers_ s = Z.of_nat (length adm)
}.

(** The head of the queue of a free lock is a writer whose gate is
    open. *)
Definition head_signalled (s : shared_mutex) : Prop :=
  lock_free s ->
  forall n rest, q_ s = n :: rest ->
    mode n = Write /\ exists w, waiter n = Some w /\ gate_open w s = true.

(** A writer and a reader arrive at a new lock, in this order; the
    writer enters. *)
Definition writer_then_reader : shared_mutex :=
  arrive Read 2%nat (arrive Write 1%nat new_lock).

End FairFifoProtocol.

(** ** Reader-preference and writer-preference locks
    [reader_pref::shared_mutex] and [writer_pref::shared_mutex] of
    [src/mutex/rw_lock.cpp] (464-512 and 517-566; the copies at 24-78 and
    83-140 differ in the names of the members only). *)
Module PrefLocks.

(** [has_writer_], [reader_cnt_] and [writer_waiter_] (both [int];
    [reader_pref] has no [writer_waiter_], it stays 0 there) and the number
    of [cond_.notify_all()] calls. *)
Record state : Type := mk {
  has_writer_ : bool;
  reader_cnt_ : Z;
  writer_waiter_ : Z;
  notify_all_count : nat
}.

Definition set_has_writer (b : bool) (s : state) : state :=
  mk b (reader_cnt_ s) (writer_waiter_ s) (notify_all_count s).

Definition set_reader_cnt (n : Z) (s : state) : state :=
  mk (has_writer_ s) n (writer_waiter_ s) (notify_all_count s).

Definition set_writer_waiter (n : Z) (s : state) : state :=
  mk (has_writer_ s) (reader_cnt_ s) n (notify_all_count s).

Definition notify_all (s : state) : state :=
  mk (has_writer_ s) (reader_cnt_ s) (writer_waiter_ s)
     (S (notify_all_count s)).

(** [!has_writer_ && reader_cnt_ == 0] *)
Definition nobody_inside (s : state) : bool :=
  negb (has_writer_ s) && (reader_cnt_ s =? 0).

(** The two releases are the same in both classes. *)
Definition unlock (s : state) : state :=
  notify_all (set_has_writer false s).

Definition unlock_shared (s : state) : state :=
  let s1 := set_reader_cnt (wrap32 (reader_cnt_ s - 1)) s in
  if reader_cnt_ s1 =? 0 then notify_all s1 else s1.

(** So is [try_lock]. *)
Definition try_lock (s : state) : bool * state :=
  if nobody_inside s then (true, set_has_writer true s) else (false, s).

(** [++ reader_cnt_] *)
Definition add_reader (s : state) : state :=
  set_reader_cnt (wrap32 (reader_cnt_ s + 1)) s.

Module ReaderPref.

Definition lock (wakes : list (@wakeup state)) (s : state) : option state :=
  match cv_wait nobody_inside wakes s with
  | None => None
  | Some s1 => Some (set_has_writer true s1)
  end.

Definition no_writer (s : state) : bool := negb (has_writer_ s).

Definition lock_shared (wakes : list (@wakeup state)) (s : state)
  : option state :=
  match cv_wait no_writer wakes s with
  | None => None
  | Some s1 => Some (add_reader s1)
  end.

Definition try_lock_shared (s : state) : bool * state :=
  if has_writer_ s then (false, s) else (true, add_reader s).

End ReaderPref.

Module WriterPref.

(** [++ writer_waiter_;], the part of [lock] before the wait. *)
Definition lock_arrive (s : state) : state :=
  set_writer_waiter (wrap32 (writer_waiter_ s + 1)) s.

(** [-- writer_waiter_; has_writer_ = true;], the part after it. *)
Definition lock_enter (s : state) : state :=
  set_has_writer true (set_writer_waiter (wrap32 (writer_waiter_ s - 1)) s).

Definition lock (wakes : list (@wakeup state)) (s : state) : option state :=
  match cv_wait nobody_inside wakes (lock_arrive s) with
  | None => None
  | Some s1 => Some (lock_enter s1)
  end.

(** [!has_writer_ && writer_waiter_ == 0] *)
Definition no_writer_at_all (s : state) : bool :=
  negb (has_writer_ s) && (writer_waiter_ s =? 0).

Definition lock_shared (wakes : list (@wakeup state)) (s : state)
  : option state :=
  match cv_wait no_writer_at_all wakes s with
  | None => None
  | Some s1 => Some (add_reader s1)
  end.

Definition try_lock_shared (s : state) : bool * state :=
  if has_writer_ s || negb (writer_waiter_ s =? 0) then (false, s)
  else (true, add_reader s).

End WriterPref.

(** A writer inside means no reader inside; the reader count is a
    non-negative [int] that can still be incremented. *)
Definition exclusive (s : state) : Prop :=
  (has_writer_ s = true -> reader_cnt_ s = 0)
  /\ 0 <= reader_cnt_ s < 2 ^ 31 - 1.


End PrefLocks.

(** ** The queue-based fair lock with one condition variable
    [fair_fifo::shared_mutex] of [src/mutex/rw_lock.cpp], first variant
    (145-263; the same text again at 578-692). *)
Module SimpleFifo.
Import FairFifo.

(** [q_] holds the modes only; the counters are [int]s. *)
Record shared_mutex : Type := mk {
  q_ : list Mode;
  active_readers_ : Z;
  writer_active_ : bool;
  reader_batch_remaining_ : Z;
  notify_all_count : nat
}.

Definition set_q (q : list Mode) (s : shared_mutex) : shared_mutex :=
  mk q (active_readers_ s) (writer_active_ s) (reader_batch_remaining_ s)
     (notify_all_count s).

Definition set_active_readers (n : Z) (s : shared_mutex) : shared_mutex :=
  mk (q_ s) n (writer_active_ s) (reader_batch_remaining_ s)
     (notify_all_count s).

Definition set_writer_active (b : bool) (s : shared_mutex) : shared_mutex :=
  mk (q_ s) (active_readers_ s) b (reader_batch_remaining_ s)
     (notify_all_count s).

Definition set_reader_batch_remaining (n : Z) (s : shared_mutex)
  : shared_mutex :=
  mk (q_ s) (active_readers_ s) (writer_active_ s) n (notify_all_count s).

Definition notify_all (s : shared_mutex) : shared_mutex :=
  mk (q_ s) (active_readers_ s) (writer_active_ s)
     (reader_batch_remaining_ s) (S (notify_all_count s)).

(** [q_.empty()] *)
Definition empty (q : list Mode) : bool :=
  match q with [] => true | _ :: _ => false end.

(** [while (k < q_.size() && q_[k] == Mode::Read) ++k;] *)
Fixpoint count_reads (q : list Mode) : nat :=
  match q with
  | Read :: r => S (count_reads r)
  | _ => O
  end.

(** [k] is a [std::size_t] bounded by the size of the queue;
    [static_cast<int>(k)] keeps its low 32 bits. *)
Definition maybe_open_reader_batch_ (s : shared_mutex) : shared_mutex :=
  if negb (reader_batch_remaining_ s =? 0) then s
  else if writer_active_ s then s
  else match q_ s with
       | [] => s
       | Write :: _ => s
       | Read :: _ =>
           let k := count_reads (q_ s) in
           set_reader_batch_remaining (wrap32 (Z.of_nat k))
             (set_q (drop k (q_ s)) s)
       end.

(** The two predicates change the state they test. *)
Definition can_run_writer_ (s : shared_mutex) : bool * shared_mutex :=
  let s1 := maybe_open_reader_batch_ s in
  (negb (writer_active_ s1)
   && (active_readers_ s1 =? 0)
   && (reader_batch_remaining_ s1 =? 0)
   && match q_ s1 with
      | Write :: _ => true
      | _ => false
      end,
   s1).

Definition can_run_reader_ (s : shared_mutex) : bool * shared_mutex :=
  let s1 := maybe_open_reader_batch_ s in
  (negb (writer_active_ s1) && (0 <? reader_batch_remaining_ s1), s1).

(** [cv_.wait(lk, pred)] with such a predicate: the state goes on as the
    predicate left it; after a wait the state is the one found at the
    wake-up. *)
Fixpoint cv_wait_changing (pred : shared_mutex -> bool * shared_mutex)
         (wakes : list (@wakeup shared_mutex)) (s : shared_mutex)
  : option shared_mutex :=
  let '(ok, s1) := pred s in
  if ok then Some s1
  else match wakes with
       | [] => None
       | (_, s') :: ws => cv_wait_changing pred ws s'
       end.

Definition push_back (m : Mode) (s : shared_mutex) : shared_mutex :=
  set_q (q_ s ++ [m]) s.

Definition lock (wakes : list (@wakeup shared_mutex)) (s : shared_mutex)
  : option shared_mutex :=
  match cv_wait_changing can_run_writer_ wakes (push_back Write s) with
  | None => None
  | Some s1 => Some (set_writer_active true (set_q (tail (q_ s1)) s1))
  end.

Definition lock_shared (wakes : list (@wakeup shared_mutex))
           (s : shared_mutex) : option shared_mutex :=
  match cv_wait_changing can_run_reader_ wakes (push_back Read s) with
  | None => None
  | Some s1 =>
      let s2 :=
        set_reader_batch_remaining (wrap32 (reader_batch_remaining_ s1 - 1))
          (set_active_readers (wrap32 (active_readers_ s1 + 1)) s1) in
      Some (if reader_batch_remaining_ s2 =? 0 then notify_all s2 else s2)
  end.

Definition try_lock (s : shared_mutex) : bool * shared_mutex :=
  if writer_active_ s || negb (active_readers_ s =? 0) then (false, s)
  else if negb (empty (q_ s))
          || negb (reader_batch_remaining_ s =? 0) then (false, s)
  else (true, set_writer_active true s).

Definition try_lock_shared (s : shared_mutex) : bool * shared_mutex :=
  if writer_active_ s then (false, s)
  else if negb (empty (q_ s))
          || negb (reader_batch_remaining_ s =? 0) then (false, s)
  else (true, set_active_readers (wrap32 (active_readers_ s + 1)) s).

Definition unlock (s : shared_mutex) : shared_mutex :=
  notify_all (set_writer_active false s).

Definition unlock_shared (s : shared_mutex) : shared_mutex :=
  let s1 := set_active_readers (wrap32 (active_readers_ s - 1)) s in
  if active_readers_ s1 =? 0 then notify_all s1 else s1.

(** A batch of one reader has been opened while a writer is queued:
    the admitted reader has yet to enter. *)
Definition batch_open_writer_queued : shared_mutex :=
  mk [Write] 0 false 1 0.

End SimpleFifo.

(** ** Nested use of the reentrant locks *)
Module Nesting.
Import Reentrant.

(** [n] calls in a row by one thread, each applied to the state left by
    the call before; the first that does not return ends the sequence. *)
Fixpoint lock_n (lock : state -> option state) (n : nat) (s : state)
  : option state :=
  match n with
  | O => Some s
  | S k => match lock s with
           | None => None
           | Some s1 => lock_n lock k s1
           end
  end.

Fixpoint unlock_n (unlock : state -> completion state) (n : nat) (s : state)
  : completion state :=
  match n with
  | O => Returned s
  | S k => match unlock s with
           | Returned s1 => unlock_n unlock k s1
           | Thrown what => Thrown what
           | Terminated => Terminated
           end
  end.

(** Thread [o] holds the lock. *)
Definition held_by (o : thread_id) (s : state) : Prop :=
  owner_ s = Some o /\ cnt_ s <> 0.

End Nesting.

(** ** Scope guards
    [ScopedLock] of [src/unnamed/part_004] (57-100) and
    [my_std_like::scoped_lock] of [src/mutex/rw_lock.cpp] (1140-1195). *)
Module ScopeGuard.
Import MultiLock.

(** [(std::get<I>(mtxes_).unlock(), ...)] and
    [(..., (void)ms.unlock())]: the lockables are unlocked from the first
    to the last. *)
Definition unlock_all (mtxes : list lockable) (c : caller) : caller :=
  fold_left (fun c' m => do_unlock m c') mtxes c.

(** The locking constructor, by number of lockables: the specialisation
    for none, the one for a single lockable ([mtx_.lock()]) and the
    primary template. *)
Definition ScopedLock (rounds : list availability) (mtxes : list lockable)
           (c : caller) : option caller :=
  match mtxes with
  | [] => Some c
  | [mtx] => Some (do_lock mtx c)
  | m1 :: ms => lock_all rounds m1 ms c
  end.

Definition scoped_lock (rounds : list availability) (mtxes : list lockable)
           (c : caller) : option caller :=
  match mtxes with
  | [] => Some c
  | [mtx] => Some (do_lock mtx c)
  | m1 :: m2 :: m3 => Lock rounds m1 m2 m3 c
  end.

(** The [std::adopt_lock_t] constructors only store the references. *)
Definition adopt (mtxes : list lockable) (c : caller) : caller := c.

(** The destructor; it is the same in both classes ([own_] of the
    single-lockable [ScopedLock] is always true). *)
Definition destroy (mtxes : list lockable) (c : caller) : caller :=
  match mtxes with
  | [] => c
  | [mtx] => do_unlock mtx c
  | _ => unlock_all mtxes c
  end.

End ScopeGuard.

(** ** Sequences of submissions to a task queue *)
Module Submissions.
Import TaskQueue.
Section WithTask.
Context {Task : Type}.

Inductive submission : Type :=
| Push (task : Task)
| PushPriority (task : Task)
| PushDelay (task : Task) (exec_tm : Z).

Definition submit (x : submission) (q : TaskQueue Task) : TaskQueue Task :=
  match x with
  | Push task => push task q
  | PushPriority task => push_priority task q
  | PushDelay task exec_tm => push_delay task exec_tm q
  end.

(** The calls are made one after the other. *)
Definition submit_all (xs : list submission) (q : TaskQueue Task)
  : TaskQueue Task :=
  fold_left (fun q' x => submit x q') xs q.

Fixpoint normal_of (xs : list submission) : list Task :=
  match xs with
  | [] => []
  | Push task :: r => task :: normal_of r
  | _ :: r => normal_of r
  end.

Fixpoint priority_of (xs : list submission) : list Task :=
  match xs with
  | [] => []
  | PushPriority task :: r => task :: priority_of r
  | _ :: r => priority_of r
  end.

Fixpoint delayed_of (xs : list submission) : list (TimeTask Task) :=
  match xs with
  | [] => []
  | PushDelay task exec_tm :: r => mkTimeTask exec_tm task :: delayed_of r
  | _ :: r => delayed_of r
  end.

(** Deadlines in non-decreasing order. *)
Fixpoint nondecreasing (l : list Z) : bool :=
  match l with
  | [] => true
  | a :: r =>
      match r with
      | [] => true
      | b :: _ => (a <=? b) && nondecreasing r
      end
  end.

(** A consumer woken by the expiry of its wait exactly at clock [t],
    finding the queue [q]. *)
Definition timed_out_at (t : Z) (q : TaskQueue Task) : wake Task :=
  mkWake timeout q t t.

End WithTask.
Arguments submission : clear implicits.
End Submissions.

(** ** The worker pool at work
    [stop], the submissions, [try_expand_workers],
    [clean_inactive_threads] and the part of [worker_loop] that follows
    [queue_.pop], in [src/unnamed/part_007] and
    [src/thread_pool/src/_v4.hpp].  Each runs under [thread_mutex_] or on
    atomics, and is one transition of the pool; a call that joins threads
    also yields the handles it joined, in order. *)
Module PoolOps.
Import ThreadPool.
Section WithTask.
Context {Task : Type}.

Definition set_queue (q : TaskQueue.TaskQueue Task) (p : pool Task)
  : pool Task :=
  mkPool (min_threads_ p) (max_threads_ p) (idle_timeout_ p) q
         (workers_ p) (dead_workers_ p) (idle_threads_ p) (stopping_ p).

Definition set_workers (m : gmap thread_id thread) (p : pool Task)
  : pool Task :=
  mkPool (min_threads_ p) (max_threads_ p) (idle_timeout_ p) (queue_ p)
         m (dead_workers_ p) (idle_threads_ p) (stopping_ p).

Definition set_dead_workers (l : list thread) (p : pool Task) : pool Task :=
  mkPool (min_threads_ p) (max_threads_ p) (idle_timeout_ p) (queue_ p)
         (workers_ p) l (idle_threads_ p) (stopping_ p).

Definition set_idle_threads (n : Z) (p : pool Task) : pool Task :=
  mkPool (min_threads_ p) (max_threads_ p) (idle_timeout_ p) (queue_ p)
         (workers_ p) (dead_workers_ p) n (stopping_ p).

Definition set_stopping (b : bool) (p : pool Task) : pool Task :=
  mkPool (min_threads_ p) (max_threads_ p) (idle_timeout_ p) (queue_ p)
         (workers_ p) (dead_workers_ p) (idle_threads_ p) b.

Definition with_pool (p : pool Task) (w : world Task) : world Task :=
  mkWorld p (next_thread_id w) (started w).

(** [idle_threads_.fetch_add(1)] and [fetch_sub(1)] on an [int]. *)
Definition idle_add (p : pool Task) : pool Task :=
  set_idle_threads (wrap32 (idle_threads_ p + 1)) p.
Definition idle_sub (p : pool Task) : pool Task :=
  set_idle_threads (wrap32 (idle_threads_ p - 1)) p.

(** The thread objects the pool still has to join. *)
Definition handles (p : pool Task) : list thread :=
  map snd (map_to_list (workers_ p)) ++ dead_workers_ p.

(** [clean_inactive_threads]; [got_mutex] is the answer of
    [std::try_to_lock] on [thread_mutex_]. *)
Definition clean_inactive_threads (got_mutex : bool) (p : pool Task)
  : pool Task * list thread :=
  if negb got_mutex || TaskQueue.is_nil (dead_workers_ p) then (p, [])
  else
    let local_dead := dead_workers_ p in       (* splice *)
    (set_dead_workers [] p, local_dead).

(** The [size_t threads_needed] of [try_expand_workers], 0 when the
    condition of the [if] is false.  [pending] and [active] are [size_t],
    [idle] and [max_threads] are [int]; [static_cast<size_t>] of an [int]
    is its value modulo 2^64. *)
Definition threads_needed (pending idle active max_threads : Z) : Z :=
  let threshold := 1 in
  if (active <? wrap64 max_threads)
     && (wrap64 (wrap32 (idle + threshold)) <? pending)
  then Z.min (wrap64 (pending - wrap64 idle))
             (wrap64 (wrap64 max_threads - active))
  else 0.

(** The part of [try_expand_workers] under [thread_mutex_]; the loop
    [for (size_t i = 0; i < threads_needed; i++)] runs [threads_needed]
    times. *)
Definition expand (w : world Task) : world Task :=
  let p := the_pool w in
  let pending := wrap64 (Z.of_nat (TaskQueue.size (queue_ p))) in
  let idle := idle_threads_ p in
  let active := Z.of_nat (size (workers_ p)) in
  spawn_n (Z.to_nat (threads_needed pending idle active (max_threads_ p))) w.

(** [part_007]: clean first, then the test of [stop_]. *)
Definition try_expand_workers (got_mutex : bool) (w : world Task)
  : world Task * list thread :=
  let '(p1, joined) := clean_inactive_threads got_mutex (the_pool w) in
  if stopping_ p1 then (with_pool p1 w, joined)
  else (expand (with_pool p1 w), joined).

(** [_v4.hpp]: the test of [stopping_] first. *)
Definition try_expand_workers_v4 (got_mutex : bool) (w : world Task)
  : world Task * list thread :=
  if stopping_ (the_pool w) then (w, [])
  else
    let '(p1, joined) := clean_inactive_threads got_mutex (the_pool w) in
    (expand (with_pool p1 w), joined).

(** [stop]: the compare-exchange on the flag, [queue_.stop()], and every
    thread object moved out of [workers_] and [dead_workers_] and joined.
    The order in which the [unordered_map] is walked is that of
    [map_to_list]. *)
Definition stop (w : world Task) : world Task * list thread :=
  let p := the_pool w in
  if stopping_ p then (w, [])
  else
    let p1 := set_queue (TaskQueue.stop (queue_ p)) (set_stopping true p) in
    let threads_to_join :=
      map snd (map_to_list (workers_ p1)) ++ dead_workers_ p1 in
    (with_pool (set_dead_workers [] (set_workers ∅ p1)) w, threads_to_join).

(** The submissions of [part_007]. *)
Definition add_task (task : Task) (got_mutex : bool) (w : world Task)
  : completion (world Task * list thread) :=
  let p := the_pool w in
  if stopping_ p then Thrown "ThreadPool has been stopped"
  else Returned (try_expand_workers got_mutex
                   (with_pool (set_queue (TaskQueue.push task (queue_ p)) p) w)).

Definition add_priority_task (task : Task) (got_mutex : bool)
           (w : world Task) : completion (world Task * list thread) :=
  let p := the_pool w in
  if stopping_ p then Thrown "ThreadPool has been stopped"
  else Returned (try_expand_workers got_mutex
                   (with_pool (set_queue
                                 (TaskQueue.push_priority task (queue_ p)) p) w)).

Definition push_each (task_list : list Task) (q : TaskQueue.TaskQueue Task)
  : TaskQueue.TaskQueue Task :=
  fold_left (fun q' t => TaskQueue.push t q') task_list q.

Definition add_batch_task (task_list : list Task) (got_mutex : bool)
           (w : world Task) : completion (world Task * list thread) :=
  let p := the_pool w in
  if stopping_ p then Thrown "ThreadPool has been stopped"
  else if TaskQueue.is_nil task_list then Returned (w, [])
  else Returned (try_expand_workers got_mutex
                   (with_pool (set_queue (push_each task_list (queue_ p)) p) w)).

(** The same in [_v4.hpp]; [add_batch_task] answers with a [bool]
    there. *)
Definition add_task_v4 (task : Task) (got_mutex : bool) (w : world Task)
  : completion (world Task * list thread) :=
  let p := the_pool w in
  if stopping_ p then Thrown "ThreadPool has been stopped"
  else Returned (try_expand_workers_v4 got_mutex
                   (with_pool (set_queue (TaskQueue.push task (queue_ p)) p) w)).

Definition add_priority_task_v4 (task : Task) (got_mutex : bool)
           (w : world Task) : completion (world Task * list thread) :=
  let p := the_pool w in
  if stopping_ p then Thrown "ThreadPool has been stopped"
  else Returned (try_expand_workers_v4 got_mutex
                   (with_pool (set_queue
                                 (TaskQueue.push_front task (queue_ p)) p) w)).

Definition add_batch_task_v4 (task_list : list Task) (got_mutex : bool)
           (w : world Task) : bool * (world Task * list thread) :=
  let p := the_pool w in
  if stopping_ p then (false, (w, []))
  else if TaskQueue.is_nil task_list then (false, (w, []))
  else (true, try_expand_workers_v4 got_mutex
                (with_pool (set_queue (push_each task_list (queue_ p)) p) w)).

(** *** [worker_loop] after [queue_.pop] has returned *)

Inductive worker_next : Type :=
| Continue    (* next round of the [for (;;)] *)
| Exit.       (* [return] *)

(** Moving the worker's own thread object to [dead_workers_]. *)
Definition retire (my_id : thread_id) (t : thread) (p : pool Task)
  : pool Task :=
  set_workers (delete my_id (workers_ p))
              (set_dead_workers (dead_workers_ p ++ [t]) p).

(** [part_007].  The task of an [OK] is run between the two updates of
    [idle_threads_]; it is taken here not to touch the pool. *)
Definition after_pop (my_id : thread_id) (result : TaskQueue.PopResult)
           (p : pool Task) : pool Task * worker_next :=
  match result with
  | TaskQueue.STOPPED => (idle_sub p, Exit)
  | TaskQueue.TIMEOUT =>
      if stopping_ p then (idle_sub p, Exit)
      else if min_threads_ p <? wrap32 (Z.of_nat (size (workers_ p))) then
        match workers_ p !! my_id with
        | Some t => (retire my_id t (idle_sub p), Exit)
        | None => (p, Exit)
        end
      else (p, Continue)
  | TaskQueue.OK => (idle_add (idle_sub p), Continue)
  end.

(** [_v4.hpp]. *)
Definition after_pop_v4 (my_id : thread_id) (result : TaskQueue.PopResult)
           (p : pool Task) : pool Task * worker_next :=
  match result with
  | TaskQueue.STOPPED => (idle_sub p, Exit)
  | TaskQueue.TIMEOUT =>
      if stopping_ p then (idle_sub p, Exit)
      else if negb (stopping_ p)
              && (wrap64 (min_threads_ p) <? Z.of_nat (size (workers_ p)))
      then
        match workers_ p !! my_id with
        | Some t => (retire my_id t (idle_sub p), Exit)
        | None => (p, Continue)
        end
      else (p, Continue)
  | TaskQueue.OK => (idle_add (idle_sub p), Continue)
  end.

(** A pool that is running: neither the pool nor its queue is stopped. *)
Definition running (p : pool Task) : Prop :=
  stopping_ p = false /\ TaskQueue.stop_ (queue_ p) = false.

(** The lower bound, the worker count and the idle count next to its
    neighbours fit an [int]. *)
Definition sane (p : pool Task) : Prop :=
  int_range (min_threads_ p)
  /\ int_range (Z.of_nat (size (workers_ p)))
  /\ int_range (idle_threads_ p - 1) /\ int_range (idle_threads_ p + 1).

(** A pool made with [min_threads = 0]: no worker yet, nothing queued. *)
Definition no_worker_yet : world Task :=
  mkWorld (mkPool 0 4 2 TaskQueue.empty_queue ∅ [] 0 false) 1%nat [].

(** A pool whose only worker, thread 1, sits idle. *)
Definition one_idle_worker : pool Task :=
  mkPool 0 4 2 TaskQueue.empty_queue {[ 1%nat := mkThread 1%nat ]} [] 1 false.

(** The same worker in a pool made with [min_threads = -2]. *)
Definition one_idle_worker_negative_minimum : pool Task :=
  mkPool (-2) 4 2 TaskQueue.empty_queue {[ 1%nat := mkThread 1%nat ]} []
         1 false.

(** A pool of at most four workers, none started yet, with a backlog of
    three tasks. *)
Definition backlog_of_three (t : Task) : world Task :=
  mkWorld (mkPool 0 4 2 (TaskQueue.mkTQ [t; t; t] [] false []) ∅ [] 0 false)
          1%nat [].

(** Threads 1 and 2 at work, thread 3 retired and not yet joined. *)
Definition two_workers_one_dead : world Task :=
  mkWorld (mkPool 0 4 2 TaskQueue.empty_queue
                  {[ 1%nat := mkThread 1%nat; 2%nat := mkThread 2%nat ]}
                  [mkThread 3%nat] 2 false)
          4%nat [1%nat; 2%nat; 3%nat].

End WithTask.
End PoolOps.

(** * Properties *)

Lemma wrap64_small z : 0 <= z < 2 ^ 64 -> wrap64 z = z.
Proof. intros H. unfold wrap64. now apply Z.mod_small. Qed.

Lemma wrap32_small z : int_range z -> wrap32 z = z.
Proof.
  unfold int_range, wrap32. intros H.
  rewrite Z.mod_small; lia.
Qed.

(** ** The fair FIFO reader-writer lock *)
Module FairFifoFacts.
Import FairFifo.

(** *** Field projections of the updates *)

Lemma wake_all_fields ws s :
  q_ (wake_all ws s) = q_ s
  /\ has_writer_ (wake_all ws s) = has_writer_ s
  /\ reader_cnt_ (wake_all ws s) = reader_cnt_ s
  /\ pending_readers_ (wake_all ws s) = pending_readers_ s
  /\ next_ticket_ (wake_all ws s) = next_ticket_ s
  /\ notified (wake_all ws s) = notified s ++ ws.
Proof.
  revert s. induction ws as [|w ws IH]; intros s; cbn.
  - rewrite app_nil_r. tauto.
  - destruct (IH (wake w s)) as (H1 & H2 & H3 & H4 & H5 & H6).
    unfold wake_all in *. rewrite H1, H2, H3, H4, H5, H6. cbn.
    rewrite <- app_assoc. tauto.
Qed.

Lemma wake_all_go_in ws s w :
  w ∈ ws -> go (wake_all ws s) !! w = Some true.
Proof.
  revert s. induction ws as [|x ws IH]; intros s Hin.
  - inversion Hin.
  - cbn. destruct (decide (w ∈ ws)) as [Hw|Hw].
    + now apply IH.
    + apply elem_of_cons in Hin as [->|Hin]; [|contradiction].
      clear IH. unfold wake_all.
      assert (Hkeep : forall l t, x ∉ l ->
                go (fold_left (fun acc w => wake w acc) l t) !! x = go t !! x).
      { induction l as [|y l IHl]; intros t Hnot; cbn; [reflexivity|].
        rewrite IHl by (intros ?; apply Hnot; now right).
        cbn. apply lookup_insert_ne. intros ->. apply Hnot. now left. }
      rewrite Hkeep by assumption. cbn. apply lookup_insert_eq.
Qed.

Lemma wake_all_go_out ws s w :
  w ∉ ws -> go (wake_all ws s) !! w = go s !! w.
Proof.
  revert s. induction ws as [|x ws IH]; intros s Hnot; cbn; [reflexivity|].
  unfold wake_all in IH. rewrite IH by (intros ?; apply Hnot; now right).
  cbn. apply lookup_insert_ne. intros ->. apply Hnot. now left.
Qed.

(** *** The loop of [open_read_batch_and_wake_unsafe_] *)

Lemma read_prefix_split q : read_prefix q ++ after_read_prefix q = q.
Proof.
  induction q as [|n q IH]; cbn; [reflexivity|].
  destruct (is_read n); cbn; [now rewrite IH | reflexivity].
Qed.

Lemma read_prefix_all_read q : Forall (fun n => mode n = Read) (read_prefix q).
Proof.
  induction q as [|n q IH]; cbn; [constructor|].
  destruct (is_read n) eqn:E; [|constructor].
  constructor; [|exact IH]. unfold is_read in E. now destruct (mode n).
Qed.

(** What is left starts with a writer (or is empty): the prefix is maximal. *)
Lemma after_read_prefix_head q :
  match after_read_prefix q with
  | [] => True
  | n :: _ => mode n = Write
  end.
Proof.
  induction q as [|n q IH]; cbn; [exact I|].
  destruct (is_read n) eqn:E; [exact IH|].
  unfold is_read in E. now destruct (mode n).
Qed.

Lemma pop_reads_spec q to_wake count :
  0 <= count ->
  count + Z.of_nat (length q) < 2 ^ 64 ->
  pop_reads q to_wake count =
    (after_read_prefix q,
     to_wake ++ waiters_of (read_prefix q),
     count + Z.of_nat (length (read_prefix q))).
Proof.
  revert to_wake count.
  induction q as [|n q IH]; intros to_wake count H0 Hlt; cbn [pop_reads].
  - cbn. now rewrite app_nil_r, Z.add_0_r.
  - cbn [read_prefix after_read_prefix].
    destruct (is_read n) eqn:E.
    + cbn [length] in Hlt.
      rewrite wrap64_small by lia.
      rewrite IH by lia.
      unfold waiters_of. cbn [length].
      f_equal; [f_equal|lia].
      change (omap waiter (n :: read_prefix q))
        with (match waiter n with
              | Some w => w :: omap waiter (read_prefix q)
              | None => omap waiter (read_prefix q)
              end).
      destruct (waiter n); [now rewrite <- app_assoc | reflexivity].
    + cbn. now rewrite app_nil_r, Z.add_0_r.
Qed.

(** [rw_lock.cpp]: the scheduler opens the reader batch. *)
Lemma wake_next_opens_read_batch (s : shared_mutex) n rest :
  lock_free s ->
  q_ s = n :: rest ->
  mode n = Read ->
  Z.of_nat (length (q_ s)) < 2 ^ 64 ->
  let s' := wake_next_ s in
  q_ s' = after_read_prefix (q_ s)
  /\ pending_readers_ s' = Z.of_nat (length (read_prefix (q_ s)))
  /\ notified s' = notified s ++ waiters_of (read_prefix (q_ s))
  /\ (forall w, w ∈ waiters_of (read_prefix (q_ s)) -> go s' !! w = Some true)
  /\ (forall w, w ∉ waiters_of (read_prefix (q_ s)) -> go s' !! w = go s !! w)
  /\ has_writer_ s' = false /\ reader_cnt_ s' = 0.
Proof.
  intros (Hw & Hr & Hp) Hq Hn Hlen. cbn zeta.
  unfold wake_next_. rewrite Hw, Hr, Hp. cbn. rewrite Hq, Hn.
  unfold open_read_batch_and_wake_unsafe_.
  rewrite <- Hq.
  rewrite pop_reads_spec by lia. cbn [app Z.add].
  set (s1 := set_pending_readers _ _).
  destruct (wake_all_fields (waiters_of (read_prefix (q_ s))) s1)
    as (H1 & H2 & H3 & H4 & H5 & H6).
  rewrite H1, H2, H3, H4, H6.
  repeat split; try reflexivity; try assumption.
  - intros w Hin. now apply wake_all_go_in.
  - intros w Hout. now rewrite wake_all_go_out.
Qed.

(** [rw_lock.cpp]: [unlock] clears the flag and runs the scheduler. *)
Lemma unlock_clears_has_writer (s : shared_mutex) :
  unlock s = wake_next_ (set_has_writer false s)
  /\ has_writer_ (unlock s) = false.
Proof.
  split; [reflexivity|].
  unfold unlock, wake_next_. cbn.
  destruct (reader_cnt_ s =? 0); cbn; [|reflexivity].
  destruct (pending_readers_ s =? 0); cbn; [|reflexivity].
  destruct (q_ s) as [|n rest] eqn:Hq; [reflexivity|].
  destruct (mode n).
  - unfold open_read_batch_and_wake_unsafe_.
    destruct (pop_reads _ _ _) as [[q' tw] c].
    now destruct (wake_all_fields tw
                    (set_pending_readers c (set_q q' (set_has_writer false s))))
      as (_ & -> & _).
  - now destruct (waiter n).
Qed.

(** [rw_lock.cpp]: a writer that leaves an otherwise idle lock frees it. *)
Lemma unlock_then_try_lock (s : shared_mutex) :
  reader_cnt_ s = 0 -> pending_readers_ s = 0 -> q_ s = [] ->
  try_lock (unlock s) = (true, set_has_writer true s).
Proof.
  intros Hr Hp Hq. destruct s as [q hw rc pr nt g nf]. cbn in *. subst.
  reflexivity.
Qed.

(** Claim C1, in the code of [src/1.cpp].  [unlock] stores [true] into
    [has_writer_]: whatever the state before, the flag is set when
    [unlock] returns and a following [try_lock] fails; in particular from
    the state (has_writer = true, no readers, empty queue) the lock is
    not free. *)
Theorem scratch_unlock_keeps_has_writer :
  (forall s, has_writer_ (Scratch.unlock s) = true
             /\ fst (try_lock (Scratch.unlock s)) = false)
  /\ Scratch.unlock writer_inside = writer_inside
  /\ try_lock (Scratch.unlock writer_inside) = (false, writer_inside).
Proof.
  split; [|split; reflexivity].
  intros s. unfold Scratch.unlock, Scratch.wake_next_. cbn. split; reflexivity.
Qed.

(** Claim C2, in the code of [src/1.cpp].  With a reader at the head of
    the queue the scheduler does nothing at all: the queue keeps its
    reader prefix, [pending_readers_] is not set, no gate is opened,
    nobody is signalled. *)
Theorem scratch_wake_next_ignores_readers (s : shared_mutex) n rest :
  q_ s = n :: rest ->
  mode n = Read ->
  Scratch.wake_next_ s = s.
Proof.
  intros Hq Hn. unfold Scratch.wake_next_. rewrite Hq, Hn.
  destruct (has_writer_ s || negb (reader_cnt_ s =? 0)); [reflexivity|].
  destruct (negb (pending_readers_ s =? 0)); reflexivity.
Qed.

Lemma scratch_wake_next_ignores_readers_witness :
  Scratch.wake_next_ one_reader_queued = one_reader_queued.
Proof.
  apply (scratch_wake_next_ignores_readers one_reader_queued
           (mkNode Read 0 (Some 7%nat)) []); reflexivity.
Defined.

(** On the same state the scheduler of [rw_lock.cpp] admits the reader. *)
Example wake_next_one_reader :
  let s' := wake_next_ one_reader_queued in
  q_ s' = [] /\ pending_readers_ s' = 1
  /\ go s' !! 7%nat = Some true /\ notified s' = [7%nat].
Proof. cbn. repeat split; reflexivity. Qed.

(** Claim C3, as amended.  [try_lock] succeeds exactly when there is no
    writer, no active reader, no admitted reader and nobody queued;
    [try_lock_shared] succeeds exactly when there is no writer, no
    admitted reader and nobody queued, whatever the number of active
    readers.  On success the writer flag is set, respectively one reader
    is counted; on failure the state is untouched. *)
Theorem try_lock_and_try_lock_shared_conditions (s : shared_mutex) :
  (fst (try_lock s) = true <->
     has_writer_ s = false /\ reader_cnt_ s = 0
     /\ pending_readers_ s = 0 /\ q_ s = [])
  /\ (fst (try_lock_shared s) = true <->
        has_writer_ s = false /\ pending_readers_ s = 0 /\ q_ s = [])
  /\ snd (try_lock s) =
       (if fst (try_lock s) then set_has_writer true s else s)
  /\ snd (try_lock_shared s) =
       (if fst (try_lock_shared s)
        then set_reader_cnt (wrap64 (reader_cnt_ s + 1)) s else s).
Proof.
  unfold try_lock, try_lock_shared.
  destruct (has_writer_ s) eqn:Hw;
    destruct (Z.eqb_spec (reader_cnt_ s) 0) as [Hr|Hr];
    destruct (Z.eqb_spec (pending_readers_ s) 0) as [Hp|Hp];
    destruct (q_ s) as [|n rest] eqn:Hq; cbn;
    (split; [|split; [|split; reflexivity]]);
    (split; [intros G; try discriminate G; tauto
            |intros G; try reflexivity;
             repeat match type of G with _ /\ _ => destruct G as [? G] end;
             try discriminate; try contradiction]).
Qed.

(** Claim C3 as stated fails for [try_lock_shared]: with one active reader it
    returns true although [reader_cnt] is not 0. *)
Lemma try_lock_shared_with_active_reader :
  ~ (fst (try_lock_shared one_reader_inside) = true <->
       has_writer_ one_reader_inside = false
       /\ reader_cnt_ one_reader_inside = 0
       /\ pending_readers_ one_reader_inside = 0
       /\ q_ one_reader_inside = []).
Proof.
  intros [H _]. cbn in H. destruct (H eq_refl) as (_ & Hr & _). discriminate.
Qed.

End FairFifoFacts.

(** ** Condition-variable waits *)
Section CondVarFacts.
Context {St : Type}.
Implicit Types (s : St) (wakes : list (@wakeup St)).

(** A wait that returns hands over the entry state or one left by the
    environment, and the predicate holds there. *)
Lemma cv_wait_returns pred wakes s s' :
  cv_wait pred wakes s = Some s' ->
  pred s' = true /\ (s' = s \/ In s' (map snd wakes)).
Proof.
  revert s. induction wakes as [|[t s1] ws IH]; intros s; cbn.
  - destruct (pred s) eqn:E; [|discriminate].
    intros [= <-]. auto.
  - destruct (pred s) eqn:E.
    + intros [= <-]. auto.
    + intros H. apply IH in H as [Hp [->|Hin]]; auto.
Qed.

Lemma cv_wait_immediate pred wakes s :
  pred s = true -> cv_wait pred wakes s = Some s.
Proof. intros H. destruct wakes as [|[? ?] ?]; cbn; now rewrite H. Qed.

Lemma cv_wait_until_returns pred abs_time wakes s b s' :
  cv_wait_until pred abs_time wakes s = Some (b, s') ->
  b = pred s' /\ (s' = s \/ In s' (map snd wakes)).
Proof.
  revert s. induction wakes as [|[t s1] ws IH]; intros s; cbn.
  - destruct (pred s) eqn:E; [|discriminate].
    intros [= <- <-]. auto.
  - destruct (pred s) eqn:E.
    + intros [= <- <-]. auto.
    + destruct (abs_time <=? t).
      * intros [= <- <-]. auto.
      * intros H. apply IH in H as [Hp [->|Hin]]; auto.
Qed.

(** With the deadline already reached when the first wait returns, the
    timed wait is decided there. *)
Lemma cv_wait_until_past pred abs_time t s1 ws s :
  abs_time <= t ->
  cv_wait_until pred abs_time ((t, s1) :: ws) s =
    if pred s then Some (true, s) else Some (pred s1, s1).
Proof.
  intros H. cbn. destruct (pred s); [reflexivity|].
  destruct (Z.leb_spec abs_time t); [reflexivity|lia].
Qed.
End CondVarFacts.

(** ** The timed mutex *)
Module TimedLockFacts.
Import TimedLock.

(** [unlock] never reports anything. *)
Lemma unlock_always_returns (s : state) : returned (unlock s).
Proof. exact I. Qed.

(** Claim C4, as amended.  [unlock] on a lock that is not held returns
    normally, exactly as on a held one: no error is reported, the flag
    stays false (the state is not corrupted) and one waiter is notified. *)
Theorem unlock_unheld_returns (s : state) :
  flag_ s = false ->
  unlock s = Returned (notify_one s)
  /\ flag_ (notify_one s) = false.
Proof.
  intros H. destruct s as [f n]. cbn in *. subst. split; reflexivity.
Qed.

Lemma unlock_unheld_returns_witness :
  unlock unheld = Returned (notify_one unheld)
  /\ flag_ (notify_one unheld) = false.
Proof. apply (unlock_unheld_returns unheld). reflexivity. Defined.

(** Claim C4 as stated fails: on the unheld lock [unlock] reports no error. *)
Lemma unlock_unheld_is_silent :
  flag_ unheld = false /\ ~ reports_error (unlock unheld).
Proof. split; [reflexivity|]. intros H. exact H. Qed.

(** [try_lock_until] with a deadline that has passed when the first wait
    returns: the call returns at once, with [false] exactly when the lock
    was held on entry and is still held when that wait returns. *)
Lemma try_lock_until_past abs_time t (s1 : state) ws (s : state) :
  abs_time <= t ->
  exists r, try_lock_until abs_time ((t, s1) :: ws) s = Some r
    /\ (fst r = false <-> flag_ s = true /\ flag_ s1 = true)
    /\ (fst r = false -> snd r = s1)
    /\ (fst r = true -> flag_ (snd r) = true).
Proof.
  intros H. unfold try_lock_until.
  rewrite (cv_wait_until_past not_held abs_time t s1 ws s H).
  unfold not_held.
  destruct (flag_ s) eqn:Hs; cbn.
  - destruct (flag_ s1) eqn:H1; cbn; eexists; (split; [reflexivity|]); cbn;
      repeat split; try tauto; try discriminate; try congruence.
    intros [_ ?]; discriminate.
  - eexists; (split; [reflexivity|]); cbn;
      repeat split; try tauto; try discriminate. intros [? _]; discriminate.
Qed.

(** A free lock is taken whatever the deadline. *)
Lemma try_lock_until_free abs_time wakes (s : state) :
  flag_ s = false ->
  try_lock_until abs_time wakes s = Some (true, set_flag true s).
Proof. intros H. unfold try_lock_until. now rewrite H. Qed.

End TimedLockFacts.

(** ** The reentrant locks *)
Module ReentrantFacts.
Import Reentrant.

Lemma is_owner_true this_id o :
  is_owner this_id o = true <-> o = Some this_id.
Proof.
  unfold is_owner, same_thread. destruct o as [x|]; [|split; discriminate].
  rewrite Nat.eqb_eq. split; [now intros ->|now intros [= ->]].
Qed.

Lemma is_owner_self this_id : is_owner this_id (Some this_id) = true.
Proof. now apply is_owner_true. Qed.

Lemma is_owner_other this_id other :
  other <> this_id -> is_owner this_id (Some other) = false.
Proof.
  intros H. unfold is_owner, same_thread. now apply Nat.eqb_neq.
Qed.

(** Taking a free lock establishes the invariant. *)
Lemma first_acquire_Inv this_id s :
  Inv (set_cnt 1 (set_owner (Some this_id) s)).
Proof. unfold Inv. cbn. split; [lia|]. split; discriminate. Qed.

(** Re-entering keeps it as long as the counter does not wrap. *)
Lemma incr_cnt_owned s :
  Inv s -> room s ->
  cnt_ (incr_cnt s) = cnt_ s + 1 /\ owner_ (incr_cnt s) = owner_ s.
Proof.
  intros [Hr _] Hroom. unfold room in Hroom. cbn.
  rewrite wrap64_small by lia. auto.
Qed.

Lemma incr_cnt_Inv s :
  Inv s -> room s -> owner_ s <> None -> Inv (incr_cnt s).
Proof.
  intros HI Hroom Ho.
  destruct (incr_cnt_owned s HI Hroom) as [Hc Hown].
  destruct HI as [Hr Hiff]. unfold room in Hroom.
  unfold Inv. rewrite Hc, Hown. split; [lia|].
  split; [lia|contradiction].
Qed.

Lemma decr_cnt_owned s :
  Inv s -> owner_ s <> None ->
  cnt_ (decr_cnt s) = cnt_ s - 1 /\ 0 <= cnt_ s - 1 < 2 ^ 64.
Proof.
  intros [Hr Hiff] Ho. cbn.
  assert (cnt_ s <> 0) by tauto.
  rewrite wrap64_small by lia. lia.
Qed.

(** The state a thread reaches when it acquires at [s]. *)
Lemma acquire_Inv this_id s :
  Inv s -> room s -> available this_id s = true ->
  Inv (incr_cnt (if cnt_ s =? 0 then set_owner (Some this_id) s else s)).
Proof.
  intros HI Hroom Hav.
  destruct (Z.eqb_spec (cnt_ s) 0) as [H0|H0].
  - unfold Inv. cbn [incr_cnt set_cnt set_owner cnt_ owner_].
    rewrite H0, wrap64_small by lia. split; [lia|]. split; discriminate.
  - apply incr_cnt_Inv; try assumption.
    unfold available in Hav. apply orb_true_iff in Hav as [Hav|Hav].
    + apply Z.eqb_eq in Hav. contradiction.
    + apply is_owner_true in Hav. congruence.
Qed.

(** The release path shared by both [unlock]s, once the caller is known to
    be the owner. *)
Lemma release_Inv s :
  Inv s -> owner_ s <> None ->
  Inv (if cnt_ (decr_cnt s) =? 0
       then notify_one (set_owner None (decr_cnt s)) else decr_cnt s).
Proof.
  intros HI Ho. destruct (decr_cnt_owned s HI Ho) as [Hc Hr].
  destruct (Z.eqb_spec (cnt_ (decr_cnt s)) 0) as [H0|H0].
  - unfold Inv. cbn -[Z.pow]. cbn -[Z.pow] in H0. rewrite H0. split; [lia|tauto].
  - unfold Inv. rewrite Hc in *. cbn [owner_ decr_cnt set_cnt].
    split; [lia|]. split; [lia|contradiction].
Qed.

Lemma wait_good {pred wakes s s'} :
  good s -> Forall (fun w => good (snd w)) wakes ->
  cv_wait pred wakes s = Some s' -> good s' /\ pred s' = true.
Proof.
  intros Hs Hw H. apply cv_wait_returns in H as [Hp [->|Hin]]; [auto|].
  split; [|assumption].
  apply in_map_iff in Hin as (w & <- & Hw').
  rewrite Forall_forall in Hw. apply Hw. now apply list_elem_of_In.
Qed.

Lemma wait_until_good {pred abs_time wakes s b s'} :
  good s -> Forall (fun w => good (snd w)) wakes ->
  cv_wait_until pred abs_time wakes s = Some (b, s') ->
  good s' /\ b = pred s'.
Proof.
  intros Hs Hw H. apply cv_wait_until_returns in H as [Hp [->|Hin]]; [auto|].
  split; [|assumption].
  apply in_map_iff in Hin as (w & <- & Hw').
  rewrite Forall_forall in Hw. apply Hw. now apply list_elem_of_In.
Qed.

End ReentrantFacts.

(** ** [RecursiveTimedLock] *)
Module RecursiveTimedLockFacts.
Import Reentrant ReentrantFacts RecursiveTimedLock.

Lemma lock_Inv this_id wakes s s' :
  good s -> Forall (fun w => good (snd w)) wakes ->
  lock this_id wakes s = Some s' -> Inv s'.
Proof.
  intros Hs Hw. unfold lock.
  destruct (cv_wait _ wakes s) as [s1|] eqn:E; [|discriminate].
  intros [= <-].
  destruct (wait_good Hs Hw E) as [[HI Hroom] Hav].
  now apply (acquire_Inv this_id).
Qed.

Lemma try_lock_Inv this_id s : good s -> Inv (snd (try_lock this_id s)).
Proof.
  intros [HI Hroom]. unfold try_lock.
  destruct (is_owner this_id (owner_ s)) eqn:Ho; cbn [snd].
  - apply is_owner_true in Ho. apply incr_cnt_Inv; congruence.
  - destruct (cnt_ s =? 0); cbn [snd]; [apply first_acquire_Inv|assumption].
Qed.

Lemma try_lock_until_Inv this_id abs_time wakes s b s' :
  good s -> Forall (fun w => good (snd w)) wakes ->
  try_lock_until this_id abs_time wakes s = Some (b, s') -> Inv s'.
Proof.
  intros Hs Hw. unfold try_lock_until.
  destruct (cnt_ s =? 0).
  { intros [= <- <-]. apply first_acquire_Inv. }
  destruct (is_owner this_id (owner_ s)) eqn:Ho.
  { intros [= <- <-]. destruct Hs. apply is_owner_true in Ho.
    apply incr_cnt_Inv; congruence. }
  destruct (cv_wait_until _ _ wakes s) as [[b1 s1]|] eqn:E; [|discriminate].
  destruct (wait_until_good Hs Hw E) as [[HI _] _].
  destruct b1; intros [= <- <-]; [apply first_acquire_Inv|assumption].
Qed.

Lemma unlock_Inv this_id s s' :
  Inv s -> unlock this_id s = Returned s' -> Inv s'.
Proof.
  intros HI. unfold unlock.
  destruct (cnt_ s =? 0); [discriminate|].
  destruct (is_owner this_id (owner_ s)) eqn:Ho; [|discriminate]. cbn [negb orb].
  apply is_owner_true in Ho.
  assert (Hrel := release_Inv s HI ltac:(congruence)).
  destruct (cnt_ (decr_cnt s) =? 0); intros [= <-]; exact Hrel.
Qed.

(** What the owner's calls do to the counter. *)
Lemma owner_calls this_id wakes s :
  good s -> owner_ s = Some this_id ->
  lock this_id wakes s = Some (incr_cnt s)
  /\ try_lock this_id s = (true, incr_cnt s)
  /\ cnt_ (incr_cnt s) = cnt_ s + 1
  /\ owner_ (incr_cnt s) = Some this_id
  /\ exists s', unlock this_id s = Returned s'
       /\ cnt_ s' = cnt_ s - 1
       /\ owner_ s' = (if cnt_ s' =? 0 then None else Some this_id).
Proof.
  intros [HI Hroom] Ho.
  assert (Hne : owner_ s <> None) by congruence.
  assert (Hc : cnt_ s <> 0) by (destruct HI as [_ H]; tauto).
  assert (Hown : is_owner this_id (owner_ s) = true) by now apply is_owner_true.
  destruct (incr_cnt_owned s HI Hroom) as [Hinc Hsame].
  destruct (decr_cnt_owned s HI Hne) as [Hdec _].
  apply Z.eqb_neq in Hc.
  repeat split.
  - unfold lock. rewrite cv_wait_immediate.
    + now rewrite Hc.
    + unfold available. now rewrite Hown, orb_true_r.
  - unfold try_lock. now rewrite Hown.
  - exact Hinc.
  - congruence.
  - unfold unlock. rewrite Hc, Hown. cbn [negb orb].
    destruct (cnt_ (decr_cnt s) =? 0) eqn:E; eexists; (split; [reflexivity|]).
    + cbn -[Z.pow]. cbn -[Z.pow] in E, Hdec. rewrite E. auto.
    + rewrite E. cbn [owner_ decr_cnt set_cnt]. auto.
Qed.

(** Claim C6.  Every operation of the reentrant timed mutex keeps
    [count = 0 <-> owner = none]; a [lock] or [try_lock] by the owner
    succeeds and adds exactly 1 to [count], an [unlock] by the owner takes
    exactly 1 off and clears the owner when 0 is reached; and one thread
    locking three times and unlocking three times goes through counts
    1, 2, 3, 2, 1, 0, a second thread's [try_lock] failing at count 1.
    The counter is a [uint64_t] and its overflow is not considered: the
    states of the call and those other threads leave have it below its
    largest value. *)
Theorem reentrant_count_discipline
        (this_id other : thread_id) (s : state)
        (wakes : list (@wakeup state)) (abs_time : Z) :
  good s ->
  Forall (fun w => good (snd w)) wakes ->
  other <> this_id ->
  ((forall s', lock this_id wakes s = Some s' -> Inv s')
   /\ Inv (snd (try_lock this_id s))
   /\ (forall b s', try_lock_until this_id abs_time wakes s = Some (b, s') -> Inv s')
   /\ (forall s', unlock this_id s = Returned s' -> Inv s'))
  /\ (owner_ s = Some this_id ->
      lock this_id wakes s = Some (incr_cnt s)
      /\ try_lock this_id s = (true, incr_cnt s)
      /\ cnt_ (incr_cnt s) = cnt_ s + 1
      /\ owner_ (incr_cnt s) = Some this_id
      /\ exists s', unlock this_id s = Returned s'
           /\ cnt_ s' = cnt_ s - 1
           /\ owner_ s' = (if cnt_ s' =? 0 then None else Some this_id))
  /\ (lock this_id wakes initial = Some (mk (Some this_id) 1 0)
      /\ lock this_id wakes (mk (Some this_id) 1 0) = Some (mk (Some this_id) 2 0)
      /\ lock this_id wakes (mk (Some this_id) 2 0) = Some (mk (Some this_id) 3 0)
      /\ unlock this_id (mk (Some this_id) 3 0) = Returned (mk (Some this_id) 2 0)
      /\ unlock this_id (mk (Some this_id) 2 0) = Returned (mk (Some this_id) 1 0)
      /\ try_lock other (mk (Some this_id) 1 0) = (false, mk (Some this_id) 1 0)
      /\ unlock this_id (mk (Some this_id) 1 0) = Returned (mk None 0 1)).
Proof.
  intros Hs Hw Hne. split; [|split].
  - split; [|split; [|split]].
    + intros s'. now apply lock_Inv.
    + now apply try_lock_Inv.
    + intros b s'. now apply try_lock_until_Inv.
    + intros s'. apply unlock_Inv. apply Hs.
  - intros Ho. now apply owner_calls.
  - assert (Hself : is_owner this_id (Some this_id) = true)
      by apply is_owner_self.
    assert (Hoth : is_owner other (Some this_id) = false).
    { apply is_owner_other. congruence. }
    repeat split.
    + unfold lock. now rewrite cv_wait_immediate.
    + unfold lock. rewrite cv_wait_immediate; [reflexivity|].
      unfold available. cbn [owner_]. now rewrite Hself, orb_true_r.
    + unfold lock. rewrite cv_wait_immediate; [reflexivity|].
      unfold available. cbn [owner_]. now rewrite Hself, orb_true_r.
    + unfold unlock. cbn [owner_ cnt_]. now rewrite Hself.
    + unfold unlock. cbn [owner_ cnt_]. now rewrite Hself.
    + unfold try_lock. cbn [owner_ cnt_]. now rewrite Hoth.
    + unfold unlock. cbn [owner_ cnt_]. now rewrite Hself.
Qed.

Lemma reentrant_count_discipline_witness :
  good (mk (Some 1%nat) 2 0)
  /\ lock 1%nat [] (mk (Some 1%nat) 2 0) = Some (mk (Some 1%nat) 3 0)
  /\ unlock 1%nat (mk (Some 1%nat) 2 0) = Returned (mk (Some 1%nat) 1 0).
Proof.
  assert (Hg : good (mk (Some 1%nat) 2 0)).
  { unfold good, Inv, room. cbn. repeat split; try lia; discriminate. }
  split; [exact Hg|].
  destruct (reentrant_count_discipline 1%nat 2%nat (mk (Some 1%nat) 2 0) [] 0
              Hg ltac:(constructor) ltac:(discriminate))
    as (_ & Hown & _).
  destruct (Hown eq_refl) as (Hl & _ & _ & _ & s' & Hu & _).
  split; [exact Hl|]. reflexivity.
Defined.

(** What the bound on the counter leaves out: with the counter at its
    largest value the owner's [try_lock] succeeds and wraps it to 0, the
    owner still set. *)
Lemma reentrant_count_wraps :
  Inv saturated
  /\ try_lock 1%nat saturated = (true, mk (Some 1%nat) 0 0)
  /\ ~ Inv (snd (try_lock 1%nat saturated))
  /\ cnt_ (snd (try_lock 1%nat saturated)) <> cnt_ saturated + 1.
Proof.
  split; [|split; [|split]].
  - unfold Inv, saturated. cbn. split; [lia|]. split; [lia|discriminate].
  - reflexivity.
  - intros [_ [H _]]. cbn in H. specialize (H eq_refl). discriminate.
  - vm_compute. discriminate.
Qed.

End RecursiveTimedLockFacts.

(** ** [RecursiveLock] *)
Module RecursiveLockFacts.
Import Reentrant ReentrantFacts RecursiveLock.

(** The non-timed reentrant lock of [recursive_lock.cpp] obeys the same
    discipline: the invariant is kept by every operation, the owner's
    acquisitions add 1 and its releases take 1 off. *)
Lemma recursive_lock_count_discipline
      (this_id : thread_id) (mtx_free : bool) (s : state)
      (wakes : list (@wakeup state)) :
  good s ->
  Forall (fun w => good (snd w)) wakes ->
  ((forall s', lock this_id wakes s = Some s' -> Inv s')
   /\ Inv (snd (try_lock this_id mtx_free s))
   /\ (forall s', unlock this_id s = Returned s' -> Inv s'))
  /\ (owner_ s = Some this_id ->
      lock this_id wakes s = Some (incr_cnt s)
      /\ try_lock this_id true s = (true, incr_cnt s)
      /\ cnt_ (incr_cnt s) = cnt_ s + 1
      /\ exists s', unlock this_id s = Returned s' /\ cnt_ s' = cnt_ s - 1).
Proof.
  intros Hs Hw. destruct Hs as [HI Hroom]. split.
  - split; [|split].
    + intros s'. unfold lock.
      destruct (cv_wait _ wakes s) as [s1|] eqn:E; [|discriminate].
      intros [= <-].
      destruct (wait_good (conj HI Hroom) Hw E) as [[HI1 Hroom1] Hav].
      now apply (acquire_Inv this_id).
    + unfold try_lock. destruct mtx_free; cbn [negb snd]; [|assumption].
      destruct (cnt_ s =? 0) eqn:Hc; cbn [snd]; [apply first_acquire_Inv|].
      destruct (is_owner this_id (owner_ s)) eqn:Ho; cbn [snd]; [|assumption].
      apply is_owner_true in Ho. apply incr_cnt_Inv; congruence.
    + intros s'. unfold unlock.
      destruct (is_owner this_id (owner_ s)) eqn:Ho; [|discriminate].
      cbn [negb]. apply is_owner_true in Ho.
      assert (Hrel := release_Inv s HI ltac:(congruence)).
      destruct (cnt_ (decr_cnt s) =? 0); intros [= <-]; exact Hrel.
  - intros Ho.
    assert (Hne : owner_ s <> None) by congruence.
    assert (Hc : cnt_ s <> 0) by (destruct HI as [_ H]; tauto).
    assert (Hown : is_owner this_id (owner_ s) = true) by now apply is_owner_true.
    destruct (incr_cnt_owned s HI Hroom) as [Hinc _].
    destruct (decr_cnt_owned s HI Hne) as [Hdec _].
    apply Z.eqb_neq in Hc.
    split; [|split; [|split]].
    + unfold lock. rewrite cv_wait_immediate.
      * now rewrite Hc.
      * unfold available. now rewrite Hown, orb_true_r.
    + unfold try_lock. cbn [negb]. now rewrite Hc, Hown.
    + exact Hinc.
    + unfold unlock. rewrite Hown. cbn [negb].
      destruct (cnt_ (decr_cnt s) =? 0) eqn:E; eexists; (split; [reflexivity|]);
        cbn -[Z.pow]; cbn -[Z.pow] in Hdec; exact Hdec.
Qed.

(** A thread that is not the owner gets an exception, the state is kept. *)
Lemma unlock_by_other_throws this_id s :
  owner_ s <> Some this_id ->
  unlock this_id s = Thrown "unlock by another thread".
Proof.
  intros H. unfold unlock.
  destruct (is_owner this_id (owner_ s)) eqn:Ho; [|reflexivity].
  apply is_owner_true in Ho. contradiction.
Qed.

End RecursiveLockFacts.

(** ** Timed acquisition with a deadline already passed *)




(** ** Multi-lock acquisition *)
Module MultiLockFacts.
Import MultiLock.

Section Round.
Variable avail : availability.

Lemma first_unavailable_None Index t :
  first_unavailable avail Index t = None <-> all_free avail Index t = true.
Proof.
  revert Index. induction t as [|m r IH]; intros Index; cbn; [tauto|].
  destruct (avail Index); cbn; [apply IH|]. split; discriminate.
Qed.

Lemma available_prefix_all Index t :
  all_free avail Index t = true -> available_prefix avail Index t = t.
Proof.
  revert Index. induction t as [|m r IH]; intros Index; cbn; [reflexivity|].
  destruct (avail Index); cbn; [|discriminate]. intros H. now rewrite IH.
Qed.

Lemma try_phase_all Index t :
  all_free avail Index t = true ->
  try_phase avail Index t = map (fun m => EvTryLock m true) t.
Proof.
  intros H. unfold try_phase.
  rewrite (available_prefix_all Index t H).
  apply first_unavailable_None in H. rewrite H. apply app_nil_r.
Qed.

Lemma remove_first_head m l : remove_first m (m :: l) = l.
Proof. cbn. now rewrite Nat.eqb_refl. Qed.

(** The try phase of [part_004]: all or nothing. *)
Lemma do_try_spec Index t c :
  do_try avail Index t c =
    (all_free avail Index t,
     mkCaller (if all_free avail Index t then rev t ++ held c else held c)
              (trace c ++ try_phase avail Index t)).
Proof.
  revert Index c. induction t as [|m r IH]; intros Index c.
  - cbn. unfold try_phase. cbn. rewrite app_nil_r. now destruct c.
  - cbn [do_try]. unfold try_phase.
    cbn [available_prefix first_unavailable all_free].
    destruct (avail Index) eqn:Ha; cbn [andb].
    + rewrite IH. unfold try_phase. cbn [do_try_lock log held trace].
      destruct (all_free avail (Index + 1) r) eqn:Hall.
      * apply first_unavailable_None in Hall as Hnone. rewrite Hnone.
        f_equal. f_equal.
        -- cbn [rev]. now rewrite <- app_assoc.
        -- cbn [map]. now rewrite <- app_assoc.
      * destruct (first_unavailable avail (Index + 1) r) as [x|] eqn:Hx.
        2:{ apply first_unavailable_None in Hx. congruence. }
        f_equal. unfold do_unlock, log. cbn [held trace].
        rewrite remove_first_head. f_equal.
        cbn [map rev]. rewrite map_app. cbn [map].
        rewrite <- !app_assoc. reflexivity.
    + cbn [do_try_lock log held trace app map rev]. reflexivity.
Qed.

(** The try phase of [rw_lock.cpp] does the same, reporting success by
    [index = -1]. *)
Lemma DoTryLock_spec t Index index c :
  0 <= Index -> t <> [] ->
  DoTryLock avail Index t index c =
    (fst (DoTryLock avail Index t index c), snd (do_try avail Index t c))
  /\ (fst (DoTryLock avail Index t index c) =? -1)
     = fst (do_try avail Index t c).
Proof.
  revert Index index c. induction t as [|m r IH]; intros Index index c HI Hne;
    [contradiction|].
  cbn [DoTryLock do_try].
  destruct (avail Index) eqn:Ha.
  - destruct r as [|m' r'].
    + cbn. split; reflexivity.
    + destruct (IH (Index + 1) Index (do_try_lock true m c)
                  ltac:(lia) ltac:(discriminate)) as [Heq Hidx].
      rewrite Heq. clear Heq.
      destruct (do_try avail (Index + 1) (m' :: r') (do_try_lock true m c))
        as [ok c2].
      cbn [fst snd] in *.
      destruct (fst (DoTryLock avail (Index + 1) (m' :: r') Index
                               (do_try_lock true m c)) =? -1) eqn:E;
        rewrite <- Hidx; cbn [fst snd]; rewrite ?E; split; reflexivity.
  - cbn [fst snd]. split; [reflexivity|].
    apply Z.eqb_neq. lia.
Qed.

(** One round of [lock_all]. *)
Lemma lock_all_round_spec m1 ms c :
  ms <> [] ->
  lock_all_round avail m1 ms c =
    if all_free avail 0 ms then
      (true, mkCaller (rev ms ++ m1 :: held c)
                      (trace c ++ EvLock m1 :: try_phase avail 0 ms))
    else
      (false, mkCaller (held c)
                (trace c ++ EvLock m1 :: try_phase avail 0 ms
                         ++ [EvYield; EvUnlock m1])).
Proof.
  intros Hne. unfold lock_all_round. destruct ms as [|m2 r]; [contradiction|].
  rewrite do_try_spec. cbn [do_lock log held trace].
  destruct (all_free avail 0 (m2 :: r)).
  - f_equal. f_equal. now rewrite <- app_assoc.
  - f_equal. unfold do_unlock, do_yield, log. cbn [held trace].
    rewrite remove_first_head. f_equal.
    rewrite <- !app_assoc. reflexivity.
Qed.

(** One round of [Lock]: the same, without the [yield]. *)
Lemma Lock_round_spec m1 m2 m3 c :
  Lock_round avail m1 m2 m3 c =
    if all_free avail 0 (m2 :: m3) then
      (true, mkCaller (rev (m2 :: m3) ++ m1 :: held c)
                      (trace c ++ EvLock m1 :: try_phase avail 0 (m2 :: m3)))
    else
      (false, mkCaller (held c)
                (trace c ++ EvLock m1 :: try_phase avail 0 (m2 :: m3)
                         ++ [EvUnlock m1])).
Proof.
  assert (Hsame :
    (let '(index, c2) :=
       match m3 with
       | _ :: _ => DoTryLock avail 0 (m2 :: m3) 0 (do_lock m1 c)
       | [] =>
           let c' := do_try_lock (avail 0) m2 (do_lock m1 c) in
           if avail 0 then (-1, c') else (0, c')
       end in
     (index =? -1, c2)) = do_try avail 0 (m2 :: m3) (do_lock m1 c)).
  { destruct m3 as [|m3h m3t].
    - cbn. destruct (avail 0); reflexivity.
    - destruct (DoTryLock_spec (m2 :: m3h :: m3t) 0 0 (do_lock m1 c)
                  ltac:(lia) ltac:(discriminate)) as [Heq Hidx].
      rewrite Heq, Hidx. now destruct (do_try _ _ _ _). }
  unfold Lock_round.
  match goal with
  | |- (let '(index, c2) := ?X in _) = _ => destruct X as [index c2]
  end.
  rewrite do_try_spec in Hsame.
  remember (all_free avail 0 (m2 :: m3)) as all eqn:Hall.
  injection Hsame as Hi Hc2. rewrite Hi. subst c2.
  destruct all; cbn [do_lock log held trace].
  - f_equal. f_equal. now rewrite <- app_assoc.
  - f_equal. unfold do_unlock, log. cbn [held trace].
    rewrite remove_first_head. f_equal.
    rewrite <- !app_assoc. reflexivity.
Qed.

End Round.

(** The retry loops, unfolded by one round. *)
Lemma lock_all_unfold avail later m1 ms c :
  ms <> [] ->
  lock_all (avail :: later) m1 ms c =
    if all_free avail 0 ms then
      Some (mkCaller (rev ms ++ m1 :: held c)
                     (trace c ++ EvLock m1 :: map (fun m => EvTryLock m true) ms))
    else
      lock_all later m1 ms
               (mkCaller (held c)
                         (trace c ++ EvLock m1 :: try_phase avail 0 ms
                                  ++ [EvYield; EvUnlock m1])).
Proof.
  intros Hne. cbn [lock_all].
  rewrite lock_all_round_spec by assumption.
  destruct (all_free avail 0 ms) eqn:Hall; [|reflexivity].
  now rewrite try_phase_all.
Qed.

Lemma Lock_unfold avail later m1 m2 m3 c :
  Lock (avail :: later) m1 m2 m3 c =
    if all_free avail 0 (m2 :: m3) then
      Some (mkCaller (rev (m2 :: m3) ++ m1 :: held c)
                     (trace c ++ EvLock m1
                              :: map (fun m => EvTryLock m true) (m2 :: m3)))
    else
      Lock later m1 m2 m3
           (mkCaller (held c)
                     (trace c ++ EvLock m1 :: try_phase avail 0 (m2 :: m3)
                              ++ [EvUnlock m1])).
Proof.
  cbn [Lock]. rewrite Lock_round_spec.
  destruct (all_free avail 0 (m2 :: m3)) eqn:Hall; [|reflexivity].
  now rewrite try_phase_all.
Qed.

Lemma lock_all_returns rounds m1 ms c c' :
  ms <> [] ->
  lock_all rounds m1 ms c = Some c' -> held c' = rev ms ++ m1 :: held c.
Proof.
  intros Hne. revert c.
  induction rounds as [|avail later IH]; intros c.
  - cbn. destruct ms; [contradiction|discriminate].
  - rewrite lock_all_unfold by assumption.
    destruct (all_free avail 0 ms).
    + now intros [= <-].
    + intros H. now apply IH in H.
Qed.

Lemma Lock_returns rounds m1 m2 m3 c c' :
  Lock rounds m1 m2 m3 c = Some c' ->
  held c' = rev (m2 :: m3) ++ m1 :: held c.
Proof.
  revert c.
  induction rounds as [|avail later IH]; intros c; [discriminate|].
  rewrite Lock_unfold.
  destruct (all_free avail 0 (m2 :: m3)).
  - now intros [= <-].
  - intros H. now apply IH in H.
Qed.

Lemma lock_all_succeeds rounds m1 ms c :
  ms <> [] ->
  List.Exists (fun avail => all_free avail 0 ms = true) rounds ->
  exists c', lock_all rounds m1 ms c = Some c'.
Proof.
  intros Hne Hex. revert c.
  induction Hex as [avail later Hall|avail later Hex IH]; intros c;
    rewrite lock_all_unfold by assumption.
  - rewrite Hall. eauto.
  - destruct (all_free avail 0 ms); [eauto|]. apply IH.
Qed.

Lemma Lock_succeeds rounds m1 m2 m3 c :
  List.Exists (fun avail => all_free avail 0 (m2 :: m3) = true) rounds ->
  exists c', Lock rounds m1 m2 m3 c = Some c'.
Proof.
  intros Hex. revert c.
  induction Hex as [avail later Hall|avail later Hex IH]; intros c;
    rewrite Lock_unfold.
  - rewrite Hall. eauto.
  - destruct (all_free avail 0 (m2 :: m3)); [eauto|]. apply IH.
Qed.

(** Claim C9.  For n >= 2 lockables [m1], [m2 :: m3] both acquirers work
    in rounds.  A round blocking-locks [m1] and try-locks the others in
    order.  If every try succeeds the call returns, the caller holding
    all n of them on top of what it held.  Otherwise the round stops at
    the first failure, unlocks what it obtained (latest first), unlocks
    [m1], and the next round starts with the caller holding exactly what
    it held before the call: none of the n.  Whenever the call returns
    the caller holds all n, and it does return as soon as a round finds
    the others all free. *)
Theorem multi_lock_acquires_all_or_nothing
        (m1 m2 : lockable) (m3 : list lockable) (c : caller) :
  (forall avail later,
     lock_all (avail :: later) m1 (m2 :: m3) c =
       (if all_free avail 0 (m2 :: m3) then
          Some (mkCaller (rev (m2 :: m3) ++ m1 :: held c)
                  (trace c ++ EvLock m1
                           :: map (fun m => EvTryLock m true) (m2 :: m3)))
        else
          lock_all later m1 (m2 :: m3)
            (mkCaller (held c)
               (trace c ++ EvLock m1 :: try_phase avail 0 (m2 :: m3)
                        ++ [EvYield; EvUnlock m1])))
     /\ Lock (avail :: later) m1 m2 m3 c =
       (if all_free avail 0 (m2 :: m3) then
          Some (mkCaller (rev (m2 :: m3) ++ m1 :: held c)
                  (trace c ++ EvLock m1
                           :: map (fun m => EvTryLock m true) (m2 :: m3)))
        else
          Lock later m1 m2 m3
            (mkCaller (held c)
               (trace c ++ EvLock m1 :: try_phase avail 0 (m2 :: m3)
                        ++ [EvUnlock m1]))))
  /\ (forall rounds c',
        lock_all rounds m1 (m2 :: m3) c = Some c'
        \/ Lock rounds m1 m2 m3 c = Some c' ->
        held c' = rev (m2 :: m3) ++ m1 :: held c)
  /\ (forall rounds,
        List.Exists (fun avail => all_free avail 0 (m2 :: m3) = true) rounds ->
        (exists c', lock_all rounds m1 (m2 :: m3) c = Some c')
        /\ (exists c', Lock rounds m1 m2 m3 c = Some c')).
Proof.
  assert (Hne : m2 :: m3 <> []) by discriminate.
  split; [|split].
  - intros avail later. split.
    + now apply lock_all_unfold.
    + apply Lock_unfold.
  - intros rounds c' [H|H].
    + now apply (lock_all_returns rounds).
    + now apply (Lock_returns rounds).
  - intros rounds Hex. split.
    + now apply lock_all_succeeds.
    + now apply Lock_succeeds.
Qed.

Lemma multi_lock_acquires_all_or_nothing_witness :
  (exists c', lock_all [third_busy; all_idle] 1%nat [2%nat; 3%nat] nobody
              = Some c')
  /\ (exists c', Lock [third_busy; all_idle] 1%nat 2%nat [3%nat] nobody
                 = Some c').
Proof.
  apply (proj2 (proj2 (multi_lock_acquires_all_or_nothing
                         1%nat 2%nat [3%nat] nobody))).
  right. left. reflexivity.
Defined.

(** Three lockables, the third one taken during the first round. *)
Example lock_all_two_rounds :
  lock_all [third_busy; all_idle] 1%nat [2%nat; 3%nat] nobody
  = Some (mkCaller [3%nat; 2%nat; 1%nat]
            [EvLock 1%nat; EvTryLock 2%nat true; EvTryLock 3%nat false;
             EvUnlock 2%nat; EvYield; EvUnlock 1%nat;
             EvLock 1%nat; EvTryLock 2%nat true; EvTryLock 3%nat true]).
Proof. reflexivity. Qed.

Example Lock_two_rounds :
  Lock [third_busy; all_idle] 1%nat 2%nat [3%nat] nobody
  = Some (mkCaller [3%nat; 2%nat; 1%nat]
            [EvLock 1%nat; EvTryLock 2%nat true; EvTryLock 3%nat false;
             EvUnlock 2%nat; EvUnlock 1%nat;
             EvLock 1%nat; EvTryLock 2%nat true; EvTryLock 3%nat true]).
Proof. reflexivity. Qed.

End MultiLockFacts.

(** ** The task queue *)
Module TaskQueueFacts.
Import TaskQueue.

Section WithTask.
Context {Task : Type}.
Implicit Types (q : TaskQueue Task) (pq : list (TimeTask Task)).
Implicit Types (r : popped Task) (wakes : list (wake Task)).

(** *** The delay heap *)

(** The heap of the examples keeps the promise of the library. *)
Lemma first_least_None pq : first_least pq = None <-> pq = [].
Proof.
  destruct pq as [|x rest]; cbn; [tauto|].
  destruct (first_least rest) as [[y r']|]; [|split; discriminate].
  destruct (exec_tm_ x <=? exec_tm_ y); split; discriminate.
Qed.

Lemma first_least_min pq d rest :
  first_least pq = Some (d, rest) ->
  Permutation pq (d :: rest)
  /\ List.Forall (fun y => exec_tm_ d <= exec_tm_ y) rest.
Proof.
  revert d rest. induction pq as [|x r IH]; intros d rest; cbn; [discriminate|].
  destruct (first_least r) as [[y r']|] eqn:E.
  - destruct (IH y r' eq_refl) as [Hperm Hall].
    destruct (Z.leb_spec (exec_tm_ x) (exec_tm_ y)); intros [= <- <-].
    + split; [reflexivity|].
      rewrite Hperm. constructor; [assumption|].
      eapply List.Forall_impl; [|exact Hall]. cbn. intros; lia.
    + split.
      * rewrite Hperm. apply perm_swap.
      * constructor; [lia|assumption].
  - apply first_least_None in E. subst r. intros [= <- <-].
    split; [reflexivity|constructor].
Qed.

Lemma first_least_lawful : lawful (first_least (Task := Task)).
Proof. split; [apply first_least_None|apply first_least_min]. Qed.

(** From here on: any heap that keeps the promise. *)
Context {heap : DelayHeap Task} (Hheap : lawful heap).

Lemma pq_extract_None pq : pq_extract pq = None <-> pq = [].
Proof. apply Hheap. Qed.

(** [top()] is an element of least [exec_tm_], [pop()] removes it and
    nothing else. *)
Lemma pq_extract_min pq d rest :
  pq_extract pq = Some (d, rest) ->
  Permutation pq (d :: rest)
  /\ List.Forall (fun y => exec_tm_ d <= exec_tm_ y) rest.
Proof. apply Hheap. Qed.

Lemma is_nil_true {A} (l : list A) : is_nil l = true <-> l = [].
Proof. destruct l; cbn; split; congruence. Qed.

(** *** One iteration *)

Lemma pop_try_picked deadline now q r :
  picked now q r -> pop_try deadline now q = inl r.
Proof.
  unfold pop_try, ready_delay_task.
  intros [(d & rest & He & Hd & ->)|[(Hn & t & ts & Ht & ->)|(Hs & Ht & Hd & ->)]].
  - rewrite He. destruct (delay_tasks_ q) eqn:Hq.
    { rewrite (proj2 (pq_extract_None []) eq_refl) in He. discriminate. }
    cbn [is_nil]. rewrite andb_false_r. cbn [andb].
    destruct (Z.leb_spec (exec_tm_ d) now); [reflexivity|lia].
  - unfold ready_delay_task in Hn. rewrite Hn. rewrite Ht. cbn [is_nil].
    rewrite andb_false_r. unfold take_normal. now rewrite Ht.
  - now rewrite Hs, Ht, Hd.
Qed.

Lemma pop_try_v4_picked now q r :
  picked now q r -> pop_try_v4 now q = Some r.
Proof.
  unfold pop_try_v4, ready_delay_task.
  intros [(d & rest & He & Hd & ->)|[(Hn & t & ts & Ht & ->)|(Hs & Ht & Hd & ->)]].
  - rewrite He. destruct (Z.leb_spec (exec_tm_ d) now); [reflexivity|lia].
  - unfold ready_delay_task in Hn. rewrite Hn.
    unfold take_normal. now rewrite Ht.
  - rewrite Hd, (proj2 (pq_extract_None []) eq_refl).
    cbn. unfold take_normal. now rewrite Hs, Ht.
Qed.

Lemma pop_try_inl deadline now q r :
  pop_try deadline now q = inl r -> picked now q r.
Proof.
  unfold pop_try.
  destruct (stop_ q && is_nil (delay_tasks_ q) && is_nil (tasks_ q)) eqn:E.
  - intros [= <-]. right. right.
    apply andb_true_iff in E as [E Ht]. apply andb_true_iff in E as [Hs Hd].
    apply is_nil_true in Ht, Hd. auto.
  - destruct (ready_delay_task now q) as [[d rest]|] eqn:Hr.
    + intros [= <-]. left. exists d, rest.
      unfold ready_delay_task in Hr.
      destruct (pq_extract (delay_tasks_ q)) as [[d' rest']|]; [|discriminate].
      destruct (Z.leb_spec (exec_tm_ d') now); [|discriminate].
      injection Hr as <- <-. auto.
    + unfold take_normal. destruct (tasks_ q) as [|t ts] eqn:Ht; [discriminate|].
      intros [= <-]. right. left. eauto.
Qed.

Lemma pop_try_v4_Some now q r :
  pop_try_v4 now q = Some r -> picked now q r.
Proof.
  unfold pop_try_v4.
  destruct (ready_delay_task now q) as [[d rest]|] eqn:Hr.
  - intros [= <-]. left. exists d, rest.
    unfold ready_delay_task in Hr.
    destruct (pq_extract (delay_tasks_ q)) as [[d' rest']|]; [|discriminate].
    destruct (Z.leb_spec (exec_tm_ d') now); [|discriminate].
    injection Hr as <- <-. auto.
  - unfold take_normal. destruct (tasks_ q) as [|t ts] eqn:Ht.
    + cbn [is_nil]. rewrite andb_true_r.
      destruct (stop_ q && is_nil (delay_tasks_ q)) eqn:E; [|discriminate].
      intros [= <-]. right. right.
      apply andb_true_iff in E as [Hs Hd]. apply is_nil_true in Hd. auto.
    + intros [= <-]. right. left. eauto.
Qed.

Lemma after_wait_v4_Some idle_timeout wd (w : wake Task) r :
  after_wait_v4 idle_timeout wd w = Some r ->
  fst (fst r) = TIMEOUT \/ forall now, picked now (wk_queue w) r.
Proof.
  unfold after_wait_v4.
  destruct (is_timeout (wk_status w)); [|discriminate].
  destruct (stop_ (wk_queue w) && is_nil (tasks_ (wk_queue w))
            && is_nil (delay_tasks_ (wk_queue w))) eqn:E.
  - intros [= <-]. right. intros now. right. right.
    apply andb_true_iff in E as [E Hd]. apply andb_true_iff in E as [Hs Ht].
    apply is_nil_true in Ht, Hd. auto.
  - match goal with |- (if ?c then _ else _) = _ -> _ => destruct c end;
      [|discriminate].
    intros [= <-]. now left.
Qed.

(** *** The loops *)

Lemma pop_loop_picked deadline now q wakes r :
  picked now q r -> pop_loop deadline now q wakes = Some r.
Proof.
  intros H. destruct wakes; cbn [pop_loop];
    now rewrite (pop_try_picked deadline now q r H).
Qed.

Lemma pop_v4_picked idle_timeout now q wakes r :
  picked now q r -> pop_v4 idle_timeout now q wakes = Some r.
Proof.
  intros H. destruct wakes; cbn [pop_v4];
    now rewrite (pop_try_v4_picked now q r H).
Qed.

Lemma pop_try_nothing deadline now q :
  (forall r, ~ picked now q r) -> exists tm, pop_try deadline now q = inr tm.
Proof.
  intros H. destruct (pop_try deadline now q) as [r|tm] eqn:E; [|eauto].
  exfalso. apply (H r). eapply pop_try_inl; eassumption.
Qed.

Lemma pop_try_v4_nothing now q :
  (forall r, ~ picked now q r) -> pop_try_v4 now q = None.
Proof.
  intros H. destruct (pop_try_v4 now q) as [r|] eqn:E; [|reflexivity].
  exfalso. apply (H r). now apply pop_try_v4_Some.
Qed.

Lemma pop_loop_result deadline now q wakes r :
  pop_loop deadline now q wakes = Some r ->
  fst (fst r) <> TIMEOUT ->
  exists now' q',
    In now' (now :: map wk_now wakes)
    /\ In q' (q :: map wk_queue wakes)
    /\ picked now' q' r.
Proof.
  revert now q. induction wakes as [|w ws IH]; intros now q; cbn [pop_loop].
  - destruct (pop_try deadline now q) as [r0|tm] eqn:E; [|discriminate].
    intros [= <-] _. exists now, q. split; [now left|]. split; [now left|].
      eapply pop_try_inl; eassumption.
  - destruct (pop_try deadline now q) as [r0|tm] eqn:E.
    + intros [= <-] _. exists now, q. split; [now left|]. split; [now left|].
      eapply pop_try_inl; eassumption.
    + destruct (is_timeout (wk_status w) && (deadline <=? wk_clock w)).
      * intros [= <-] Hne. now contradiction Hne.
      * intros H Hne. destruct (IH _ _ H Hne) as (n' & q' & Hn & Hq & Hsel).
        exists n', q'. cbn [map]. split; [now right|]. split; [now right|].
        assumption.
Qed.

Lemma pop_v4_result idle_timeout now q wakes r :
  pop_v4 idle_timeout now q wakes = Some r ->
  fst (fst r) <> TIMEOUT ->
  exists now' q',
    In now' (now :: map wk_now wakes)
    /\ In q' (q :: map wk_queue wakes)
    /\ picked now' q' r.
Proof.
  revert now q. induction wakes as [|w ws IH]; intros now q; cbn [pop_v4].
  - destruct (pop_try_v4 now q) as [r0|] eqn:E; [|discriminate].
    intros [= <-] _. exists now, q. split; [now left|]. split; [now left|].
      eapply pop_try_v4_Some; eassumption.
  - destruct (pop_try_v4 now q) as [r0|] eqn:E.
    + intros [= <-] _. exists now, q. split; [now left|]. split; [now left|].
      eapply pop_try_v4_Some; eassumption.
    + destruct (wait_duration idle_timeout now q <=? 0).
      * intros H Hne. destruct (IH _ _ H Hne) as (n' & q' & Hn & Hq & Hsel).
        exists n', q'. cbn [map]. split; [now right|]. split; [|assumption].
        destruct Hq as [<-|Hq]; [now left|now right; right].
      * destruct (after_wait_v4 _ _ w) as [r1|] eqn:Ea.
        -- intros [= <-] Hne.
           destruct (after_wait_v4_Some _ _ _ _ Ea) as [Ht|Hsel];
             [contradiction|].
           exists now, (wk_queue w). cbn [map].
           split; [now left|]. split; [right; now left|]. apply Hsel.
        -- intros H Hne. destruct (IH _ _ H Hne) as (n' & q' & Hn & Hq & Hsel).
           exists n', q'. cbn [map]. split; [now right|]. split; [now right|].
           assumption.
Qed.

(** *** Draining *)


(** *** Giving up *)

Lemma picked_not_timeout now q r :
  picked now q r -> fst (fst r) <> TIMEOUT.
Proof.
  intros [(d & rest & _ & _ & ->)|[(_ & t & ts & _ & ->)|(_ & _ & _ & ->)]];
    discriminate.
Qed.

Lemma pop_loop_timeout deadline now q wakes o q' :
  pop_loop deadline now q wakes = Some (TIMEOUT, o, q') ->
  o = None
  /\ exists w, In w wakes /\ wk_status w = timeout
               /\ deadline <= wk_clock w /\ q' = wk_queue w.
Proof.
  revert now q. induction wakes as [|w ws IH]; intros now q; cbn [pop_loop].
  - destruct (pop_try deadline now q) as [r0|tm] eqn:E; [|discriminate].
    intros [= ->]. apply pop_try_inl in E.
    now apply picked_not_timeout in E.
  - destruct (pop_try deadline now q) as [r0|tm] eqn:E.
    + intros [= ->]. apply pop_try_inl in E.
      now apply picked_not_timeout in E.
    + destruct (is_timeout (wk_status w) && (deadline <=? wk_clock w)) eqn:Et.
      * intros [= <- <-]. split; [reflexivity|]. exists w.
        apply andb_true_iff in Et as [Hs Hc]. apply Z.leb_le in Hc.
        split; [now left|]. split; [|auto].
        destruct (wk_status w); [discriminate|reflexivity].
      * intros H. apply IH in H as (Ho & w' & Hin & Hrest).
        split; [assumption|]. exists w'. split; [now right|assumption].
Qed.

Lemma wait_duration_le idle_timeout now q :
  wait_duration idle_timeout now q <= idle_timeout * 1000.
Proof.
  unfold wait_duration. destruct (pq_top (delay_tasks_ q)); [|lia].
  match goal with |- context [if ?a <? ?b then _ else _] =>
    destruct (Z.ltb_spec a b) end; lia.
Qed.

Lemma after_wait_v4_timeout idle_timeout wd (w : wake Task) o q' :
  after_wait_v4 idle_timeout wd w = Some (TIMEOUT, o, q') ->
  o = None /\ wk_status w = timeout /\ q' = wk_queue w
  /\ tasks_ q' = [] /\ ready_delay_task (wk_clock w) q' = None
  /\ ~ (stop_ q' = true /\ delay_tasks_ q' = [])
  /\ idle_timeout * 1000 <= wd.
Proof.
  unfold after_wait_v4.
  destruct (wk_status w) eqn:Es; cbn [is_timeout]; [discriminate|].
  destruct (stop_ (wk_queue w) && is_nil (tasks_ (wk_queue w))
            && is_nil (delay_tasks_ (wk_queue w))) eqn:Estop; [discriminate|].
  match goal with |- context [if ?c then _ else _] =>
    destruct c eqn:Ec end; [|discriminate].
  intros [= <- <-].
  apply andb_true_iff in Ec as [Ec Hwd].
  apply andb_true_iff in Ec as [Hn Hd].
  apply is_nil_true in Hn. apply Z.leb_le in Hwd.
  split; [reflexivity|]. split; [reflexivity|]. split; [reflexivity|].
  split; [assumption|]. split; [|split; [|assumption]].
  - unfold ready_delay_task. unfold pq_top in Hd.
    destruct (pq_extract (delay_tasks_ (wk_queue w))) as [[top rest]|];
      [|reflexivity].
    cbn in Hd. apply Z.ltb_lt in Hd.
    destruct (Z.leb_spec (exec_tm_ top) (wk_clock w)); [lia|reflexivity].
  - intros [Hs Hde]. rewrite Hs, Hn, Hde in Estop. discriminate.
Qed.

Lemma pop_v4_timeout idle_timeout now q wakes o q' :
  pop_v4 idle_timeout now q wakes = Some (TIMEOUT, o, q') ->
  o = None /\ 0 < idle_timeout
  /\ exists w, In w wakes /\ wk_status w = timeout /\ q' = wk_queue w
               /\ tasks_ q' = []
               /\ ready_delay_task (wk_clock w) q' = None
               /\ ~ (stop_ q' = true /\ delay_tasks_ q' = []).
Proof.
  revert now q. induction wakes as [|w ws IH]; intros now q; cbn [pop_v4].
  - destruct (pop_try_v4 now q) as [r0|] eqn:E; [|discriminate].
    intros [= ->]. apply pop_try_v4_Some in E.
    now apply picked_not_timeout in E.
  - destruct (pop_try_v4 now q) as [r0|] eqn:E.
    { intros [= ->]. apply pop_try_v4_Some in E.
      now apply picked_not_timeout in E. }
    destruct (Z.leb_spec (wait_duration idle_timeout now q) 0) as [Hwd|Hwd].
    { intros H. apply IH in H as (Ho & Hi & w' & Hin & Hrest).
      split; [assumption|]. split; [assumption|].
      exists w'. split; [now right|assumption]. }
    destruct (after_wait_v4 _ _ w) as [r1|] eqn:Ea.
    + intros [= ->].
      apply after_wait_v4_timeout
        in Ea as (Ho & Hs & Hq & Ht & Hr & Hns & Hle).
      assert (Hup := wait_duration_le idle_timeout now q).
      split; [assumption|]. split; [lia|].
      exists w. split; [now left|]. auto 6.
    + intros H. apply IH in H as (Ho & Hi & w' & Hin & Hrest).
      split; [assumption|]. split; [assumption|].
      exists w'. split; [now right|assumption].
Qed.

(** *** The rules in the words of the specification *)

Lemma not_ready_none_due now q :
  ready_delay_task now q = None -> none_due now q.
Proof.
  unfold ready_delay_task, none_due.
  destruct (pq_extract (delay_tasks_ q)) as [[top rest]|] eqn:E.
  - destruct (pq_extract_min _ _ _ E) as [Hperm Hmin].
    destruct (Z.leb_spec (exec_tm_ top) now); [discriminate|]. intros _.
    rewrite Hperm. constructor; [assumption|].
    eapply List.Forall_impl; [|exact Hmin]. cbn. intros; lia.
  - apply pq_extract_None in E. rewrite E. constructor.
Qed.

Lemma none_due_not_ready now q :
  none_due now q -> ready_delay_task now q = None.
Proof.
  unfold ready_delay_task, none_due. intros Hnone.
  destruct (pq_extract (delay_tasks_ q)) as [[top rest]|] eqn:E;
    [|reflexivity].
  destruct (pq_extract_min _ _ _ E) as [Hperm _].
  rewrite Hperm in Hnone. inversion Hnone; subst.
  destruct (Z.leb_spec (exec_tm_ top) now); [lia|reflexivity].
Qed.

(** What the loop returns is allowed by the rules. *)
Lemma picked_selected now q r : picked now q r -> selected now q r.
Proof.
  intros [(d & rest & He & Hd & ->)|[(Hn & Hrest)|H]].
  - left. exists d, rest. split; [|auto]. now apply pq_extract_min.
  - right. left. split; [now apply not_ready_none_due|exact Hrest].
  - right. right. exact H.
Qed.

(** When the rules allow a result the loop returns one, by the same
    rule; it is that very result unless a delayed task is due, where the
    heap chooses among the tasks of earliest deadline. *)
Lemma selected_picked now q r :
  selected now q r ->
  exists r', picked now q r' /\ fst (fst r') = fst (fst r)
             /\ (none_due now q -> r' = r).
Proof.
  intros [(d & rest & [Hperm Hmin] & Hd & ->)|[(Hn & t & ts & Ht & ->)|H]].
  - destruct (pq_extract (delay_tasks_ q)) as [[d' rest']|] eqn:E.
    + destruct (pq_extract_min _ _ _ E) as [Hperm' Hmin'].
      assert (Hle : exec_tm_ d' <= exec_tm_ d).
      { assert (Hin : In d (d' :: rest')).
        { apply (Permutation_in d (Permutation_trans
                                    (Permutation_sym Hperm) Hperm')).
          now left. }
        destruct Hin as [->|Hin]; [lia|].
        rewrite List.Forall_forall in Hmin'. now apply Hmin'. }
      exists (OK, Some (task_ d'), set_delay_tasks rest' q).
      split; [left; exists d', rest'; repeat split; [assumption|lia]|].
      split; [reflexivity|].
      intros Hnone. exfalso. unfold none_due in Hnone.
      rewrite Hperm in Hnone. inversion Hnone; subst. lia.
    + apply pq_extract_None in E. rewrite E in Hperm.
      apply Permutation_nil in Hperm. discriminate.
  - exists (OK, Some t, set_tasks ts q). split; [|auto].
    right. left. split; [now apply none_due_not_ready|eauto].
  - exists r. split; [right; right; exact H|auto].
Qed.

Lemma nothing_selected_nothing_picked now q :
  (forall r, ~ selected now q r) -> forall r, ~ picked now q r.
Proof. intros H r Hp. apply (H r). now apply picked_selected. Qed.

(** What the test after the wait of [_v4.hpp] sees when the rules allow
    nothing, and when they allow a task. *)
Lemma nothing_selected_inv now q :
  (forall r, ~ selected now q r) ->
  tasks_ q = []
  /\ match pq_top (delay_tasks_ q) with
     | None => true
     | Some top => now <? exec_tm_ top
     end = true
  /\ stop_ q && is_nil (tasks_ q) && is_nil (delay_tasks_ q) = false.
Proof.
  intros H.
  pose proof (pop_try_v4_nothing now q
                (nothing_selected_nothing_picked now q H)) as E.
  unfold pop_try_v4, ready_delay_task, take_normal in E. unfold pq_top.
  destruct (pq_extract (delay_tasks_ q)) as [[top rest]|];
    cbn [fmap option_fmap option_map fst].
  - destruct (Z.leb_spec (exec_tm_ top) now); [discriminate|].
    destruct (tasks_ q); [|discriminate].
    destruct (stop_ q && is_nil [] && is_nil (delay_tasks_ q));
      [discriminate|].
    split; [reflexivity|]. split; [apply Z.ltb_lt; lia|reflexivity].
  - destruct (tasks_ q); [|discriminate].
    destruct (stop_ q && is_nil [] && is_nil (delay_tasks_ q));
      [discriminate|].
    auto.
Qed.

Lemma selected_task_inv now q r :
  selected now q r -> fst (fst r) = OK ->
  is_nil (tasks_ q)
  && match pq_top (delay_tasks_ q) with
     | None => true
     | Some top => now <? exec_tm_ top
     end = false
  /\ stop_ q && is_nil (tasks_ q) && is_nil (delay_tasks_ q) = false.
Proof.
  intros Hsel Hok.
  destruct (selected_picked now q r Hsel) as (r' & Hp & Hk & _).
  rewrite Hok in Hk.
  destruct Hp
    as [(d & rest & He & Hd & ->)|[(_ & t & ts & Ht & ->)|(_ & _ & _ & ->)]];
    [| |discriminate].
  - unfold pq_top. rewrite He. cbn [fmap option_fmap option_map fst].
    destruct (Z.ltb_spec now (exec_tm_ d)); [lia|].
    destruct (delay_tasks_ q) eqn:Hq.
    { rewrite (proj2 (pq_extract_None []) eq_refl) in He. discriminate. }
    cbn [is_nil]. now rewrite !andb_false_r.
  - rewrite Ht. cbn [is_nil andb]. now rewrite andb_false_r.
Qed.

(** Claim C7, as amended.  In both files, whatever [pop] returns other
    than [TIMEOUT] is what the rules allow at the clock and queue of one
    of its decisions: a delayed task of earliest deadline once that
    deadline is <= now, before any FIFO task; otherwise the front of the
    FIFO; [STOPPED] only for a stopped queue with both structures empty.
    So a delayed task never leaves before its deadline.  When the rules
    allow a result on entry, [pop] returns one at once, by the same rule,
    the same in both files; on a stopped queue with both structures empty
    that is [STOPPED].  When they allow nothing [pop] does not return
    before a wake-up, and what it does at the wake-up is spelt out for
    both files.  The exception is [TIMEOUT]: [_v4.hpp] answers it only
    where the rules allow nothing (after a wait of the full idle time
    that ended by expiry), but [part_005] answers it at a wait that
    expired at or after its idle deadline without looking at the queue
    again, whatever the rules would allow there. *)
Theorem pop_selection_order
        (entry idle_timeout now : Z) (q : TaskQueue Task)
        (wakes : list (wake Task)) :
  (forall r,
     pop entry idle_timeout now q wakes = Some r
     \/ pop_v4 idle_timeout now q wakes = Some r ->
     fst (fst r) <> TIMEOUT ->
     exists now' q',
       In now' (now :: map wk_now wakes)
       /\ In q' (q :: map wk_queue wakes)
       /\ selected now' q' r)
  /\ (forall r, selected now q r ->
        exists r',
          pop entry idle_timeout now q wakes = Some r'
          /\ pop_v4 idle_timeout now q wakes = Some r'
          /\ selected now q r'
          /\ fst (fst r') = fst (fst r)
          /\ (none_due now q -> r' = r))
  /\ (forall r,
        pop entry idle_timeout now q wakes = Some r
        \/ pop_v4 idle_timeout now q wakes = Some r ->
        fst (fst r) = STOPPED ->
        stop_ (snd r) = true /\ tasks_ (snd r) = []
        /\ delay_tasks_ (snd r) = [])
  /\ (stop_ q = true -> tasks_ q = [] -> delay_tasks_ q = [] ->
      pop entry idle_timeout now q wakes = Some (STOPPED, None, q)
      /\ pop_v4 idle_timeout now q wakes = Some (STOPPED, None, q))
  /\ ((forall r, ~ selected now q r) ->
      pop entry idle_timeout now q [] = None
      /\ pop_v4 idle_timeout now q [] = None
      /\ forall w,
           (wk_status w = timeout
            /\ idle_deadline entry idle_timeout <= wk_clock w ->
            pop entry idle_timeout now q (w :: wakes)
            = Some (TIMEOUT, None, wk_queue w))
           /\ (~ (wk_status w = timeout
                  /\ idle_deadline entry idle_timeout <= wk_clock w) ->
               pop entry idle_timeout now q (w :: wakes)
               = pop entry idle_timeout (wk_now w) (wk_queue w) wakes))
  /\ ((forall r, ~ selected now q r) ->
      forall w,
        (wait_duration idle_timeout now q <= 0 ->
         pop_v4 idle_timeout now q (w :: wakes)
         = pop_v4 idle_timeout (wk_now w) q wakes)
        /\ (0 < wait_duration idle_timeout now q ->
            (wk_status w = no_timeout ->
             pop_v4 idle_timeout now q (w :: wakes)
             = pop_v4 idle_timeout (wk_now w) (wk_queue w) wakes)
            /\ (wk_status w = timeout ->
                (stop_ (wk_queue w) = true -> tasks_ (wk_queue w) = [] ->
                 delay_tasks_ (wk_queue w) = [] ->
                 pop_v4 idle_timeout now q (w :: wakes)
                 = Some (STOPPED, None, wk_queue w))
                /\ (forall r, selected (wk_clock w) (wk_queue w) r ->
                              fst (fst r) = OK ->
                     pop_v4 idle_timeout now q (w :: wakes)
                     = pop_v4 idle_timeout (wk_now w) (wk_queue w) wakes)
                /\ ((forall r, ~ selected (wk_clock w) (wk_queue w) r) ->
                    (idle_timeout * 1000 <= wait_duration idle_timeout now q ->
                     pop_v4 idle_timeout now q (w :: wakes)
                     = Some (TIMEOUT, None, wk_queue w))
                    /\ (wait_duration idle_timeout now q < idle_timeout * 1000 ->
                        pop_v4 idle_timeout now q (w :: wakes)
                        = pop_v4 idle_timeout (wk_now w) (wk_queue w)
                                 wakes)))))
  /\ (forall o q',
        pop entry idle_timeout now q wakes = Some (TIMEOUT, o, q') ->
        o = None
        /\ exists w, In w wakes /\ wk_status w = timeout
                     /\ idle_deadline entry idle_timeout <= wk_clock w
                     /\ q' = wk_queue w)
  /\ (forall o q',
        pop_v4 idle_timeout now q wakes = Some (TIMEOUT, o, q') ->
        o = None
        /\ exists w, In w wakes /\ wk_status w = timeout
                     /\ q' = wk_queue w
                     /\ forall r, ~ selected (wk_clock w) q' r).
Proof.
  assert (Hres : forall r,
    pop entry idle_timeout now q wakes = Some r
    \/ pop_v4 idle_timeout now q wakes = Some r ->
    fst (fst r) <> TIMEOUT ->
    exists now' q',
      In now' (now :: map wk_now wakes)
      /\ In q' (q :: map wk_queue wakes)
      /\ picked now' q' r).
  { intros r [H|H] Hne.
    - now apply (pop_loop_result _ _ _ _ _ H).
    - now apply (pop_v4_result _ _ _ _ _ H). }
  assert (Hentry : forall r, picked now q r ->
            pop entry idle_timeout now q wakes = Some r
            /\ pop_v4 idle_timeout now q wakes = Some r).
  { intros r Hp. split; [now apply pop_loop_picked|now apply pop_v4_picked]. }
  split; [|split; [|split; [|split; [|split; [|split; [|split]]]]]].
  - intros r Hr Hne.
    destruct (Hres r Hr Hne) as (n' & q' & Hn & Hq & Hp).
    exists n', q'. split; [assumption|]. split; [assumption|].
    now apply picked_selected.
  - intros r Hsel.
    destruct (selected_picked now q r Hsel) as (r' & Hp & Hk & Hsame).
    destruct (Hentry r' Hp) as [H1 H2].
    exists r'. split; [assumption|]. split; [assumption|].
    split; [now apply picked_selected|]. split; assumption.
  - intros r Hr Hst.
    destruct (Hres r Hr ltac:(congruence)) as (n' & q' & _ & _ & Hsel).
    destruct Hsel
      as [(d & rest & _ & _ & ->)|[(_ & t & ts & _ & ->)|(Hs & Ht & Hd & ->)]];
      try discriminate.
    auto.
  - intros Hs Ht Hd. apply Hentry. right. right. auto.
  - intros Hnone.
    pose proof (nothing_selected_nothing_picked now q Hnone) as Hnp.
    destruct (pop_try_nothing (idle_deadline entry idle_timeout) now q Hnp)
      as [tm Htry].
    pose proof (pop_try_v4_nothing now q Hnp) as Htry4.
    split; [unfold pop; cbn [pop_loop]; now rewrite Htry|].
    split; [cbn [pop_v4]; now rewrite Htry4|].
    intros w. unfold pop. cbn [pop_loop]. rewrite Htry. split.
    + intros [Hst Hc]. rewrite Hst. cbn [is_timeout andb].
      destruct (Z.leb_spec (idle_deadline entry idle_timeout) (wk_clock w));
        [reflexivity|lia].
    + intros Hnot.
      destruct (wk_status w) eqn:Hst; cbn [is_timeout andb]; [reflexivity|].
      destruct (Z.leb_spec (idle_deadline entry idle_timeout) (wk_clock w));
        [|reflexivity].
      exfalso. apply Hnot. auto.
  - intros Hnone w.
    pose proof (pop_try_v4_nothing now q
                  (nothing_selected_nothing_picked now q Hnone)) as Htry4.
    cbn [pop_v4]. rewrite Htry4. split.
    + intros Hwd.
      destruct (Z.leb_spec (wait_duration idle_timeout now q) 0);
        [reflexivity|lia].
    + intros Hwd.
      destruct (Z.leb_spec (wait_duration idle_timeout now q) 0); [lia|].
      unfold after_wait_v4. split.
      * intros ->. reflexivity.
      * intros ->. cbn [is_timeout]. split; [|split].
        -- intros Hs Ht Hd. now rewrite Hs, Ht, Hd.
        -- intros r Hsel Hok.
           destruct (selected_task_inv _ _ _ Hsel Hok) as [Hbusy Hns].
           now rewrite Hns, Hbusy.
        -- intros Hidle.
           destruct (nothing_selected_inv _ _ Hidle) as (Ht & Hnr & Hns).
           rewrite Hns, Hnr, Ht. cbn [is_nil andb]. split; intros Hcmp.
           ++ destruct (Z.leb_spec (idle_timeout * 1000)
                                   (wait_duration idle_timeout now q));
                [reflexivity|lia].
           ++ destruct (Z.leb_spec (idle_timeout * 1000)
                                   (wait_duration idle_timeout now q));
                [lia|reflexivity].
  - intros o q'. apply pop_loop_timeout.
  - intros o q' H.
    apply pop_v4_timeout in H as (Ho & _ & w & Hin & Hst & Hq & Ht & Hr & Hns).
    split; [assumption|]. exists w. split; [assumption|].
    split; [assumption|]. split; [assumption|].
    apply not_ready_none_due in Hr. unfold none_due in Hr.
    intros r [(d & rest & [Hperm _] & Hd & _)|[(_ & t & ts & Htt & _)|(Hs & _ & Hde & _)]].
    + rewrite Hperm in Hr. inversion Hr; subst. lia.
    + congruence.
    + apply Hns. auto.
Qed.


End WithTask.

Lemma pop_selection_order_witness :
  exists r',
    pop 0 1 7 (mkTQ [10%nat] [mkTimeTask 5 20%nat] false []) [] = Some r'
    /\ pop_v4 1 7 (mkTQ [10%nat] [mkTimeTask 5 20%nat] false []) [] = Some r'
    /\ selected 7 (mkTQ [10%nat] [mkTimeTask 5 20%nat] false []) r'
    /\ fst (fst r') = OK.
Proof.
  destruct (pop_selection_order first_least_lawful 0 1 7
              (mkTQ [10%nat] [mkTimeTask 5 20%nat] false []) [])
    as (_ & Hentry & _).
  destruct (Hentry (OK, Some 20%nat, mkTQ [10%nat] [] false []))
    as (r' & H1 & H2 & H3 & H4 & _).
  - left. exists (mkTimeTask 5 20%nat), []. split; [|split].
    + split; [reflexivity|constructor].
    + cbn. lia.
    + reflexivity.
  - exists r'. auto.
Defined.

(** Claim C7 as stated fails for [part_005].  A consumer with an idle
    time of one second waits on a queue holding one delayed task due in
    exactly one second.  The wait expires with the clock at one second:
    the earliest deadline is <= now, the rules allow that task and
    [_v4.hpp] hands it out, but [part_005] answers [TIMEOUT] and leaves
    the task in the heap.  Likewise a consumer whose wait expires at its
    idle deadline on an empty queue that has been stopped meanwhile: the
    rules say [STOPPED], and so does [_v4.hpp]; [part_005] says
    [TIMEOUT]. *)
Lemma pop_timeout_overrides_selection :
  (selected 1000000000 (mkTQ [] [mkTimeTask 1000000000 20%nat] false [])
            (OK, Some 20%nat, mkTQ [] [] false [])
   /\ pop 0 1 0 (mkTQ [] [mkTimeTask 1000000000 20%nat] false [])
          [mkWake timeout (mkTQ [] [mkTimeTask 1000000000 20%nat] false [])
                  1000000000 1000000000]
      = Some (TIMEOUT, None, mkTQ [] [mkTimeTask 1000000000 20%nat] false [])
   /\ pop_v4 1 0 (mkTQ [] [mkTimeTask 1000000000 20%nat] false [])
             [mkWake timeout (mkTQ [] [mkTimeTask 1000000000 20%nat] false [])
                     1000000000 1000000000]
      = Some (OK, Some 20%nat, mkTQ [] [] false []))
  /\ (selected 1000000000 (stop (@empty_queue nat))
               (STOPPED, None, stop (@empty_queue nat))
      /\ pop 0 1 0 (@empty_queue nat)
             [mkWake timeout (stop empty_queue) 1000000000 1000000000]
         = Some (TIMEOUT, None, stop empty_queue)
      /\ pop_v4 1 0 (@empty_queue nat)
                [mkWake timeout (stop empty_queue) 1000000000 1000000000]
         = Some (STOPPED, None, stop empty_queue)).
Proof.
  split; split.
  - left. exists (mkTimeTask 1000000000 20%nat), []. split; [|split].
    + split; [reflexivity|constructor].
    + cbn. lia.
    + reflexivity.
  - split; reflexivity.
  - right. right. repeat split.
  - split; reflexivity.
Qed.


(** One normal task, one delayed task due at 5, stopped, clock at 7. *)
Example drain_after_stop :
  drain 2 0 1 7 (stop (mkTQ [10%nat] [mkTimeTask 5 20%nat] false []))
  = ([20%nat; 10%nat], mkTQ [] [] true [NotifyAll]).
Proof. reflexivity. Qed.

(** Before the deadline of the delayed task the FIFO task is served and
    the delayed one stays in the heap. *)
Example pop_before_deadline :
  pop 0 1 3 (mkTQ [10%nat] [mkTimeTask 5 20%nat] false []) []
  = Some (OK, Some 10%nat, mkTQ [] [mkTimeTask 5 20%nat] false []).
Proof. reflexivity. Qed.

End TaskQueueFacts.

(** ** The worker pool's constructor *)
Module ThreadPoolFacts.
Import ThreadPool.

Section WithTask.
Context {Task : Type}.
Implicit Types (w : world Task) (p : pool Task).

Lemma spawn_worker_spec w :
  ids_fresh w ->
  let w' := spawn_worker w in
  ids_fresh w'
  /\ size (workers_ (the_pool w')) = S (size (workers_ (the_pool w)))
  /\ started w' = started w ++ [next_thread_id w]
  /\ next_thread_id w' = S (next_thread_id w)
  /\ min_threads_ (the_pool w') = min_threads_ (the_pool w)
  /\ max_threads_ (the_pool w') = max_threads_ (the_pool w).
Proof.
  intros Hf. unfold spawn_worker. cbn zeta. cbn [get_id].
  rewrite (Hf (next_thread_id w)) by lia. cbn.
  repeat split.
  - intros id Hid. cbn in *. rewrite lookup_insert_ne by lia.
    apply Hf. lia.
  - apply map_size_insert_None. apply Hf. lia.
Qed.

Lemma spawn_n_spec n w :
  ids_fresh w ->
  ids_fresh (spawn_n n w)
  /\ size (workers_ (the_pool (spawn_n n w)))
     = (size (workers_ (the_pool w)) + n)%nat
  /\ started (spawn_n n w) = started w ++ seq (next_thread_id w) n
  /\ min_threads_ (the_pool (spawn_n n w)) = min_threads_ (the_pool w)
  /\ max_threads_ (the_pool (spawn_n n w)) = max_threads_ (the_pool w).
Proof.
  revert w. induction n as [|n IH]; intros w Hf; cbn [spawn_n seq].
  - rewrite app_nil_r, Nat.add_0_r. auto.
  - destruct (spawn_worker_spec w Hf) as (Hf' & Hsz & Hst & Hnx & Hmin & Hmax).
    destruct (IH (spawn_worker w) Hf') as (H1 & H2 & H3 & H4 & H5).
    rewrite H2, H3, H4, H5, Hsz, Hst, Hnx, Hmin, Hmax.
    rewrite <- app_assoc. repeat split; try assumption. lia.
Qed.

(** The loop stops by its own test once it has enough fuel. *)
Lemma spawn_loop_spec fuel i bound w :
  int_range bound -> - 2 ^ 31 <= i ->
  (Z.to_nat (bound - i) <= fuel)%nat ->
  spawn_loop fuel i bound w = Some (spawn_n (Z.to_nat (bound - i)) w).
Proof.
  unfold int_range. intros Hb. revert i w.
  induction fuel as [|fuel IH]; intros i w Hi Hfuel.
  - cbn. destruct (Z.ltb_spec i bound); [lia|].
    replace (Z.to_nat (bound - i)) with O by lia. reflexivity.
  - cbn [spawn_loop]. destruct (Z.ltb_spec i bound).
    + rewrite wrap32_small by (unfold int_range; lia).
      rewrite IH by lia.
      replace (Z.to_nat (bound - i)) with (S (Z.to_nat (bound - (i + 1))))
        by lia.
      reflexivity.
    + replace (Z.to_nat (bound - i)) with O by lia. reflexivity.
Qed.

(** Claim C10.  For all [int] arguments the constructor, in both files,
    completes without reporting anything; the pool it leaves has
    [max_threads_ = max(min_threads, max_threads)] and
    [min_threads_ = min_threads], and exactly [min_threads] workers have
    been started and registered when [min_threads >= 0], none at all when
    [min_threads <= 0]. *)
Theorem constructor_clamps_and_spawns_min
        (first_id : thread_id) (min_threads max_threads idle_timeout_sec : Z) :
  int_range min_threads ->
  exists w,
    (forall fuel, (Z.to_nat min_threads <= fuel)%nat ->
       ThreadPool (Task := Task) fuel first_id
                  min_threads max_threads idle_timeout_sec = Some w
       /\ ThreadPool_v4 (Task := Task) fuel first_id
                        min_threads max_threads idle_timeout_sec = Some w)
    /\ max_threads_ (the_pool w) = Z.max min_threads max_threads
    /\ min_threads_ (the_pool w) = min_threads
    /\ started w = seq first_id (Z.to_nat min_threads)
    /\ size (workers_ (the_pool w)) = Z.to_nat min_threads
    /\ (0 <= min_threads ->
        Z.of_nat (size (workers_ (the_pool w))) = min_threads)
    /\ (min_threads <= 0 ->
        workers_ (the_pool w) = ∅ /\ started w = []).
Proof.
  intros Hr.
  set (w0 := mkWorld (init_members (Task := Task)
                        min_threads max_threads idle_timeout_sec) first_id []).
  exists (spawn_n (Z.to_nat min_threads) w0).
  assert (Hf : ids_fresh w0) by (intros id _; apply lookup_empty).
  destruct (spawn_n_spec (Z.to_nat min_threads) w0 Hf)
    as (_ & Hsz & Hst & Hmin & Hmax).
  split; [|split; [|split; [|split; [|split; [|split]]]]].
  - intros fuel Hfuel. unfold ThreadPool, ThreadPool_v4. cbn [min_threads_ init_members].
    fold w0. rewrite spawn_loop_spec; rewrite ?Z.sub_0_r;
      try assumption; try lia.
    split; reflexivity.
  - rewrite Hmax. reflexivity.
  - rewrite Hmin. reflexivity.
  - rewrite Hst. reflexivity.
  - rewrite Hsz. cbn. now rewrite map_size_empty.
  - intros H0. rewrite Hsz. cbn. rewrite map_size_empty. lia.
  - intros H0. replace (Z.to_nat min_threads) with O by lia. cbn. auto.
Qed.

End WithTask.

Lemma constructor_clamps_and_spawns_min_witness :
  exists w,
    ThreadPool (Task := nat) 3 100%nat 3 1 2 = Some w
    /\ max_threads_ (the_pool w) = 3
    /\ started w = [100%nat; 101%nat; 102%nat]
    /\ size (workers_ (the_pool w)) = 3%nat.
Proof.
  assert (Hr : int_range 3) by (unfold int_range; lia).
  destruct (constructor_clamps_and_spawns_min (Task := nat) 100%nat 3 1 2 Hr)
    as (w & Hrun & Hmax & _ & Hst & Hsz & _).
  exists w. destruct (Hrun 3%nat ltac:(cbn; lia)) as [H _].
  repeat split; assumption.
Defined.

(** A negative [min_threads] and a smaller [max_threads]: accepted. *)
Example constructor_negative_min :
  ThreadPool (Task := nat) 0 100%nat (-2) (-5) 2
  = Some (mkWorld (mkPool (-2) (-2) 2 TaskQueue.empty_queue ∅ [] 0 false)
                  100%nat []).
Proof. reflexivity. Qed.

End ThreadPoolFacts.

(** * Further properties *)

(** ** Waits: when they end and how *)
Section CondVarMore.
Context {St : Type}.
Implicit Types (s : St) (wakes : list (@wakeup St)).

Lemma cv_wait_never pred wakes s :
  pred s = false ->
  List.Forall (fun x => pred (snd x) = false) wakes ->
  cv_wait pred wakes s = None.
Proof.
  revert s. induction wakes as [|[t s1] ws IH]; intros s Hs Hall; cbn;
    rewrite Hs; [reflexivity|].
  inversion Hall; subst. now apply IH.
Qed.

Lemma cv_wait_ends pred wakes s :
  pred s = true \/ List.Exists (fun x => pred (snd x) = true) wakes ->
  exists s', cv_wait pred wakes s = Some s'.
Proof.
  revert s. induction wakes as [|[t s1] ws IH]; intros s H; cbn.
  - destruct H as [H|H]; [rewrite H; eauto|inversion H].
  - destruct (pred s) eqn:E; [eauto|].
    destruct H as [H|H]; [congruence|].
    apply IH. inversion H; subst; cbn in *; auto.
Qed.

(** A timed wait gives up only on a wake-up at or after the deadline,
    and hands over the state found there, in which the predicate is
    false. *)
Lemma cv_wait_until_gives_up pred abs_time wakes s s' :
  cv_wait_until pred abs_time wakes s = Some (false, s') ->
  pred s' = false /\ exists t, In (t, s') wakes /\ abs_time <= t.
Proof.
  revert s. induction wakes as [|[t s1] ws IH]; intros s; cbn.
  - destruct (pred s); discriminate.
  - destruct (pred s) eqn:E; [discriminate|].
    destruct (Z.leb_spec abs_time t).
    + intros [= Hp <-]. split; [assumption|]. exists t. auto.
    + intros H'. apply IH in H' as (Hp & t' & Hin & Ht). eauto 6.
Qed.

(** While the predicate is false in every state seen, the timed wait
    gives up at the first wake-up that is not before the deadline, and
    goes on waiting when there is none. *)
Lemma cv_wait_until_all_false pred abs_time wakes s :
  pred s = false ->
  List.Forall (fun x => pred (snd x) = false) wakes ->
  (List.Exists (fun x => abs_time <= fst x) wakes ->
   exists s', cv_wait_until pred abs_time wakes s = Some (false, s'))
  /\ (List.Forall (fun x => fst x < abs_time) wakes ->
      cv_wait_until pred abs_time wakes s = None).
Proof.
  revert s. induction wakes as [|[t s1] ws IH]; intros s Hs Hall; cbn;
    rewrite Hs.
  - split; [intros H; inversion H|reflexivity].
  - inversion Hall as [|? ? H1 H2]; subst. cbn in H1.
    destruct (IH s1 H1 H2) as [IHa IHb].
    destruct (Z.leb_spec abs_time t).
    + split; [rewrite H1; eauto|].
      intros H'. inversion H'; subst. cbn in *. lia.
    + split.
      * intros H'. inversion H'; subst; cbn in *; [lia|auto].
      * intros H'. inversion H'; subst. auto.
Qed.
End CondVarMore.

(** ** Fair FIFO lock: arrivals, entries and hand-over *)
Module FairFifoBlockingFacts.
Import FairFifo FairFifoFacts FairFifoBlocking.

Lemma gate_open_true w (s : shared_mutex) :
  gate_open w s = true <-> go s !! w = Some true.
Proof.
  unfold gate_open. destruct (go s !! w) as [[|]|]; split; congruence.
Qed.

(** *** Prefixes of readers *)

Lemma read_prefix_run (rs : list Node) wn rest :
  List.Forall (fun n => mode n = Read) rs -> mode wn = Write ->
  read_prefix (rs ++ wn :: rest) = rs
  /\ after_read_prefix (rs ++ wn :: rest) = wn :: rest.
Proof.
  intros Hrs Hw. induction Hrs as [|n rs Hn _ IH]; cbn.
  - unfold is_read. rewrite Hw. auto.
  - assert (Hread : is_read n = true) by (unfold is_read; now rewrite Hn).
    rewrite Hread. destruct IH as [-> ->]. auto.
Qed.

Lemma read_prefix_stops (q l : list Node) :
  List.Exists (fun n => mode n = Write) q ->
  read_prefix (q ++ l) = read_prefix q
  /\ after_read_prefix (q ++ l) = after_read_prefix q ++ l.
Proof.
  induction q as [|n q IH]; intros Hex; [inversion Hex|].
  cbn. unfold is_read. destruct (mode n) eqn:Hn; [|auto].
  inversion Hex as [? ? Hw|? ? Hex']; subst; [congruence|].
  destruct (IH Hex') as [-> ->]. auto.
Qed.

Lemma waiters_of_read_prefix (q : list Node) w :
  w ∈ waiters_of (read_prefix q) -> w ∈ waiters_of q.
Proof.
  unfold waiters_of. induction q as [|n q IH]; cbn; [auto|].
  destruct (is_read n); cbn; [|intros H; inversion H].
  destruct (waiter n); cbn; [|exact IH].
  rewrite !elem_of_cons. intros [->|H]; auto.
Qed.

(** *** The scheduler *)

Lemma wake_next_blocked (s : shared_mutex) :
  has_writer_ s = true \/ reader_cnt_ s <> 0 \/ pending_readers_ s <> 0
  \/ q_ s = [] ->
  wake_next_ s = s.
Proof.
  unfold wake_next_. intros [H|[H|[H|H]]].
  - now rewrite H.
  - apply Z.eqb_neq in H. rewrite H. now rewrite orb_true_r.
  - apply Z.eqb_neq in H. rewrite H. cbn.
    now destruct (has_writer_ s || negb (reader_cnt_ s =? 0)).
  - rewrite H. destruct (has_writer_ s || negb (reader_cnt_ s =? 0));
      [reflexivity|]. now destruct (negb (pending_readers_ s =? 0)).
Qed.

Lemma wake_next_writer_head (s : shared_mutex) n rest :
  lock_free s -> q_ s = n :: rest -> mode n = Write ->
  wake_next_ s = wake_if (waiter n) s.
Proof.
  intros (Hw & Hr & Hp) Hq Hn. unfold wake_next_.
  now rewrite Hw, Hr, Hp, Hq, Hn.
Qed.

Local Ltac not_in_list :=
  let H := fresh in
  intros H;
  repeat (apply elem_of_cons in H as [H|H]; [discriminate H|]);
  inversion H.

Local Ltac settle :=
  unfold same_members; repeat split; intros; reflexivity.

(** Running the scheduler twice in a row admits nobody the first run did
    not admit: queue, counters and gates are those left by the first
    run (a head writer is merely signalled again). *)
Theorem scheduler_settles (s : shared_mutex) :
  Z.of_nat (length (q_ s)) < 2 ^ 64 ->
  same_members (wake_next_ (wake_next_ s)) (wake_next_ s)
  /\ go (wake_next_ (wake_next_ s)) = go (wake_next_ s)
  /\ (forall n rest, q_ s = n :: rest -> mode n = Read ->
      wake_next_ (wake_next_ s) = wake_next_ s).
Proof.
  intros Hlen.
  destruct (has_writer_ s) eqn:Hw.
  { rewrite !(wake_next_blocked s) by auto. settle. }
  destruct (Z.eq_dec (reader_cnt_ s) 0) as [Hr|Hr].
  2:{ rewrite !(wake_next_blocked s) by auto. settle. }
  destruct (Z.eq_dec (pending_readers_ s) 0) as [Hp|Hp].
  2:{ rewrite !(wake_next_blocked s) by auto. settle. }
  destruct (q_ s) as [|n rest] eqn:Hq.
  { rewrite !(wake_next_blocked s) by auto. settle. }
  assert (Hfree : lock_free s) by (unfold lock_free; auto).
  destruct (mode n) eqn:Hn.
  - (* a batch of readers: the pending count closes the scheduler *)
    destruct (wake_next_opens_read_batch s n rest Hfree Hq Hn
                ltac:(rewrite Hq; exact Hlen))
      as (_ & Hpend & _ & _ & _ & _ & _).
    assert (Hne : pending_readers_ (wake_next_ s) <> 0).
    { rewrite Hpend, Hq. cbn. unfold is_read. rewrite Hn. cbn. lia. }
    rewrite (wake_next_blocked (wake_next_ s)) by auto. settle.
  - rewrite (wake_next_writer_head s n rest Hfree Hq Hn).
    split; [|split]; [| |intros ? ? [= <- <-]; congruence].
    + destruct (waiter n) as [w|]; cbn [wake_if].
      * rewrite (wake_next_writer_head (wake w s) n rest);
          [|unfold lock_free; cbn; tauto|assumption|assumption].
        destruct (waiter n); settle.
      * rewrite (wake_next_writer_head s n rest Hfree Hq Hn).
        destruct (waiter n); settle.
    + destruct (waiter n) as [w|] eqn:Hwn; cbn [wake_if].
      * rewrite (wake_next_writer_head (wake w s) n rest);
          [|unfold lock_free; cbn; tauto|assumption|assumption].
        rewrite Hwn. cbn. apply insert_insert_eq.
      * rewrite (wake_next_writer_head s n rest Hfree Hq Hn), Hwn.
        reflexivity.
Qed.

Lemma scheduler_settles_witness :
  wake_next_ (wake_next_ rrrwr) = wake_next_ rrrwr.
Proof.
  eapply (scheduler_settles rrrwr).
  - cbn. lia.
  - reflexivity.
  - reflexivity.
Defined.

(** *** Uncontended acquisitions *)

(** On a free lock with nobody queued neither [lock] nor [lock_shared]
    waits: the arrival opens the caller's own gate.  The writer is then
    inside alone, the reader is inside with nothing pending, and the
    matching release leaves the lock free and the queue empty again. *)
Theorem uncontended_acquire_release
        (w : waiter_ptr) (wakes : list (@wakeup shared_mutex))
        (s : shared_mutex) :
  idle s ->
  (exists s1,
      lock w wakes s = Some (Entered s1)
      /\ has_writer_ s1 = true /\ reader_cnt_ s1 = 0
      /\ pending_readers_ s1 = 0 /\ q_ s1 = []
      /\ idle (unlock s1))
  /\ (exists s2,
         lock_shared w wakes s = Some s2
         /\ has_writer_ s2 = false /\ reader_cnt_ s2 = 1
         /\ pending_readers_ s2 = 0 /\ q_ s2 = []
         /\ idle (unlock_shared s2)).
Proof.
  intros [(Hw & Hr & Hp) Hq].
  destruct s as [q hw rc pr nt g nf]. cbn in Hw, Hr, Hp, Hq. subst.
  split.
  - unfold lock, arrive. cbn.
    rewrite cv_wait_immediate
      by (unfold gate_open; cbn; now rewrite lookup_insert_eq).
    unfold lock_enter. cbn. rewrite Z.eqb_refl. cbn.
    eexists. split; [reflexivity|]. cbn.
    repeat split.
  - unfold lock_shared, arrive. cbn.
    rewrite cv_wait_immediate
      by (unfold gate_open; cbn; now rewrite lookup_insert_eq).
    eexists. split; [reflexivity|].
    unfold lock_shared_enter, unlock_shared. cbn.
    repeat split.
Qed.

Lemma uncontended_acquire_release_witness :
  exists s1, lock 9%nat [] (mkSM [] false 0 0 0 ∅ []) = Some (Entered s1)
             /\ has_writer_ s1 = true.
Proof.
  destruct (uncontended_acquire_release 9%nat [] (mkSM [] false 0 0 0 ∅ []))
    as [(s1 & H1 & H2 & _) _].
  - repeat split.
  - exists s1. split; assumption.
Defined.

(** *** A reader of [src/1.cpp] is never admitted *)

Lemma scratch_arrive_gate_closed (w : waiter_ptr) (s : shared_mutex) :
  (forall n rest, q_ s = n :: rest -> waiter n <> Some w) ->
  gate_open w (scratch_arrive Read w s) = false.
Proof.
  intros Hhead. unfold scratch_arrive, Scratch.wake_next_.
  set (s0 := enqueue Read w (new_waiter w s)).
  assert (H0 : gate_open w s0 = false).
  { unfold gate_open, s0. cbn. now rewrite lookup_insert_eq. }
  destruct (has_writer_ s0 || negb (reader_cnt_ s0 =? 0)); [exact H0|].
  destruct (negb (pending_readers_ s0 =? 0)); [exact H0|].
  destruct (q_ s0) as [|n rest0] eqn:Hq0; [exact H0|].
  destruct (mode n) eqn:Hn; [exact H0|].
  assert (Hwn : waiter n <> Some w).
  { unfold s0 in Hq0. cbn in Hq0.
    destruct (q_ s) as [|m rest] eqn:Hq.
    - cbn in Hq0. injection Hq0 as <- _. cbn in Hn. discriminate.
    - cbn in Hq0. injection Hq0 as <- _. now apply (Hhead m rest). }
  destruct (waiter n) as [p|]; cbn [wake_if]; [|exact H0].
  unfold gate_open in *. cbn in *.
  rewrite lookup_insert_ne by congruence. exact H0.
Qed.

(** In [src/1.cpp] the scheduler opens no reader's gate, so [lock_shared]
    does not return on its own, not even on a free lock with nobody
    queued: it returns only if something else opens the gate of its
    waiter. *)
Theorem scratch_lock_shared_blocks
        (w : waiter_ptr) (wakes : list (@wakeup shared_mutex))
        (s : shared_mutex) :
  (forall n rest, q_ s = n :: rest -> waiter n <> Some w) ->
  List.Forall (fun x => gate_open w (snd x) = false) wakes ->
  gate_open w (scratch_arrive Read w s) = false
  /\ scratch_lock_shared w wakes s = None.
Proof.
  intros Hhead Hwakes.
  assert (H := scratch_arrive_gate_closed w s Hhead).
  split; [exact H|].
  unfold scratch_lock_shared. now rewrite cv_wait_never.
Qed.

Lemma scratch_lock_shared_blocks_witness :
  scratch_lock_shared 9%nat [] (mkSM [] false 0 0 0 ∅ []) = None.
Proof.
  apply (scratch_lock_shared_blocks 9%nat [] (mkSM [] false 0 0 0 ∅ [])).
  - intros n rest H. discriminate.
  - constructor.
Defined.

(** *** A batch of readers, then the writer behind it *)

Lemma members_of_end_waiter w (s : shared_mutex) :
  same_members (end_waiter w s) s /\ notified (end_waiter w s) = notified s.
Proof. unfold same_members. cbn. repeat split. Qed.

Lemma readers_enter_spec (ws : list waiter_ptr) (s : shared_mutex) :
  0 <= reader_cnt_ s ->
  reader_cnt_ s + Z.of_nat (length ws) < 2 ^ 64 ->
  Z.of_nat (length ws) <= pending_readers_ s < 2 ^ 64 ->
  let s' := readers_enter ws s in
  q_ s' = q_ s /\ has_writer_ s' = has_writer_ s
  /\ notified s' = notified s
  /\ reader_cnt_ s' = reader_cnt_ s + Z.of_nat (length ws)
  /\ pending_readers_ s' = pending_readers_ s - Z.of_nat (length ws)
  /\ (forall p, p ∉ ws -> go s' !! p = go s !! p).
Proof.
  revert s. induction ws as [|w ws IH]; intros s Hr Hsum Hp; cbn zeta.
  - cbn. repeat split; lia.
  - cbn [length] in Hsum, Hp. unfold readers_enter. cbn [fold_left].
    fold (readers_enter ws (lock_shared_enter w s)).
    assert (Hrc : reader_cnt_ (lock_shared_enter w s) = reader_cnt_ s + 1).
    { cbn. apply wrap64_small. lia. }
    assert (Hpc : pending_readers_ (lock_shared_enter w s)
                  = pending_readers_ s - 1).
    { cbn. apply wrap64_small. lia. }
    destruct (IH (lock_shared_enter w s)) as (H1 & H2 & H3 & H4 & H5 & H6);
      try lia.
    rewrite H1, H2, H3, H4, H5, Hrc, Hpc. cbn [length].
    repeat split; try lia.
    intros p Hnot. rewrite H6 by (intros ?; apply Hnot; now right).
    cbn. apply lookup_delete_ne. intros ->. apply Hnot. now left.
Qed.

Lemma readers_leave_last (k : nat) (s : shared_mutex) :
  reader_cnt_ s = Z.of_nat (S k) -> Z.of_nat (S k) < 2 ^ 64 ->
  readers_leave (S k) s = wake_next_ (set_reader_cnt 0 s).
Proof.
  revert s. induction k as [|k IH]; intros s Hc Hlt.
  - cbn [readers_leave]. unfold unlock_shared. rewrite Hc. reflexivity.
  - change (readers_leave (S (S k)) s)
      with (readers_leave (S k) (unlock_shared s)).
    assert (Hu : unlock_shared s = set_reader_cnt (Z.of_nat (S k)) s).
    { unfold unlock_shared. rewrite Hc.
      replace (Z.of_nat (S (S k)) - 1) with (Z.of_nat (S k)) by lia.
      rewrite wrap64_small by lia. cbn [reader_cnt_ set_reader_cnt].
      destruct (Z.eqb_spec (Z.of_nat (S k)) 0); [lia|reflexivity]. }
    rewrite Hu, IH; [reflexivity|reflexivity|lia].
Qed.

Lemma waiters_of_all (rs : list Node) :
  List.Forall (fun n => mode n = Read /\ waiter n <> None) rs ->
  length (waiters_of rs) = length rs
  /\ List.Forall (fun n => mode n = Read) rs.
Proof.
  unfold waiters_of. induction 1 as [|n rs [Hm Hw] _ [IH1 IH2]]; cbn; [auto|].
  destruct (waiter n); [|contradiction]. cbn. split; [lia|].
  constructor; assumption.
Qed.

(** On a free lock whose queue starts with readers [rs] followed by a
    writer: the scheduler admits exactly [rs] and leaves the writer (and
    whatever is behind it) queued with its gate untouched; once the
    readers have entered the counters read ([length rs], 0) and the
    scheduler stays shut; when the last of them has left the scheduler
    opens the writer's gate, and nobody else's. *)
Theorem batch_then_writer
        (s : shared_mutex) (rs : list Node) (wn : Node) (rest : list Node)
        (ww : waiter_ptr) :
  lock_free s ->
  q_ s = rs ++ wn :: rest ->
  rs <> [] ->
  List.Forall (fun n => mode n = Read /\ waiter n <> None) rs ->
  mode wn = Write -> waiter wn = Some ww ->
  ww ∉ waiters_of rs ->
  Z.of_nat (length (q_ s)) < 2 ^ 64 ->
  let s1 := wake_next_ s in
  let s2 := readers_enter (waiters_of rs) s1 in
  let s3 := readers_leave (length rs) s2 in
  (q_ s1 = wn :: rest
   /\ pending_readers_ s1 = Z.of_nat (length rs)
   /\ (forall w, w ∈ waiters_of rs -> go s1 !! w = Some true)
   /\ go s1 !! ww = go s !! ww)
  /\ (reader_cnt_ s2 = Z.of_nat (length rs)
      /\ pending_readers_ s2 = 0 /\ has_writer_ s2 = false
      /\ go s2 !! ww = go s !! ww
      /\ wake_next_ s2 = s2)
  /\ (s3 = wake ww (set_reader_cnt 0 s2)
      /\ q_ s3 = wn :: rest
      /\ notified s3 = notified s ++ waiters_of rs ++ [ww]).
Proof.
  intros Hfree Hq Hne Hrs Hwn Hww Hnot Hlen s1 s2 s3.
  destruct (waiters_of_all rs Hrs) as [Hcount Hreads].
  destruct (read_prefix_run rs wn rest Hreads Hwn) as [Hpre Hpost].
  assert (Hhead : exists r0 tl, q_ s = r0 :: tl /\ mode r0 = Read).
  { rewrite Hq. destruct Hreads as [|r0 rs0 Hr0 _]; [contradiction|].
    exists r0, (rs0 ++ wn :: rest). auto. }
  destruct Hhead as (r0 & tl & Hq0 & Hr0).
  assert (Hpos : (0 < length rs)%nat) by (destruct rs; [contradiction|cbn; lia]).
  destruct (wake_next_opens_read_batch s r0 tl Hfree Hq0 Hr0 Hlen)
    as (H1q & H1p & H1n & H1in & H1out & H1w & H1r).
  fold s1 in H1q, H1p, H1n, H1in, H1out, H1w, H1r.
  rewrite Hq, Hpre in H1p, H1n, H1in, H1out. rewrite Hq, Hpost in H1q.
  assert (Hlen' : Z.of_nat (length rs) < 2 ^ 64).
  { rewrite Hq, length_app in Hlen. lia. }
  destruct (readers_enter_spec (waiters_of rs) s1)
    as (H2q & H2w & H2n & H2r & H2p & H2g);
    rewrite ?Hcount, ?H1r, ?H1p; try lia.
  fold s2 in H2q, H2w, H2n, H2r, H2p, H2g.
  rewrite Hcount, H1r in H2r. rewrite Hcount, H1p in H2p.
  assert (Hs3 : s3 = wake ww (set_reader_cnt 0 s2)).
  { unfold s3. destruct (length rs) as [|k] eqn:Ek; [lia|].
    rewrite readers_leave_last by (rewrite ?H2r; lia).
    rewrite (wake_next_writer_head (set_reader_cnt 0 s2) wn rest).
    - now rewrite Hww.
    - unfold lock_free. cbn. rewrite H2w, H1w. split; [reflexivity|].
      split; [reflexivity|lia].
    - cbn. now rewrite H2q, H1q.
    - exact Hwn. }
  split; [|split].
  - repeat split; try assumption. now apply H1out.
  - repeat split.
    + lia.
    + lia.
    + now rewrite H2w.
    + rewrite H2g by assumption. now apply H1out.
    + apply wake_next_blocked. right. left. lia.
  - split; [exact Hs3|]. rewrite Hs3. cbn. rewrite H2q, H1q, H2n, H1n.
    split; [reflexivity|]. now rewrite <- app_assoc.
Qed.

Lemma batch_then_writer_witness :
  q_ (wake_next_ rrrwr)
    = [mkNode Write 3 (Some 4%nat); mkNode Read 4 (Some 5%nat)]
  /\ pending_readers_ (wake_next_ rrrwr) = 3.
Proof.
  destruct (batch_then_writer rrrwr
              [mkNode Read 0 (Some 1%nat); mkNode Read 1 (Some 2%nat);
               mkNode Read 2 (Some 3%nat)]
              (mkNode Write 3 (Some 4%nat)) [mkNode Read 4 (Some 5%nat)]
              4%nat) as [(H1 & H2 & _) _].
  - repeat split.
  - reflexivity.
  - discriminate.
  - repeat constructor; discriminate.
  - reflexivity.
  - reflexivity.
  - cbn. not_in_list.
  - cbn. lia.
  - split; assumption.
Defined.

(** *** No overtaking *)

Lemma waiter_in_queue (q : list Node) n w :
  n ∈ q -> waiter n = Some w -> w ∈ waiters_of q.
Proof.
  intros Hin Hw. unfold waiters_of. apply list_elem_of_omap. eauto.
Qed.

(** A reader that arrives while a writer is queued is put behind it and
    is not admitted by its own arrival: its gate stays closed, so
    [lock_shared] waits until somebody else opens it. *)
Theorem reader_waits_behind_writer
        (w : waiter_ptr) (wakes : list (@wakeup shared_mutex))
        (s : shared_mutex) :
  List.Exists (fun n => mode n = Write) (q_ s) ->
  w ∉ waiters_of (q_ s) ->
  Z.of_nat (length (q_ s)) + 1 < 2 ^ 64 ->
  List.Forall (fun x => gate_open w (snd x) = false) wakes ->
  gate_open w (arrive Read w s) = false
  /\ (exists front,
         q_ (arrive Read w s)
         = front ++ [mkNode Read (next_ticket_ s) (Some w)])
  /\ lock_shared w wakes s = None.
Proof.
  intros Hex Hfresh Hlen Hwakes.
  assert (Hgoal : gate_open w (arrive Read w s) = false
                  /\ exists front,
                      q_ (arrive Read w s)
                      = front ++ [mkNode Read (next_ticket_ s) (Some w)]).
  { unfold arrive. set (s0 := enqueue Read w (new_waiter w s)).
    assert (H0 : gate_open w s0 = false).
    { unfold gate_open, s0. cbn. now rewrite lookup_insert_eq. }
    assert (Hq0 : q_ s0 = q_ s ++ [mkNode Read (next_ticket_ s) (Some w)])
      by reflexivity.
    destruct (has_writer_ s0) eqn:Hw.
    { rewrite wake_next_blocked by auto. eauto. }
    destruct (Z.eq_dec (reader_cnt_ s0) 0) as [Hr|Hr].
    2:{ rewrite wake_next_blocked by auto. eauto. }
    destruct (Z.eq_dec (pending_readers_ s0) 0) as [Hp|Hp].
    2:{ rewrite wake_next_blocked by auto. eauto. }
    assert (Hfree : lock_free s0) by (unfold lock_free; auto).
    destruct (q_ s) as [|n rest] eqn:Hq; [inversion Hex|].
    assert (Hq0' : q_ s0 = n :: (rest ++ [mkNode Read (next_ticket_ s) (Some w)]))
      by (rewrite Hq0; reflexivity).
    destruct (mode n) eqn:Hn.
    - destruct (wake_next_opens_read_batch s0 n _ Hfree Hq0' Hn)
        as (H1q & _ & _ & _ & H1out & _).
      { rewrite Hq0, length_app. cbn [length]. cbn [length] in Hlen. lia. }
      destruct (read_prefix_stops (n :: rest)
                  [mkNode Read (next_ticket_ s) (Some w)] Hex) as [Hpre Hpost].
      rewrite Hq0 in H1q, H1out. rewrite Hpre in H1out. rewrite Hpost in H1q.
      split; [|eauto].
      unfold gate_open in *. rewrite H1out; [exact H0|].
      intros Hin. apply Hfresh. now apply waiters_of_read_prefix.
    - rewrite (wake_next_writer_head s0 n _ Hfree Hq0' Hn).
      assert (Hwn : waiter n <> Some w).
      { intros E. apply Hfresh. apply (waiter_in_queue _ n); [|exact E].
        now left. }
      destruct (waiter n) as [p|]; cbn [wake_if]; [|eauto].
      split; [|cbn; rewrite Hq; eauto].
      unfold gate_open in *. cbn in *.
      rewrite lookup_insert_ne by congruence. exact H0. }
  destruct Hgoal as [Hg Hfront]. split; [exact Hg|]. split; [exact Hfront|].
  unfold lock_shared. now rewrite cv_wait_never.
Qed.

Lemma reader_waits_behind_writer_witness :
  lock_shared 9%nat [] rrrwr = None.
Proof.
  apply (reader_waits_behind_writer 9%nat [] rrrwr).
  - right. right. right. left. reflexivity.
  - cbn. not_in_list.
  - cbn. lia.
  - constructor.
Defined.

End FairFifoBlockingFacts.

(** ** [src/1.cpp]: the writer flag is never cleared *)
Module ScratchLockFacts.
Import FairFifo FairFifoFacts FairFifoBlocking ScratchLock.

Lemma scratch_wake_next_blocked (s : shared_mutex) :
  has_writer_ s = true -> Scratch.wake_next_ s = s.
Proof. intros H. unfold Scratch.wake_next_. now rewrite H. Qed.

Lemma lock_from_returns my_ticket w wakes s s' :
  lock_from my_ticket w wakes s = Some s' -> has_writer_ s' = true.
Proof.
  revert s. induction wakes as [|[t s1] ws IH]; intros s; cbn [lock_from];
    destruct (gate_open w s && may_enter my_ticket s).
  - now intros [= <-].
  - discriminate.
  - now intros [= <-].
  - apply IH.
Qed.

Lemma lock_from_held my_ticket w wakes s :
  has_writer_ s = true ->
  List.Forall (fun x => has_writer_ (snd x) = true) wakes ->
  lock_from my_ticket w wakes s = None.
Proof.
  revert s. induction wakes as [|[t s1] ws IH]; intros s Hs Hall;
    cbn [lock_from]; unfold may_enter, can_run_writer_unsafe_; rewrite Hs;
    cbn; rewrite andb_false_r; [reflexivity|].
  inversion Hall; subst. now apply IH.
Qed.

(** In [src/1.cpp] nothing ever clears [has_writer_]: [lock] sets it,
    [unlock] sets it again, and no other function writes it.  Once it is
    set it stays set through every operation, and while it is set
    [try_lock] and [try_lock_shared] fail and [lock] does not return,
    whichever gates are opened.  So after the first writer has entered, no
    writer enters this lock again. *)
Theorem scratch_writer_flag_is_never_cleared
        (m : Mode) (w : waiter_ptr) (wakes : list (@wakeup shared_mutex))
        (s : shared_mutex) :
  (forall s0 s', lock w wakes s0 = Some s' -> has_writer_ s' = true)
  /\ (has_writer_ s = true ->
      has_writer_ (Scratch.unlock s) = true
      /\ has_writer_ (Scratch.unlock_shared s) = true
      /\ has_writer_ (scratch_arrive m w s) = true
      /\ has_writer_ (scratch_lock_shared_enter w s) = true
      /\ try_lock s = (false, s)
      /\ try_lock_shared s = (false, s)
      /\ (List.Forall (fun x => has_writer_ (snd x) = true) wakes ->
          lock w wakes s = None)).
Proof.
  split.
  - intros s0 s'. unfold lock. apply lock_from_returns.
  - intros Hs.
    assert (Harr : forall m', has_writer_ (scratch_arrive m' w s) = true).
    { intros m'. unfold scratch_arrive.
      rewrite scratch_wake_next_blocked by exact Hs. exact Hs. }
    split; [|split; [|split; [|split; [|split; [|split]]]]].
    + unfold Scratch.unlock. now rewrite scratch_wake_next_blocked.
    + unfold Scratch.unlock_shared. cbn zeta.
      destruct (_ =? 0); [|exact Hs].
      now rewrite scratch_wake_next_blocked.
    + apply Harr.
    + unfold scratch_lock_shared_enter. cbn zeta.
      destruct (0 <? _); exact Hs.
    + unfold try_lock. now rewrite Hs.
    + unfold try_lock_shared. now rewrite Hs.
    + intros Hall. unfold lock. apply lock_from_held; [apply Harr|exact Hall].
Qed.

End ScratchLockFacts.

(** ** Fair FIFO lock: mutual exclusion *)
Module FairFifoProtocolFacts.
Import FairFifo FairFifoFacts FairFifoBlocking FairFifoBlockingFacts.
Import FairFifoProtocol.

Lemma waiters_of_cons n rest w :
  waiter n = Some w -> waiters_of (n :: rest) = w :: waiters_of rest.
Proof. intros H. unfold waiters_of. cbn. now rewrite H. Qed.

Lemma waiters_of_app a b : waiters_of (a ++ b) = waiters_of a ++ waiters_of b.
Proof. unfold waiters_of. apply omap_app. Qed.

Lemma waiters_of_length ns :
  List.Forall (fun n => waiter n <> None) ns ->
  length (waiters_of ns) = length ns.
Proof.
  induction 1 as [|n ns Hn _ IH]; [reflexivity|].
  destruct (waiter n) as [w|] eqn:E; [|contradiction].
  rewrite (waiters_of_cons n ns w E). cbn. now rewrite IH.
Qed.

Lemma node_eta n w :
  mode n = Write -> waiter n = Some w -> n = mkNode Write (ticket n) (Some w).
Proof. destruct n as [m t o]. cbn. now intros -> ->. Qed.

Lemma lock_free_dec_false s :
  lock_free s -> has_writer_ s = false /\ (reader_cnt_ s =? 0) = true
                 /\ (pending_readers_ s =? 0) = true.
Proof.
  intros (H1 & H2 & H3). rewrite H1, H2, H3. auto.
Qed.

Lemma adm_nil s adm :
  (forall w, w ∈ adm <-> go s !! w = Some true /\ w ∉ queued s) ->
  pending_readers_ s = Z.of_nat (length adm) ->
  pending_readers_ s = 0 ->
  forall w, go s !! w = Some true -> w ∈ queued s.
Proof.
  intros Hadm Hlen H0 w Hgo.
  destruct (decide (w ∈ queued s)) as [|Hout]; [assumption|].
  assert (Hin : w ∈ adm) by (apply Hadm; auto).
  destruct adm; [inversion Hin|]. cbn in Hlen. lia.
Qed.

(** *** The scheduler keeps the invariant *)

Lemma wake_head_writer_Inv s n rest w :
  Inv s -> lock_free s -> q_ s = n :: rest ->
  mode n = Write -> waiter n = Some w ->
  Inv (wake w s).
Proof.
  intros [Hex Hc Hp Hl Hn Hnd Hg Hh (adm & Had1 & Had2 & Had3)] Hfree Hq Hm Hw.
  assert (Hwq : w ∈ queued s).
  { unfold queued. rewrite Hq, (waiters_of_cons n rest w Hw). now left. }
  constructor; cbn; try assumption.
  - intros w' Hin. destruct (decide (w' = w)) as [->|Hne].
    + now rewrite lookup_insert_eq.
    + rewrite lookup_insert_ne by congruence. now apply Hg.
  - intros w' Hin Hgo. split; [assumption|].
    destruct (decide (w' = w)) as [->|Hne].
    + exists (ticket n), rest. rewrite Hq. f_equal. now apply node_eta.
    + rewrite lookup_insert_ne in Hgo by congruence.
      now destruct (Hh w' Hin Hgo).
  - exists adm. split; [assumption|]. split; [|assumption].
    intros w'. rewrite Had2. split; intros [Hgo Hout]; split; try assumption.
    + rewrite lookup_insert_ne; [assumption|]. intros ->. contradiction.
    + rewrite lookup_insert_ne in Hgo; [assumption|].
      intros ->. contradiction.
Qed.

Lemma open_batch_Inv s n rest :
  Inv s -> lock_free s -> q_ s = n :: rest -> mode n = Read ->
  Inv (open_read_batch_and_wake_unsafe_ s).
Proof.
  intros [Hex Hc Hp Hl Hn Hnd Hg Hh (adm & Had1 & Had2 & Had3)] Hfree Hq Hm.
  destruct Hfree as (Hfw & Hfr & Hfp).
  unfold open_read_batch_and_wake_unsafe_.
  rewrite pop_reads_spec by lia. cbn [app Z.add].
  set (rs := read_prefix (q_ s)). set (q' := after_read_prefix (q_ s)).
  set (s1 := set_pending_readers _ _).
  assert (Hsplit : q_ s = rs ++ q') by (symmetry; apply read_prefix_split).
  assert (Hqd : queued s = waiters_of rs ++ waiters_of q').
  { unfold queued. now rewrite Hsplit at 1; rewrite waiters_of_app. }
  rewrite Hqd in Hnd. apply NoDup_app in Hnd as (Hnd1 & Hdisj & Hnd2).
  rewrite Hsplit in Hn. apply List.Forall_app in Hn as [Hn1 Hn2].
  destruct (wake_all_fields (waiters_of rs) s1)
    as (H1 & H2 & H3 & H4 & H5 & H6).
  assert (Hnone : forall w, go s !! w = Some true -> w ∈ queued s).
  { apply (adm_nil s adm); assumption. }
  pose proof (f_equal (@length Node) (read_prefix_split (q_ s))) as Hlens.
  rewrite length_app in Hlens. fold rs in Hlens. fold q' in Hlens.
  constructor; rewrite ?H1, ?H2, ?H3, ?H4; cbn;
    fold rs; fold q'.
  - rewrite Hfw. discriminate.
  - assumption.
  - lia.
  - lia.
  - assumption.
  - unfold queued. rewrite H1. cbn. assumption.
  - unfold queued. rewrite H1. cbn. fold q'. intros w Hin.
    rewrite wake_all_go_out by (intros Hw; apply (Hdisj w Hw Hin)).
    cbn. apply Hg. rewrite Hqd. apply elem_of_app. now right.
  - unfold queued. rewrite H1. cbn. fold q'. intros w Hin Hgo. exfalso.
    rewrite wake_all_go_out in Hgo by (intros Hw; apply (Hdisj w Hw Hin)).
    cbn in Hgo.
    assert (Hwq : w ∈ queued s) by (rewrite Hqd; apply elem_of_app; now right).
    destruct (Hh w Hwq Hgo) as (_ & t & rest' & Hq').
    rewrite Hq in Hq'. injection Hq' as -> _. discriminate.
  - exists (waiters_of rs). split; [assumption|]. split.
    + unfold queued. rewrite H1. cbn. fold q'. intros w. split.
      * intros Hin. split; [now apply wake_all_go_in|].
        intros Hin'. apply (Hdisj w Hin Hin').
      * intros [Hgo Hout].
        destruct (decide (w ∈ waiters_of rs)) as [|Hnot]; [assumption|].
        exfalso. rewrite wake_all_go_out in Hgo by assumption. cbn in Hgo.
        apply Hnone in Hgo. rewrite Hqd in Hgo.
        apply elem_of_app in Hgo as [?|?]; contradiction.
    + now rewrite waiters_of_length.
Qed.

Lemma wake_next_Inv s : Inv s -> Inv (wake_next_ s).
Proof.
  intros HI. unfold wake_next_.
  destruct (has_writer_ s) eqn:Hw; [exact HI|].
  destruct (Z.eqb_spec (reader_cnt_ s) 0) as [Hr|Hr]; [|exact HI].
  destruct (Z.eqb_spec (pending_readers_ s) 0) as [Hp|Hp]; [|exact HI].
  cbn [negb orb].
  destruct (q_ s) as [|n rest] eqn:Hq; [exact HI|].
  assert (Hfree : lock_free s) by (unfold lock_free; auto).
  destruct (mode n) eqn:Hm.
  - now apply (open_batch_Inv s n rest).
  - destruct (waiter n) as [w|] eqn:Hwn.
    + now apply (wake_head_writer_Inv s n rest w).
    + exact HI.
Qed.

(** *** Each transition keeps the invariant *)

Lemma no_open_gate_queued s :
  Inv s -> ~ lock_free s ->
  forall w, w ∈ queued s -> go s !! w = Some true -> False.
Proof.
  intros HI Hnot w Hin Hgo. now destruct (inv_head s HI w Hin Hgo).
Qed.

Lemma release_writer_Inv s :
  Inv s -> has_writer_ s = true -> Inv (set_has_writer false s).
Proof.
  intros HI Hw.
  assert (Hnot : ~ lock_free s) by (intros (H & _); congruence).
  destruct HI as [Hex Hc Hp Hl Hn Hnd Hg Hh Hadm].
  constructor; cbn; try assumption.
  - discriminate.
  - intros w Hin Hgo. destruct (Hh w Hin Hgo) as [Hf _]. contradiction.
Qed.

Lemma release_reader_Inv s :
  Inv s -> 0 < reader_cnt_ s ->
  Inv (set_reader_cnt (wrap64 (reader_cnt_ s - 1)) s).
Proof.
  intros HI Hpos.
  assert (Hnot : ~ lock_free s) by (intros (_ & H & _); lia).
  destruct HI as [Hex Hc Hp Hl Hn Hnd Hg Hh Hadm].
  rewrite wrap64_small by lia.
  constructor; cbn; try assumption.
  - intros Hw. destruct (Hex Hw). lia.
  - lia.
  - intros w Hin Hgo. destruct (Hh w Hin Hgo) as [Hf _]. contradiction.
Qed.

Lemma fair_try_lock_Inv s : Inv s -> Inv (snd (try_lock s)).
Proof.
  intros HI. unfold try_lock.
  destruct (has_writer_ s) eqn:Hw; [exact HI|].
  destruct (Z.eqb_spec (reader_cnt_ s) 0) as [Hr|Hr]; [|exact HI].
  destruct (Z.eqb_spec (pending_readers_ s) 0) as [Hp|Hp]; [|exact HI].
  cbn [negb orb].
  destruct (q_ s) as [|n rest] eqn:Hq; [|exact HI].
  cbn [snd].
  destruct HI as [Hex Hc Hpd Hl Hn Hnd Hg Hh Hadm].
  constructor; cbn; try assumption; unfold queued in *; cbn; rewrite ?Hq in *;
    try assumption.
  - auto.
  - intros w Hin. inversion Hin.
Qed.

Lemma fair_try_lock_shared_Inv s :
  Inv s -> reader_cnt_ s < 2 ^ 64 - 1 -> Inv (snd (try_lock_shared s)).
Proof.
  intros HI Hroom. unfold try_lock_shared.
  destruct (has_writer_ s) eqn:Hw; [exact HI|].
  destruct (Z.eqb_spec (pending_readers_ s) 0) as [Hp|Hp]; [|exact HI].
  cbn [negb].
  destruct (q_ s) as [|n rest] eqn:Hq; [|exact HI].
  cbn [snd].
  destruct HI as [Hex Hc Hpd Hl Hn Hnd Hg Hh Hadm].
  rewrite wrap64_small by lia.
  constructor; cbn; try assumption; unfold queued in *; cbn; rewrite ?Hq in *;
    try assumption.
  - rewrite Hw. discriminate.
  - lia.
  - intros w Hin. inversion Hin.
Qed.

Lemma enqueue_Inv m w s :
  Inv s -> go s !! w = None -> Z.of_nat (length (q_ s)) + 1 < 2 ^ 64 ->
  Inv (enqueue m w (new_waiter w s)).
Proof.
  intros [Hex Hc Hp Hl Hn Hnd Hg Hh (adm & Had1 & Had2 & Had3)] Hfresh Hlen.
  assert (Hwq : w ∉ queued s).
  { intros Hin. now apply (Hg w Hin). }
  assert (Hqd : queued (enqueue m w (new_waiter w s)) = queued s ++ [w]).
  { unfold queued, enqueue. cbn. now rewrite waiters_of_app. }
  constructor; rewrite ?Hqd; cbn; try assumption.
  - rewrite length_app. cbn. lia.
  - apply List.Forall_app. split; [assumption|].
    constructor; [discriminate|constructor].
  - apply NoDup_app. split; [assumption|]. split.
    + intros x Hx Hx'. apply list_elem_of_singleton in Hx'. now subst.
    + apply NoDup_singleton.
  - intros w' Hin. destruct (decide (w' = w)) as [->|Hne].
    + now rewrite lookup_insert_eq.
    + rewrite lookup_insert_ne by congruence. apply Hg.
      apply elem_of_app in Hin as [?|Hin]; [assumption|].
      apply list_elem_of_singleton in Hin. contradiction.
  - intros w' Hin Hgo. destruct (decide (w' = w)) as [->|Hne].
    + rewrite lookup_insert_eq in Hgo. discriminate.
    + rewrite lookup_insert_ne in Hgo by congruence.
      apply elem_of_app in Hin as [Hin|Hin];
        [|apply list_elem_of_singleton in Hin; contradiction].
      destruct (Hh w' Hin Hgo) as (Hf & t & rest & Hq).
      split; [exact Hf|]. exists t, (rest ++ [mkNode m (next_ticket_ s) (Some w)]).
      now rewrite Hq.
  - exists adm. split; [assumption|]. split; [|assumption].
    intros w'. rewrite Had2. split.
    + intros [Hgo Hout]. assert (w' <> w) by congruence.
      rewrite lookup_insert_ne by congruence. split; [assumption|].
      intros Hin. apply elem_of_app in Hin as [?|Hin]; [contradiction|].
      apply list_elem_of_singleton in Hin. contradiction.
    + intros [Hgo Hout]. destruct (decide (w' = w)) as [->|Hne].
      * rewrite lookup_insert_eq in Hgo. discriminate.
      * rewrite lookup_insert_ne in Hgo by congruence. split; [assumption|].
        intros Hin. apply Hout. apply elem_of_app. now left.
Qed.

(** The writer whose gate is open is at the head of a free lock: the two
    [assert]s of [lock] hold, and it enters alone. *)
Lemma writer_enters s my_ticket w :
  Inv s -> gate_open w s = true ->
  mkNode Write my_ticket (Some w) ∈ q_ s ->
  exists rest,
    q_ s = mkNode Write my_ticket (Some w) :: rest
    /\ lock_free s
    /\ lock_enter my_ticket w s
       = Entered (end_waiter w (set_has_writer true (set_q rest s)))
    /\ Inv (end_waiter w (set_has_writer true (set_q rest s))).
Proof.
  intros HI Hopen Hin.
  apply gate_open_true in Hopen.
  assert (Hwq : w ∈ queued s).
  { unfold queued, waiters_of. apply list_elem_of_omap.
    exists (mkNode Write my_ticket (Some w)). auto. }
  destruct (inv_head s HI w Hwq Hopen) as (Hfree & t & rest & Hq).
  pose proof (inv_nodup s HI) as Hnd. unfold queued in Hnd.
  rewrite Hq in Hnd.
  rewrite (waiters_of_cons (mkNode Write t (Some w)) rest w eq_refl) in Hnd.
  apply NoDup_cons in Hnd as [Hwrest Hndrest].
  assert (Ht : t = my_ticket).
  { rewrite Hq in Hin. apply elem_of_cons in Hin as [Heq|Hin].
    - now injection Heq.
    - exfalso. apply Hwrest. unfold waiters_of. apply list_elem_of_omap.
      exists (mkNode Write my_ticket (Some w)). auto. }
  subst t. exists rest. split; [assumption|]. split; [assumption|].
  split.
  { unfold lock_enter. rewrite Hq. cbn. now rewrite Z.eqb_refl. }
  destruct HI as [Hex Hc Hp Hl Hn Hnd Hg Hh (adm & Had1 & Had2 & Had3)].
  destruct Hfree as (Hfw & Hfr & Hfp).
  assert (Hnone : forall w', go s !! w' = Some true -> w' ∈ queued s).
  { apply (adm_nil s adm); assumption. }
  assert (Hqs : queued s = w :: waiters_of rest).
  { unfold queued. rewrite Hq. apply waiters_of_cons. reflexivity. }
  constructor; unfold queued; cbn.
  - auto.
  - assumption.
  - assumption.
  - rewrite Hq in Hl. cbn [length] in Hl. lia.
  - rewrite Hq in Hn. now inversion Hn.
  - assumption.
  - intros w' Hin'. assert (w' <> w) by (intros ->; contradiction).
    rewrite lookup_delete_ne by congruence. apply Hg. rewrite Hqs. now right.
  - intros w' Hin' Hgo. exfalso.
    assert (w' <> w) by (intros ->; contradiction).
    rewrite lookup_delete_ne in Hgo by congruence.
    assert (Hin'' : w' ∈ queued s) by (rewrite Hqs; now right).
    destruct (Hh w' Hin'' Hgo) as (_ & t' & rest' & Hq').
    rewrite Hq in Hq'. injection Hq' as _ Hww _. congruence.
  - exists []. split; [constructor|]. split; [|now rewrite Hfp].
    intros w'. split; [intros Hx; inversion Hx|].
    intros [Hgo Hout]. exfalso.
    destruct (decide (w' = w)) as [->|Hne].
    + rewrite lookup_delete_eq in Hgo. discriminate.
    + rewrite lookup_delete_ne in Hgo by congruence.
      apply Hnone in Hgo. rewrite Hqs in Hgo.
      apply elem_of_cons in Hgo as [?|?]; contradiction.
Qed.

(** The reader whose gate is open has been admitted: no writer is
    inside, and it is counted in [pending_readers_]. *)
Lemma reader_admitted s w :
  Inv s -> gate_open w s = true -> reader_gate w s ->
  has_writer_ s = false /\ 0 < pending_readers_ s /\ w ∉ queued s.
Proof.
  intros HI Hopen Hrg. apply gate_open_true in Hopen.
  assert (Hout : w ∉ queued s).
  { intros Hin. destruct (inv_head s HI w Hin Hopen) as (_ & t & rest & Hq).
    specialize (Hrg (mkNode Write t (Some w))).
    rewrite Hq in Hrg. specialize (Hrg ltac:(now left) eq_refl).
    discriminate. }
  destruct (inv_adm s HI) as (adm & Had1 & Had2 & Had3).
  assert (Hin : w ∈ adm) by (apply Had2; auto).
  assert (Hpos : 0 < pending_readers_ s).
  { destruct adm; [inversion Hin|]. rewrite Had3. cbn. lia. }
  split; [|auto].
  destruct (has_writer_ s) eqn:Hw; [|reflexivity].
  destruct (inv_excl s HI Hw). lia.
Qed.

Lemma reader_enters_Inv s w :
  Inv s -> gate_open w s = true -> reader_gate w s ->
  reader_cnt_ s < 2 ^ 64 - 1 ->
  Inv (lock_shared_enter w s).
Proof.
  intros HI Hopen Hrg Hroom.
  destruct (reader_admitted s w HI Hopen Hrg) as (Hw & Hpos & Hout).
  apply gate_open_true in Hopen.
  assert (Hnot : ~ lock_free s) by (intros (_ & _ & H); lia).
  destruct HI as [Hex Hc Hp Hl Hn Hnd Hg Hh (adm & Had1 & Had2 & Had3)].
  assert (Hin : w ∈ adm) by (apply Had2; auto).
  apply elem_of_Permutation in Hin as (adm' & Hperm).
  assert (Hnd' : NoDup (w :: adm')) by now rewrite <- Hperm.
  apply NoDup_cons in Hnd' as [Hwadm' Hndadm'].
  unfold lock_shared_enter.
  cbn [reader_cnt_ pending_readers_ set_reader_cnt set_pending_readers].
  rewrite !wrap64_small by lia.
  constructor; unfold queued; cbn; try assumption.
  - rewrite Hw. discriminate.
  - lia.
  - lia.
  - intros w' Hin'. assert (w' <> w) by (intros ->; contradiction).
    rewrite lookup_delete_ne by congruence. now apply Hg.
  - intros w' Hin' Hgo. exfalso.
    assert (w' <> w) by (intros ->; contradiction).
    rewrite lookup_delete_ne in Hgo by congruence.
    destruct (Hh w' Hin' Hgo) as [Hf _]. contradiction.
  - exists adm'. split; [assumption|]. split.
    + intros w'. split.
      * intros Hin'. assert (w' <> w) by (intros ->; contradiction).
        rewrite lookup_delete_ne by congruence. apply Had2.
        rewrite Hperm. now right.
      * intros [Hgo Hout']. destruct (decide (w' = w)) as [->|Hne].
        -- rewrite lookup_delete_eq in Hgo. discriminate.
        -- rewrite lookup_delete_ne in Hgo by congruence.
           assert (Hx : w' ∈ adm) by (apply Had2; auto).
           rewrite Hperm in Hx. apply elem_of_cons in Hx as [?|?];
             [contradiction|assumption].
    + rewrite Had3. apply Permutation_length in Hperm. rewrite Hperm.
      cbn [length]. lia.
Qed.

Lemma new_lock_Inv : Inv new_lock.
Proof.
  constructor; unfold queued; cbn.
  - discriminate.
  - lia.
  - lia.
  - lia.
  - constructor.
  - constructor.
  - intros w Hin. inversion Hin.
  - intros w Hin. inversion Hin.
  - exists []. split; [constructor|]. split; [|reflexivity].
    intros w. split; [intros H; inversion H|].
    intros [H _]. rewrite lookup_empty in H. discriminate.
Qed.

Lemma step_Inv s s' : Inv s -> step s s' -> Inv s'.
Proof.
  intros HI Hstep. destruct Hstep.
  - now apply fair_try_lock_Inv.
  - now apply fair_try_lock_shared_Inv.
  - unfold arrive. apply wake_next_Inv. now apply enqueue_Inv.
  - destruct (writer_enters s my_ticket w HI H H0) as (rest & _ & _ & He & HI').
    rewrite He in H1. injection H1 as <-. exact HI'.
  - now apply reader_enters_Inv.
  - unfold unlock. apply wake_next_Inv. now apply release_writer_Inv.
  - unfold unlock_shared. cbn zeta.
    pose proof (release_reader_Inv s HI H) as HI'.
    destruct (_ =? 0); [now apply wake_next_Inv|exact HI'].
Qed.

Lemma reachable_Inv s : reachable s -> Inv s.
Proof.
  induction 1 as [|s s' _ IH Hstep]; [apply new_lock_Inv|].
  now apply (step_Inv s).
Qed.

(** In every state the threads can bring the lock to, starting from a
    new one: while a writer is inside no reader is inside and none is
    being admitted.  A writer whose gate is open finds the lock free and
    its own node at the head, so the two [assert]s of [lock] pass and it
    enters; a reader whose gate is open finds no writer inside.  The
    queue never holds two nodes of one waiter. *)
Theorem fair_lock_excludes (s : shared_mutex) :
  reachable s ->
  (has_writer_ s = true -> reader_cnt_ s = 0 /\ pending_readers_ s = 0)
  /\ (forall my_ticket w,
        gate_open w s = true ->
        mkNode Write my_ticket (Some w) ∈ q_ s ->
        lock_free s
        /\ exists s', lock_enter my_ticket w s = Entered s'
                      /\ has_writer_ s' = true /\ reader_cnt_ s' = 0
                      /\ pending_readers_ s' = 0)
  /\ (forall w,
        gate_open w s = true -> reader_gate w s ->
        has_writer_ s = false
        /\ has_writer_ (lock_shared_enter w s) = false)
  /\ NoDup (queued s).
Proof.
  intros Hr. apply reachable_Inv in Hr as HI.
  split; [exact (inv_excl s HI)|]. split; [|split; [|exact (inv_nodup s HI)]].
  - intros my_ticket w Hopen Hin.
    destruct (writer_enters s my_ticket w HI Hopen Hin)
      as (rest & _ & Hfree & He & _).
    split; [assumption|]. eexists. split; [exact He|].
    destruct Hfree as (_ & ? & ?). cbn. auto.
  - intros w Hopen Hrg.
    destruct (reader_admitted s w HI Hopen Hrg) as (Hw & _).
    split; [assumption|]. cbn. assumption.
Qed.

Lemma fair_lock_excludes_witness :
  lock_free writer_then_reader
  /\ exists s', lock_enter 0 1%nat writer_then_reader = Entered s'
                /\ has_writer_ s' = true /\ reader_cnt_ s' = 0
                /\ pending_readers_ s' = 0.
Proof.
  assert (Hr : reachable writer_then_reader).
  { apply (reach_step (arrive Write 1%nat new_lock)).
    - apply (reach_step new_lock); [apply reach_new|].
      apply step_arrive; [reflexivity|cbn; lia].
    - apply step_arrive; [reflexivity|cbn; lia]. }
  apply (proj1 (proj2 (fair_lock_excludes writer_then_reader Hr)) 0 1%nat).
  - reflexivity.
  - apply list_elem_of_here.
Defined.

(** *** No waiter is forgotten *)

Lemma not_free_head_signalled s : ~ lock_free s -> head_signalled s.
Proof. intros Hnot Hfree. contradiction. Qed.

Lemma wake_next_head_signalled s : Inv s -> head_signalled (wake_next_ s).
Proof.
  intros HI. unfold wake_next_.
  destruct (has_writer_ s) eqn:Hw.
  { apply not_free_head_signalled. intros (H & _). cbn in H. congruence. }
  destruct (Z.eqb_spec (reader_cnt_ s) 0) as [Hr|Hr].
  2:{ apply not_free_head_signalled. intros (_ & H & _). contradiction. }
  destruct (Z.eqb_spec (pending_readers_ s) 0) as [Hp|Hp].
  2:{ apply not_free_head_signalled. intros (_ & _ & H). contradiction. }
  cbn [negb orb].
  destruct (q_ s) as [|n rest] eqn:Hq.
  { intros _ n rest Hq'. congruence. }
  assert (Hsome : waiter n <> None).
  { pose proof (inv_nodes s HI) as Hn. rewrite Hq in Hn. now inversion Hn. }
  destruct (mode n) eqn:Hm.
  - apply not_free_head_signalled. intros (_ & _ & Hpend).
    unfold open_read_batch_and_wake_unsafe_ in Hpend.
    pose proof (inv_len s HI) as Hl.
    rewrite pop_reads_spec in Hpend by lia.
    cbn [app Z.add] in Hpend.
    match type of Hpend with
    | pending_readers_ (wake_all ?ws ?s1) = 0 =>
        destruct (wake_all_fields ws s1) as (_ & _ & _ & H4 & _)
    end.
    rewrite H4 in Hpend. cbn in Hpend. rewrite Hq in Hpend. cbn in Hpend.
    unfold is_read in Hpend. rewrite Hm in Hpend. cbn in Hpend. lia.
  - destruct (waiter n) as [w|] eqn:Hwn; [|contradiction].
    intros _ n' rest' Hq'. cbn in Hq'. rewrite Hq in Hq'.
    injection Hq' as <- <-. split; [assumption|].
    exists w. split; [assumption|].
    unfold gate_open. cbn. now rewrite lookup_insert_eq.
Qed.

(** Whoever is at the head of the queue of a free lock has been
    signalled: a free lock never has a reader at the head of its queue
    (readers at the head are admitted at once), and a writer at the head
    has its gate open.  No release and no arrival leaves the lock free
    with its waiters asleep. *)
Theorem free_lock_has_signalled_its_head (s : shared_mutex) :
  reachable s ->
  lock_free s ->
  forall n rest, q_ s = n :: rest ->
    mode n = Write /\ exists w, waiter n = Some w /\ gate_open w s = true.
Proof.
  intros Hr. change (head_signalled s).
  induction Hr as [|s s' Hr IH Hstep].
  { intros _ n rest Hq. discriminate. }
  apply reachable_Inv in Hr as HI.
  pose proof (inv_cnt s HI) as Hc.
  destruct Hstep as [s|s Hroom|m w s Hfresh Hlen|t w s s' Hopen Hin He
                     |w s Hopen Hrg Hroom|s Hw|s Hpos].
  - (* try_lock *)
    unfold try_lock.
    destruct (has_writer_ s); [exact IH|].
    destruct (negb _ || negb _); [exact IH|].
    destruct (q_ s); [|exact IH].
    apply not_free_head_signalled. intros (H & _). discriminate.
  - (* try_lock_shared *)
    unfold try_lock_shared.
    destruct (has_writer_ s); [exact IH|].
    destruct (negb _); [exact IH|].
    destruct (q_ s); [|exact IH].
    apply not_free_head_signalled. intros (_ & H & _). cbn in H.
    rewrite wrap64_small in H by lia. lia.
  - unfold arrive. apply wake_next_head_signalled. now apply enqueue_Inv.
  - destruct (writer_enters s t w HI Hopen Hin) as (rest & _ & _ & He' & _).
    rewrite He' in He. injection He as <-.
    apply not_free_head_signalled. intros (H & _). discriminate.
  - apply not_free_head_signalled. intros (_ & H & _). cbn in H.
    rewrite wrap64_small in H by lia. lia.
  - unfold unlock. apply wake_next_head_signalled.
    now apply release_writer_Inv.
  - unfold unlock_shared. cbn zeta.
    pose proof (release_reader_Inv s HI Hpos) as HI'.
    destruct (Z.eqb_spec (reader_cnt_ (set_reader_cnt
                                         (wrap64 (reader_cnt_ s - 1)) s)) 0)
      as [Hz|Hnz].
    + now apply wake_next_head_signalled.
    + apply not_free_head_signalled. intros (_ & H & _). contradiction.
Qed.

Lemma free_lock_has_signalled_its_head_witness :
  mode (mkNode Write 0 (Some 1%nat)) = Write
  /\ exists w, waiter (mkNode Write 0 (Some 1%nat)) = Some w
               /\ gate_open w writer_then_reader = true.
Proof.
  assert (Hr : reachable writer_then_reader).
  { apply (reach_step (arrive Write 1%nat new_lock)).
    - apply (reach_step new_lock); [apply reach_new|].
      apply step_arrive; [reflexivity|cbn; lia].
    - apply step_arrive; [reflexivity|cbn; lia]. }
  apply (free_lock_has_signalled_its_head writer_then_reader Hr
           ltac:(repeat split)
           (mkNode Write 0 (Some 1%nat)) [mkNode Read 1 (Some 2%nat)]).
  reflexivity.
Defined.

End FairFifoProtocolFacts.

(** ** The reader-preference and writer-preference locks *)
Module PrefLocksFacts.
Import PrefLocks.

Lemma nobody_inside_true (s : state) :
  nobody_inside s = true <-> has_writer_ s = false /\ reader_cnt_ s = 0.
Proof.
  unfold nobody_inside. rewrite andb_true_iff, negb_true_iff, Z.eqb_eq.
  tauto.
Qed.

Lemma all_exclusive (wakes : list (@wakeup state)) (s s' : state) :
  exclusive s -> List.Forall (fun x => exclusive (snd x)) wakes ->
  s' = s \/ In s' (map snd wakes) -> exclusive s'.
Proof.
  intros Hs Hw [->|Hin]; [assumption|].
  apply in_map_iff in Hin as (x & <- & Hx).
  rewrite List.Forall_forall in Hw. now apply Hw.
Qed.

Lemma add_reader_spec (s : state) :
  exclusive s -> has_writer_ s = false ->
  reader_cnt_ (add_reader s) = reader_cnt_ s + 1
  /\ has_writer_ (add_reader s) = false.
Proof.
  intros [_ Hr] Hw. cbn. rewrite wrap32_small by (unfold int_range; lia).
  auto.
Qed.




(** Writer preference: the same exclusion, with [lock] leaving the count
    of waiting writers as it was when it did not have to wait. *)
Theorem writer_pref_excludes
        (wakes : list (@wakeup state)) (s : state) :
  exclusive s ->
  List.Forall (fun x => exclusive (snd x)) wakes ->
  (forall s', WriterPref.lock wakes s = Some s' ->
      has_writer_ s' = true /\ reader_cnt_ s' = 0)
  /\ (forall s', WriterPref.lock_shared wakes s = Some s' ->
         has_writer_ s' = false /\ 0 < reader_cnt_ s'
         /\ writer_waiter_ s' = 0)
  /\ (fst (WriterPref.try_lock_shared s) = true <->
        has_writer_ s = false /\ writer_waiter_ s = 0)
  /\ (has_writer_ (snd (WriterPref.try_lock_shared s)) = true ->
      reader_cnt_ (snd (WriterPref.try_lock_shared s)) = 0)
  /\ (nobody_inside s = true -> int_range (writer_waiter_ s + 1) ->
      int_range (writer_waiter_ s) ->
      WriterPref.lock wakes s = Some (set_has_writer true s)).
Proof.
  intros Hs Hw.
  split; [|split; [|split; [|split]]].
  - intros s'. unfold WriterPref.lock.
    destruct (cv_wait _ wakes _) as [s1|] eqn:E; [|discriminate].
    intros [= <-]. apply cv_wait_returns in E as [Hp _].
    apply nobody_inside_true in Hp. cbn. tauto.
  - intros s'. unfold WriterPref.lock_shared.
    destruct (cv_wait _ wakes s) as [s1|] eqn:E; [|discriminate].
    intros [= <-]. apply cv_wait_returns in E as [Hp Hin].
    unfold WriterPref.no_writer_at_all in Hp.
    apply andb_true_iff in Hp as [Hp Hz].
    apply negb_true_iff in Hp. apply Z.eqb_eq in Hz.
    assert (Hx := all_exclusive wakes s s1 Hs Hw Hin).
    destruct (add_reader_spec s1 Hx Hp) as [Hc Hh].
    rewrite Hc, Hh. destruct Hx as [_ Hr].
    split; [reflexivity|]. split; [lia|exact Hz].
  - unfold WriterPref.try_lock_shared.
    destruct (has_writer_ s); cbn; [split; [discriminate|intros [? _]; discriminate]|].
    destruct (Z.eqb_spec (writer_waiter_ s) 0); cbn.
    + tauto.
    + split; [discriminate|]. intros [_ ?]. contradiction.
  - unfold WriterPref.try_lock_shared.
    destruct (has_writer_ s) eqn:E; cbn; [intros _; now apply Hs|].
    destruct (negb (writer_waiter_ s =? 0)); cbn; rewrite E; discriminate.
  - intros Hfree Hr1 Hr0. unfold WriterPref.lock.
    rewrite cv_wait_immediate by exact Hfree.
    unfold WriterPref.lock_enter, WriterPref.lock_arrive. cbn.
    rewrite (wrap32_small _ Hr1).
    replace (writer_waiter_ s + 1 - 1) with (writer_waiter_ s) by lia.
    rewrite (wrap32_small _ Hr0). now destruct s.
Qed.

Lemma writer_pref_excludes_witness :
  WriterPref.lock [] (mk false 0 0 0) = Some (mk true 0 0 0).
Proof.
  apply (writer_pref_excludes [] (mk false 0 0 0)).
  - unfold exclusive. cbn. split; [reflexivity|lia].
  - constructor.
  - reflexivity.
  - unfold int_range. cbn. lia.
  - unfold int_range. cbn. lia.
Defined.

(** The difference between the two.  With reader preference a reader is
    let in whenever no writer is inside, so a writer whose wake-ups all
    find a reader inside never gets the lock.  With writer preference a
    writer that has arrived and is waiting keeps new readers out, by
    [try_lock_shared] and by [lock_shared] alike, until a state without
    waiting writer is seen. *)
Theorem preference_decides_who_waits
        (wakes : list (@wakeup state)) (s : state) :
  (reader_cnt_ s <> 0 ->
   List.Forall (fun x => reader_cnt_ (snd x) <> 0) wakes ->
   ReaderPref.lock wakes s = None)
  /\ (0 <= writer_waiter_ s < 2 ^ 31 - 1 ->
      List.Forall (fun x => writer_waiter_ (snd x) <> 0) wakes ->
      fst (WriterPref.try_lock_shared (WriterPref.lock_arrive s)) = false
      /\ WriterPref.lock_shared wakes (WriterPref.lock_arrive s) = None).
Proof.
  split.
  - intros Hr Hall. unfold ReaderPref.lock.
    rewrite cv_wait_never; [reflexivity| |].
    + unfold nobody_inside. apply Z.eqb_neq in Hr. rewrite Hr.
      apply andb_false_r.
    + eapply List.Forall_impl; [|exact Hall]. cbn. intros x Hx.
      unfold nobody_inside. apply Z.eqb_neq in Hx. rewrite Hx.
      apply andb_false_r.
  - intros Hrange Hall.
    assert (Hne : writer_waiter_ (WriterPref.lock_arrive s) <> 0).
    { cbn. rewrite wrap32_small by (unfold int_range; lia). lia. }
    apply Z.eqb_neq in Hne. split.
    + unfold WriterPref.try_lock_shared. rewrite Hne. cbn.
      now rewrite orb_true_r.
    + unfold WriterPref.lock_shared. rewrite cv_wait_never; [reflexivity| |].
      * unfold WriterPref.no_writer_at_all. rewrite Hne. apply andb_false_r.
      * eapply List.Forall_impl; [|exact Hall]. cbn. intros x Hx.
        unfold WriterPref.no_writer_at_all. apply Z.eqb_neq in Hx.
        rewrite Hx. apply andb_false_r.
Qed.

Lemma preference_decides_who_waits_witness :
  ReaderPref.lock [(5, mk false 2 0 0)] (mk false 1 0 0) = None
  /\ fst (WriterPref.try_lock_shared (WriterPref.lock_arrive (mk false 1 0 0)))
     = false.
Proof.
  destruct (preference_decides_who_waits
              [(5, mk false 2 0 0)] (mk false 1 0 0)) as [H1 _].
  destruct (preference_decides_who_waits [] (mk false 1 0 0)) as [_ H2].
  split.
  - apply H1; [cbn; lia|]. repeat constructor. cbn. lia.
  - apply H2; [cbn; lia|constructor].
Defined.

End PrefLocksFacts.

(** ** The fair lock with one condition variable *)
Module SimpleFifoFacts.
Import FairFifo SimpleFifo.

(** While a reader batch is open and no writer is inside, a reader that
    arrives enters at once, taking a place of the batch, whatever is
    queued: its own request stays at the back of the queue, and a writer
    queued before it is overtaken.  A writer arriving in the same state
    waits.  [try_lock_shared] and [try_lock] refuse in that state ("no
    cutting"). *)
Theorem late_reader_takes_a_batch_place
        (wakes : list (@wakeup shared_mutex)) (s : shared_mutex) :
  writer_active_ s = false ->
  0 < reader_batch_remaining_ s < 2 ^ 31 ->
  int_range (active_readers_ s + 1) ->
  (exists s',
      lock_shared wakes s = Some s'
      /\ q_ s' = q_ s ++ [Read]
      /\ active_readers_ s' = active_readers_ s + 1
      /\ reader_batch_remaining_ s' = reader_batch_remaining_ s - 1
      /\ writer_active_ s' = false)
  /\ lock [] s = None
  /\ try_lock_shared s = (false, s)
  /\ try_lock s = (false, s).
Proof.
  intros Hw Hrem Hact.
  assert (Hne : (reader_batch_remaining_ s =? 0) = false)
    by (apply Z.eqb_neq; lia).
  assert (Hopen : forall m, maybe_open_reader_batch_ (push_back m s)
                            = push_back m s).
  { intros m. unfold maybe_open_reader_batch_. cbn. now rewrite Hne. }
  split; [|split; [|split]].
  - unfold lock_shared.
    assert (Hwait : cv_wait_changing can_run_reader_ wakes (push_back Read s)
                    = Some (push_back Read s)).
    { destruct wakes as [|[t s0] ws]; cbn [cv_wait_changing];
        unfold can_run_reader_; rewrite Hopen; cbn; rewrite Hw; cbn;
        destruct (Z.ltb_spec 0 (reader_batch_remaining_ s)); try lia;
        reflexivity. }
    rewrite Hwait. eexists. split; [reflexivity|]. cbn.
    rewrite !wrap32_small by (unfold int_range in *; lia).
    destruct (reader_batch_remaining_ s - 1 =? 0); cbn; auto.
  - unfold lock. cbn [cv_wait_changing]. unfold can_run_writer_.
    rewrite Hopen. cbn. rewrite Hw, Hne. cbn.
    now rewrite andb_false_r.
  - unfold try_lock_shared. rewrite Hw, Hne. cbn. now rewrite orb_true_r.
  - unfold try_lock. rewrite Hw, Hne. cbn.
    destruct (negb (active_readers_ s =? 0)); [reflexivity|].
    cbn. now rewrite orb_true_r.
Qed.

Lemma late_reader_takes_a_batch_place_witness :
  exists s',
    lock_shared [] batch_open_writer_queued = Some s'
    /\ q_ s' = [Write; Read]
    /\ active_readers_ s' = 1
    /\ reader_batch_remaining_ s' = 0
    /\ writer_active_ s' = false.
Proof.
  apply (late_reader_takes_a_batch_place [] batch_open_writer_queued).
  - reflexivity.
  - cbn. lia.
  - unfold int_range. cbn. lia.
Defined.

End SimpleFifoFacts.

(** ** The timed mutex: who gets it and when *)
Module TimedLockMore.
Import TimedLock.

(** Whatever the state, after a [try_lock] the lock is held; a second
    [try_lock] then fails and changes nothing, until [unlock], after which
    [try_lock] succeeds again.  [try_lock] succeeds exactly on a lock that
    is not held. *)
Theorem try_lock_unlock_cycle (s : state) :
  fst (try_lock s) = negb (flag_ s)
  /\ flag_ (snd (try_lock s)) = true
  /\ try_lock (snd (try_lock s)) = (false, snd (try_lock s))
  /\ exists s2, unlock (snd (try_lock s)) = Returned s2
                /\ flag_ s2 = false
                /\ try_lock s2 = (true, set_flag true s2).
Proof.
  destruct s as [[|] n]; cbn; repeat split; eauto.
Qed.

(** The blocking [lock] returns exactly when some state it gets to see
    (the one it finds or one at a wake-up) has the lock not held; it then
    holds the lock. *)
Theorem lock_returns_when_released
        (wakes : list (@wakeup state)) (s : state) :
  ((exists s', lock wakes s = Some s') <->
     flag_ s = false
     \/ List.Exists (fun x => flag_ (snd x) = false) wakes)
  /\ (forall s', lock wakes s = Some s' ->
        flag_ s' = true
        /\ exists s0, (s0 = s \/ In s0 (map snd wakes))
                      /\ flag_ s0 = false /\ s' = set_flag true s0).
Proof.
  split; [split|].
  - intros [s' H]. unfold lock in H.
    destruct (flag_ s) eqn:Hs; [right|now left].
    apply List.Exists_exists.
    destruct (cv_wait not_held wakes s) as [s1|] eqn:E; [|discriminate].
    apply cv_wait_returns in E as [Hp [->|Hin]].
    + unfold not_held in Hp. rewrite Hs in Hp. discriminate.
    + apply in_map_iff in Hin as (x & <- & Hx). exists x. split; auto.
      unfold not_held in Hp. now apply negb_true_iff in Hp.
  - intros H. unfold lock.
    destruct (cv_wait_ends not_held wakes s) as [s1 E].
    + destruct H as [H|H]; [left; unfold not_held; now rewrite H|right].
      eapply List.Exists_impl; [|exact H]. cbn. intros x Hx.
      unfold not_held. now rewrite Hx.
    + rewrite E. eauto.
  - intros s'. unfold lock.
    destruct (cv_wait not_held wakes s) as [s1|] eqn:E; [|discriminate].
    intros [= <-]. split; [reflexivity|].
    apply cv_wait_returns in E as [Hp Hin]. exists s1.
    unfold not_held in Hp. apply negb_true_iff in Hp. auto.
Qed.

(** A timed acquisition that returns leaves the lock held, whatever the
    answer.  It answers [false] only at a wake-up that is not before the
    deadline, leaving the state found there untouched, and [true] only by
    taking a lock it has seen not held. *)
Theorem timed_acquisition_outcomes
        (abs_time : Z) (wakes : list (@wakeup state)) (s : state)
        (b : bool) (s' : state) :
  try_lock_until abs_time wakes s = Some (b, s') ->
  flag_ s' = true
  /\ (b = false -> exists t, In (t, s') wakes /\ abs_time <= t)
  /\ (b = true ->
      exists s0, (s0 = s \/ In s0 (map snd wakes))
                 /\ flag_ s0 = false /\ s' = set_flag true s0).
Proof.
  unfold try_lock_until. destruct (flag_ s) eqn:Hs; cbn.
  2:{ intros [= <- <-]. split; [reflexivity|].
      split; [discriminate|]. intros _. exists s. auto. }
  destruct (cv_wait_until not_held abs_time wakes s) as [[[|] s1]|] eqn:E;
    [| |discriminate]; intros [= <- <-].
  - split; [reflexivity|]. split; [discriminate|]. intros _.
    apply cv_wait_until_returns in E as [Hp Hin]. exists s1.
    unfold not_held in Hp. symmetry in Hp. apply negb_true_iff in Hp. auto.
  - apply cv_wait_until_gives_up in E as (Hp & t & Hin & Ht).
    unfold not_held in Hp. apply negb_false_iff in Hp.
    split; [assumption|]. split; [eauto|discriminate].
Qed.

Lemma timed_acquisition_outcomes_witness :
  flag_ (mk true 3) = true
  /\ (false = false -> exists t, In (t, mk true 3) [(4, mk true 2); (12, mk true 3)]
                                 /\ 10 <= t)
  /\ (false = true ->
      exists s0, (s0 = taken \/ In s0 (map snd [(4, mk true 2); (12, mk true 3)]))
                 /\ flag_ s0 = false /\ mk true 3 = set_flag true s0).
Proof.
  apply (timed_acquisition_outcomes 10 [(4, mk true 2); (12, mk true 3)] taken).
  reflexivity.
Defined.

(** While the lock stays held, a timed acquisition fails at the first
    wake-up that is not before the deadline and keeps waiting before it:
    it never fails early. *)
Theorem timed_acquisition_waits_for_deadline
        (abs_time : Z) (wakes : list (@wakeup state)) (s : state) :
  flag_ s = true ->
  List.Forall (fun x => flag_ (snd x) = true) wakes ->
  (List.Exists (fun x => abs_time <= fst x) wakes ->
   exists s', try_lock_until abs_time wakes s = Some (false, s'))
  /\ (List.Forall (fun x => fst x < abs_time) wakes ->
      try_lock_until abs_time wakes s = None).
Proof.
  intros Hs Hall. unfold try_lock_until. rewrite Hs. cbn.
  destruct (cv_wait_until_all_false not_held abs_time wakes s) as [Ha Hb].
  - unfold not_held. now rewrite Hs.
  - eapply List.Forall_impl; [|exact Hall]. cbn. intros x Hx.
    unfold not_held. now rewrite Hx.
  - split.
    + intros H. destruct (Ha H) as [s' ->]. eauto.
    + intros H. now rewrite (Hb H).
Qed.

Lemma timed_acquisition_waits_for_deadline_witness :
  try_lock_until 10 [(4, mk true 2); (9, mk true 3)] taken = None.
Proof.
  apply (timed_acquisition_waits_for_deadline
           10 [(4, mk true 2); (9, mk true 3)] taken).
  - reflexivity.
  - repeat constructor.
  - repeat constructor; cbn; lia.
Defined.

End TimedLockMore.

(** ** The reentrant locks: nesting and strangers *)
Module NestingFacts.
Import Reentrant ReentrantFacts Nesting.

Lemma lock_step (this_id : thread_id) (s : state) :
  cnt_ s = 0 \/ owner_ s = Some this_id ->
  0 <= cnt_ s < 2 ^ 64 - 1 ->
  exists s1,
    RecursiveTimedLock.lock this_id [] s = Some s1
    /\ RecursiveLock.lock this_id [] s = Some s1
    /\ cnt_ s1 = cnt_ s + 1 /\ owner_ s1 = Some this_id
    /\ notify_count s1 = notify_count s.
Proof.
  intros Hav Hr.
  assert (Ha : available this_id s = true).
  { unfold available. destruct Hav as [H|H].
    - apply Z.eqb_eq in H. now rewrite H.
    - rewrite H, is_owner_self. apply orb_true_r. }
  unfold RecursiveTimedLock.lock, RecursiveLock.lock. cbn [cv_wait].
  rewrite Ha. eexists. split; [reflexivity|]. split; [reflexivity|].
  destruct (Z.eqb_spec (cnt_ s) 0) as [Hz|Hz]; cbn;
    rewrite wrap64_small by lia; repeat split; auto.
  destruct Hav; [contradiction|assumption].
Qed.

Lemma lock_n_spec (this_id : thread_id) (n : nat) : forall s,
  cnt_ s = 0 \/ owner_ s = Some this_id ->
  0 <= cnt_ s -> cnt_ s + Z.of_nat n < 2 ^ 64 ->
  exists s',
    lock_n (RecursiveTimedLock.lock this_id []) n s = Some s'
    /\ lock_n (RecursiveLock.lock this_id []) n s = Some s'
    /\ cnt_ s' = cnt_ s + Z.of_nat n
    /\ (n <> O -> owner_ s' = Some this_id)
    /\ notify_count s' = notify_count s.
Proof.
  induction n as [|n IH]; intros s Hav H0 Hlt.
  - exists s. cbn. repeat split; auto; [lia|congruence].
  - destruct (lock_step this_id s Hav ltac:(lia)) as (s1 & E1 & E2 & Hc & Ho & Hn).
    destruct (IH s1 (or_intror Ho) ltac:(lia) ltac:(lia))
      as (s' & F1 & F2 & Hc' & Ho' & Hn').
    exists s'. cbn [lock_n]. rewrite E1, E2.
    split; [assumption|]. split; [assumption|].
    split; [lia|]. split; [|congruence].
    intros _. destruct n; [cbn in F1; congruence|now apply Ho'].
Qed.

Lemma unlock_step (this_id : thread_id) (s : state) :
  owner_ s = Some this_id -> 0 < cnt_ s < 2 ^ 64 ->
  exists s1,
    RecursiveTimedLock.unlock this_id s = Returned s1
    /\ RecursiveLock.unlock this_id s = Returned s1
    /\ cnt_ s1 = cnt_ s - 1
    /\ (cnt_ s = 1 -> owner_ s1 = None
                      /\ notify_count s1 = S (notify_count s))
    /\ (cnt_ s <> 1 -> owner_ s1 = Some this_id
                       /\ notify_count s1 = notify_count s).
Proof.
  intros Ho Hr. unfold RecursiveTimedLock.unlock, RecursiveLock.unlock.
  rewrite Ho, is_owner_self.
  destruct (Z.eqb_spec (cnt_ s) 0) as [Hz|Hz]; [lia|]. cbn [orb negb].
  unfold decr_cnt. cbn [cnt_ set_cnt]. rewrite wrap64_small by lia.
  destruct (Z.eqb_spec (cnt_ s - 1) 0) as [H1|H1]; eexists;
    (split; [reflexivity|]); (split; [reflexivity|]); cbn;
    repeat split; auto; lia.
Qed.

Lemma unlock_n_spec (this_id : thread_id) (k : nat) : forall s,
  owner_ s = Some this_id -> Z.of_nat k <= cnt_ s < 2 ^ 64 -> 0 < cnt_ s ->
  exists s',
    unlock_n (RecursiveTimedLock.unlock this_id) k s = Returned s'
    /\ unlock_n (RecursiveLock.unlock this_id) k s = Returned s'
    /\ cnt_ s' = cnt_ s - Z.of_nat k
    /\ (Z.of_nat k < cnt_ s ->
        owner_ s' = Some this_id /\ notify_count s' = notify_count s)
    /\ (Z.of_nat k = cnt_ s ->
        owner_ s' = None /\ notify_count s' = S (notify_count s)).
Proof.
  induction k as [|k IH]; intros s Ho Hr Hpos.
  - exists s. cbn. repeat split; auto; lia.
  - destruct (unlock_step this_id s Ho ltac:(lia)) as (s1 & E1 & E2 & Hc & H1 & Hn1).
    cbn [unlock_n]. rewrite E1, E2.
    destruct (Z.eq_dec (cnt_ s) 1) as [Hone|Hone].
    + assert (k = O) by lia. subst k. exists s1. cbn.
      destruct (H1 Hone) as [Ho1 Hcnt].
      repeat split; auto; lia.
    + destruct (Hn1 Hone) as [Ho1 Hcnt].
      destruct (IH s1 Ho1 ltac:(lia) ltac:(lia))
        as (s' & F1 & F2 & Hc' & Hlt & Heq).
      exists s'. split; [assumption|]. split; [assumption|].
      split; [lia|]. split; intros H.
      * destruct (Hlt ltac:(lia)). split; congruence.
      * destruct (Heq ltac:(lia)). split; congruence.
Qed.

(** [RecursiveTimedLock]: a thread that finds the lock free can take it
    [n] times in a row without waiting; it must then release it [n]
    times: after [k < n] releases it still owns the lock with count
    [n - k] and nobody has been notified, the [n]-th release frees the
    lock and notifies once, and one release more ends in
    [std::terminate()]. *)
Theorem nested_acquisitions_need_as_many_releases
        (this_id : thread_id) (n : nat) (s : state) :
  cnt_ s = 0 -> Z.of_nat n < 2 ^ 64 -> n <> O ->
  exists sn,
    lock_n (RecursiveTimedLock.lock this_id []) n s = Some sn
    /\ cnt_ sn = Z.of_nat n /\ owner_ sn = Some this_id
    /\ (forall k, (k < n)%nat ->
        exists sk,
          unlock_n (RecursiveTimedLock.unlock this_id) k sn = Returned sk
          /\ cnt_ sk = Z.of_nat n - Z.of_nat k
          /\ owner_ sk = Some this_id
          /\ notify_count sk = notify_count s)
    /\ (exists s0,
          unlock_n (RecursiveTimedLock.unlock this_id) n sn = Returned s0
          /\ cnt_ s0 = 0 /\ owner_ s0 = None
          /\ notify_count s0 = S (notify_count s))
    /\ unlock_n (RecursiveTimedLock.unlock this_id) (S n) sn = Terminated.
Proof.
  intros Hz Hn Hpos.
  destruct (lock_n_spec this_id n s (or_introl Hz) ltac:(lia) ltac:(lia))
    as (sn & E & _ & Hc & Ho & Hnc).
  specialize (Ho Hpos). rewrite Hz in Hc. cbn in Hc.
  exists sn. split; [assumption|]. split; [assumption|].
  split; [assumption|].
  assert (Hfull : exists s0,
            unlock_n (RecursiveTimedLock.unlock this_id) n sn = Returned s0
            /\ cnt_ s0 = 0 /\ owner_ s0 = None
            /\ notify_count s0 = S (notify_count s)).
  { destruct (unlock_n_spec this_id n sn Ho ltac:(lia) ltac:(lia))
      as (s0 & F & _ & Hc0 & _ & Heq).
    destruct (Heq ltac:(lia)) as [Ho0 Hn0].
    exists s0. repeat split; auto; [lia|congruence]. }
  split; [|split; [exact Hfull|]].
  - intros k Hk.
    destruct (unlock_n_spec this_id k sn Ho ltac:(lia) ltac:(lia))
      as (sk & F & _ & Hck & Hlt & _).
    destruct (Hlt ltac:(lia)) as [Hok Hnk].
    exists sk. repeat split; auto; [lia|congruence].
  - destruct Hfull as (s0 & F & Hc0 & Ho0 & _).
    clear - F Hc0. revert sn F. induction n as [|n IH]; intros sn F.
    + cbn in F. injection F as Hsn. subst sn. cbn.
      unfold RecursiveTimedLock.unlock. apply Z.eqb_eq in Hc0.
      now rewrite Hc0.
    + cbn [unlock_n] in F. change (unlock_n ?u (S (S n)) sn) with
        (match u sn with
         | Returned s1 => unlock_n u (S n) s1
         | Thrown what => Thrown what
         | Terminated => Terminated
         end).
      destruct (RecursiveTimedLock.unlock this_id sn) as [s1| |];
        try discriminate. now apply IH.
Qed.

Lemma nested_acquisitions_need_as_many_releases_witness :
  exists sn,
    lock_n (RecursiveTimedLock.lock 7%nat []) 3 initial = Some sn
    /\ cnt_ sn = 3 /\ owner_ sn = Some 7%nat
    /\ (forall k, (k < 3)%nat ->
        exists sk,
          unlock_n (RecursiveTimedLock.unlock 7%nat) k sn = Returned sk
          /\ cnt_ sk = 3 - Z.of_nat k
          /\ owner_ sk = Some 7%nat
          /\ notify_count sk = notify_count initial)
    /\ (exists s0,
          unlock_n (RecursiveTimedLock.unlock 7%nat) 3 sn = Returned s0
          /\ cnt_ s0 = 0 /\ owner_ s0 = None
          /\ notify_count s0 = S (notify_count initial))
    /\ unlock_n (RecursiveTimedLock.unlock 7%nat) 4 sn = Terminated.
Proof.
  apply (nested_acquisitions_need_as_many_releases 7%nat 3 initial).
  - reflexivity.
  - cbn. lia.
  - discriminate.
Defined.

(** [RecursiveLock]: the same nesting, except that the release too many
    throws "unlock by another thread". *)
Theorem recursive_lock_nesting
        (this_id : thread_id) (n : nat) (s : state) :
  cnt_ s = 0 -> Z.of_nat n < 2 ^ 64 -> n <> O ->
  exists sn s0,
    lock_n (RecursiveLock.lock this_id []) n s = Some sn
    /\ cnt_ sn = Z.of_nat n /\ owner_ sn = Some this_id
    /\ unlock_n (RecursiveLock.unlock this_id) n sn = Returned s0
    /\ cnt_ s0 = 0 /\ owner_ s0 = None
    /\ notify_count s0 = S (notify_count s)
    /\ unlock_n (RecursiveLock.unlock this_id) (S n) sn
       = Thrown "unlock by another thread".
Proof.
  intros Hz Hn Hpos.
  destruct (lock_n_spec this_id n s (or_introl Hz) ltac:(lia) ltac:(lia))
    as (sn & _ & E & Hc & Ho & Hnc).
  specialize (Ho Hpos). rewrite Hz in Hc. cbn in Hc.
  destruct (unlock_n_spec this_id n sn Ho ltac:(lia) ltac:(lia))
    as (s0 & _ & F & Hc0 & _ & Heq).
  destruct (Heq ltac:(lia)) as [Ho0 Hn0].
  exists sn, s0. repeat split; auto; [lia|congruence|].
  clear - F Ho0. revert sn F. induction n as [|n IH]; intros sn F.
  - cbn in F. injection F as Hsn. subst sn. cbn.
    unfold RecursiveLock.unlock. now rewrite Ho0.
  - cbn [unlock_n] in F. change (unlock_n ?u (S (S n)) sn) with
      (match u sn with
       | Returned s1 => unlock_n u (S n) s1
       | Thrown what => Thrown what
       | Terminated => Terminated
       end).
    destruct (RecursiveLock.unlock this_id sn) as [s1| |];
      try discriminate. now apply IH.
Qed.

Lemma recursive_lock_nesting_witness :
  exists sn s0,
    lock_n (RecursiveLock.lock 7%nat []) 2 initial = Some sn
    /\ cnt_ sn = 2 /\ owner_ sn = Some 7%nat
    /\ unlock_n (RecursiveLock.unlock 7%nat) 2 sn = Returned s0
    /\ cnt_ s0 = 0 /\ owner_ s0 = None
    /\ notify_count s0 = S (notify_count initial)
    /\ unlock_n (RecursiveLock.unlock 7%nat) 3 sn
       = Thrown "unlock by another thread".
Proof.
  apply (recursive_lock_nesting 7%nat 2 initial).
  - reflexivity.
  - cbn. lia.
  - discriminate.
Defined.

Lemma stranger_unavailable (this_id o : thread_id) (s : state) :
  this_id <> o -> held_by o s ->
  is_owner this_id (owner_ s) = false /\ (cnt_ s =? 0) = false
  /\ available this_id s = false.
Proof.
  intros Hne [Ho Hc]. apply Z.eqb_neq in Hc.
  assert (H : is_owner this_id (owner_ s) = false).
  { rewrite Ho. cbn. unfold same_thread. apply Nat.eqb_neq. congruence. }
  unfold available. rewrite H, Hc. auto.
Qed.

(** While another thread holds a reentrant lock, a stranger gets nowhere:
    [try_lock] fails and changes nothing, the blocking [lock] does not
    return, a timed acquisition can only fail (leaving the holder in
    place), and an [unlock] by the stranger is refused ([std::terminate()]
    in [RecursiveTimedLock], an exception in [RecursiveLock]) instead of
    releasing the holder's lock. *)
Theorem stranger_is_kept_out
        (this_id o : thread_id) (wakes : list (@wakeup state)) (s : state) :
  this_id <> o ->
  held_by o s ->
  List.Forall (fun x => held_by o (snd x)) wakes ->
  (RecursiveTimedLock.try_lock this_id s = (false, s)
   /\ RecursiveTimedLock.lock this_id wakes s = None
   /\ (forall abs_time b s',
         RecursiveTimedLock.try_lock_until this_id abs_time wakes s
         = Some (b, s') -> b = false /\ held_by o s')
   /\ RecursiveTimedLock.unlock this_id s = Terminated)
  /\ (forall mtx_free, RecursiveLock.try_lock this_id mtx_free s = (false, s))
  /\ RecursiveLock.lock this_id wakes s = None
  /\ RecursiveLock.unlock this_id s = Thrown "unlock by another thread".
Proof.
  intros Hne Hs Hall.
  destruct (stranger_unavailable this_id o s Hne Hs) as (Hown & Hc & Hav).
  assert (Hwait : cv_wait (available this_id) wakes s = None).
  { apply cv_wait_never; [assumption|].
    eapply List.Forall_impl; [|exact Hall]. cbn. intros x Hx.
    now apply (stranger_unavailable this_id o (snd x) Hne Hx). }
  split; [split; [|split; [|split]]|split; [|split]].
  - unfold RecursiveTimedLock.try_lock. now rewrite Hown, Hc.
  - unfold RecursiveTimedLock.lock. now rewrite Hwait.
  - intros abs_time b s'. unfold RecursiveTimedLock.try_lock_until.
    rewrite Hc, Hown.
    destruct (cv_wait_until _ abs_time wakes s) as [[b1 s1]|] eqn:E;
      [|discriminate].
    apply cv_wait_until_returns in E as [Hb Hin].
    assert (Hh : held_by o s1).
    { destruct Hin as [->|Hin]; [assumption|].
      apply in_map_iff in Hin as (x & <- & Hx).
      rewrite List.Forall_forall in Hall. now apply Hall. }
    assert (Hu : RecursiveTimedLock.unowned s1 = false).
    { unfold RecursiveTimedLock.unowned. apply Z.eqb_neq. apply Hh. }
    subst b1. rewrite Hu. intros [= <- <-]. auto.
  - unfold RecursiveTimedLock.unlock. now rewrite Hown, Hc.
  - intros mtx_free. unfold RecursiveLock.try_lock.
    destruct mtx_free; cbn [negb]; [|reflexivity]. now rewrite Hc, Hown.
  - unfold RecursiveLock.lock. now rewrite Hwait.
  - unfold RecursiveLock.unlock. now rewrite Hown.
Qed.

Lemma stranger_is_kept_out_witness :
  RecursiveTimedLock.unlock 2%nat (mk (Some 1%nat) 1 0) = Terminated.
Proof.
  apply (stranger_is_kept_out 2%nat 1%nat [] (mk (Some 1%nat) 1 0)).
  - discriminate.
  - split; [reflexivity|discriminate].
  - constructor.
Defined.

End NestingFacts.

(** ** Scope guards *)
Module ScopeGuardFacts.
Import MultiLock MultiLockFacts ScopeGuard.

Lemma remove_first_app (m : lockable) (l h : list lockable) :
  In m l -> remove_first m (l ++ h) = remove_first m l ++ h.
Proof.
  induction l as [|x l IH]; cbn; [contradiction|].
  intros Hin. destruct (Nat.eqb_spec x m) as [->|Hne]; [reflexivity|].
  destruct Hin as [->|Hin]; [contradiction|]. now rewrite IH.
Qed.

Lemma remove_first_perm (m : lockable) (l ms : list lockable) :
  Permutation l (m :: ms) -> Permutation (remove_first m l) ms.
Proof.
  intros Hp.
  assert (Hin : In m l).
  { apply (Permutation_in m (Permutation_sym Hp)). now left. }
  apply (Permutation_cons_inv (a := m)).
  transitivity l; [|assumption]. clear Hp. symmetry.
  induction l as [|x l IH]; cbn; [contradiction|].
  destruct (Nat.eqb_spec x m) as [->|Hne]; [reflexivity|].
  destruct Hin as [->|Hin]; [contradiction|].
  rewrite (IH Hin) at 1. apply perm_swap.
Qed.

Lemma unlock_all_spec (ms : list lockable) : forall l h tr,
  Permutation l ms ->
  unlock_all ms (mkCaller (l ++ h) tr) = mkCaller h (tr ++ map EvUnlock ms).
Proof.
  induction ms as [|m ms IH]; intros l h tr Hp.
  - apply Permutation_nil_r in Hp. subst. cbn. now rewrite app_nil_r.
  - cbn [unlock_all fold_left]. unfold do_unlock, log. cbn [held trace].
    rewrite remove_first_app
      by (apply (Permutation_in m (Permutation_sym Hp)); now left).
    fold (unlock_all ms (mkCaller (remove_first m l ++ h) (tr ++ [EvUnlock m]))).
    rewrite IH by now apply remove_first_perm.
    cbn. now rewrite <- app_assoc.
Qed.

Lemma destroy_unlock_all (mtxes : list lockable) (c : caller) :
  destroy mtxes c = unlock_all mtxes c.
Proof. destruct mtxes as [|m [|m2 m3]]; reflexivity. Qed.

Lemma constructed_holds (rounds : list availability)
      (mtxes : list lockable) (c c1 : caller) :
  ScopedLock rounds mtxes c = Some c1 \/ scoped_lock rounds mtxes c = Some c1 ->
  held c1 = rev mtxes ++ held c.
Proof.
  destruct mtxes as [|m1 [|m2 m3]]; cbn [ScopedLock scoped_lock].
  - intros [[= <-]|[= <-]]; reflexivity.
  - intros [[= <-]|[= <-]]; reflexivity.
  - intros [H|H].
    + apply lock_all_returns in H; [|discriminate]. rewrite H.
      change (rev (m1 :: m2 :: m3)) with (rev (m2 :: m3) ++ [m1]).
      now rewrite <- app_assoc.
    + apply Lock_returns in H. rewrite H.
      change (rev (m1 :: m2 :: m3)) with (rev (m2 :: m3) ++ [m1]).
      now rewrite <- app_assoc.
Qed.

(** A guard over any number of lockables: when the constructor returns
    the caller holds all of them on top of what it held; the destructor
    then unlocks each of them once, from the first to the last, and the
    caller is left holding exactly what it held before the scope.  A guard
    made with [std::adopt_lock] does the same for lockables the caller
    locked itself, in whatever order. *)
Theorem guard_releases_what_it_took
        (rounds : list availability) (mtxes : list lockable) (c : caller) :
  (forall c1,
     ScopedLock rounds mtxes c = Some c1 \/ scoped_lock rounds mtxes c = Some c1 ->
     held c1 = rev mtxes ++ held c
     /\ held (destroy mtxes c1) = held c
     /\ trace (destroy mtxes c1) = trace c1 ++ map EvUnlock mtxes)
  /\ (forall l,
        Permutation l mtxes ->
        destroy mtxes (adopt mtxes (mkCaller (l ++ held c) (trace c)))
        = mkCaller (held c) (trace c ++ map EvUnlock mtxes)).
Proof.
  split.
  - intros c1 H. apply constructed_holds in H.
    split; [assumption|]. rewrite destroy_unlock_all.
    destruct c1 as [h1 t1]. cbn [held] in H. subst h1.
    rewrite unlock_all_spec by (symmetry; apply Permutation_rev).
    split; reflexivity.
  - intros l Hp. unfold adopt. rewrite destroy_unlock_all.
    now apply unlock_all_spec.
Qed.

End ScopeGuardFacts.

(** ** The task queue: order of service, time-outs *)
Module TaskQueueMore.
Import TaskQueue TaskQueueFacts Submissions.

Section WithTask.
Context {Task : Type} {heap : DelayHeap Task} (Hheap : lawful heap).
Implicit Types (q : TaskQueue Task) (pq : list (TimeTask Task)).
Implicit Types (r : popped Task) (wakes : list (wake Task)).

Lemma nondecreasing_cons (a : Z) (l : list Z) :
  List.Forall (fun b => a <= b) l -> nondecreasing l = true ->
  nondecreasing (a :: l) = true.
Proof.
  intros Hall Hl. destruct l as [|b r]; [reflexivity|].
  change (nondecreasing (a :: b :: r))
    with ((a <=? b) && nondecreasing (b :: r)).
  rewrite Hl. inversion Hall; subst.
  apply andb_true_iff. split; [now apply Z.leb_le|reflexivity].
Qed.

Lemma submit_all_app (xs ys : list (submission Task)) q :
  submit_all (xs ++ ys) q = submit_all ys (submit_all xs q).
Proof. unfold submit_all. apply fold_left_app. Qed.

(** Submissions to a queue that is not stopped: the normal tasks line
    up behind what the FIFO held, in the order submitted; the priority
    tasks go in front of it, the latest first; the delayed tasks join the
    delay heap; each submission notifies one consumer. *)
Theorem submissions_keep_their_order (xs : list (submission Task)) q :
  stop_ q = false ->
  tasks_ (submit_all xs q) = rev (priority_of xs) ++ tasks_ q ++ normal_of xs
  /\ delay_tasks_ (submit_all xs q) = delay_tasks_ q ++ delayed_of xs
  /\ cond_ (submit_all xs q) = cond_ q ++ repeat NotifyOne (length xs)
  /\ stop_ (submit_all xs q) = false.
Proof.
  revert q. induction xs as [|x xs IH]; intros q Hs.
  - cbn. rewrite !app_nil_r. auto.
  - change (submit_all (x :: xs) q) with (submit_all xs (submit x q)).
    assert (Hs1 : stop_ (submit x q) = false).
    { destruct x; cbn; unfold push, push_priority, push_delay;
        rewrite Hs; exact Hs. }
    destruct (IH _ Hs1) as (Ht & Hd & Hc & Hst).
    rewrite Ht, Hd, Hc, Hst.
    destruct x; cbn [submit priority_of normal_of delayed_of length repeat];
      unfold push, push_priority, push_delay, pq_emplace; rewrite Hs; cbn;
      rewrite <- ?app_assoc; cbn; auto.
Qed.

Lemma drain_with_order
      (pop_once : TaskQueue Task -> option (popped Task)) now :
  (forall q r, picked now q r -> pop_once q = Some r) ->
  forall n q,
    size q = n -> all_due now q ->
    exists ds,
      Permutation ds (delay_tasks_ q)
      /\ nondecreasing (map exec_tm_ ds) = true
      /\ fst (drain_with pop_once n q) = map task_ ds ++ tasks_ q.
Proof.
  intros Hpop. induction n as [|n IH]; intros q Hsize Hdue.
  - unfold size in Hsize.
    destruct (tasks_ q) eqn:Ht; [|cbn in Hsize; lia].
    destruct (delay_tasks_ q) eqn:Hd; [|cbn in Hsize; lia].
    exists []. cbn. repeat split. constructor.
  - cbn [drain_with].
    destruct (pq_extract (delay_tasks_ q)) as [[d rest]|] eqn:He.
    + destruct (pq_extract_min Hheap _ _ _ He) as [Hperm Hmin].
      assert (Hd : exec_tm_ d <= now).
      { unfold all_due in Hdue. rewrite Hperm in Hdue. now inversion Hdue. }
      rewrite (Hpop q (OK, Some (task_ d), set_delay_tasks rest q)).
      2:{ left. eauto. }
      destruct (IH (set_delay_tasks rest q)) as (ds & Hp & Hsorted & Hdr).
      * unfold size in *. cbn. apply Permutation_length in Hperm.
        cbn in Hperm. lia.
      * unfold all_due in *. cbn. rewrite Hperm in Hdue. now inversion Hdue.
      * cbn in Hp, Hdr.
        destruct (drain_with pop_once n (set_delay_tasks rest q)) as [ts q''].
        cbn in Hdr. subst ts. exists (d :: ds). cbn.
        split; [rewrite Hperm; now constructor|].
        split; [|reflexivity].
        apply nondecreasing_cons; [|assumption].
        apply Forall_map. now rewrite Hp.
    + pose proof He as He0. apply (pq_extract_None Hheap) in He.
      unfold size in Hsize. rewrite He in Hsize. cbn in Hsize.
      destruct (tasks_ q) as [|t ts] eqn:Ht; [cbn in Hsize; lia|].
      rewrite (Hpop q (OK, Some t, set_tasks ts q)).
      2:{ right. left. split.
          - unfold ready_delay_task. now rewrite He0.
          - eauto. }
      destruct (IH (set_tasks ts q)) as (ds & Hp & Hsorted & Hdr).
      * unfold size. cbn. rewrite He. cbn in *. lia.
      * unfold all_due. cbn. rewrite He. constructor.
      * cbn in Hp, Hdr. rewrite He in Hp. apply Permutation_nil_r in Hp.
        subst ds. cbn in Hdr.
        destruct (drain_with pop_once n (set_tasks ts q)) as [ts' q''].
        cbn in Hdr. subst ts'. exists []. rewrite He. cbn.
        repeat split. constructor.
Qed.

(** Once the delayed tasks are due, consumers popping one task after the
    other are served the delayed tasks first, by non-decreasing deadline,
    and then the FIFO from front to back; in both files. *)
Theorem tasks_are_served_in_order
        (entry idle_timeout now : Z) q :
  all_due now q ->
  exists ds,
    Permutation ds (delay_tasks_ q)
    /\ nondecreasing (map exec_tm_ ds) = true
    /\ fst (drain (size q) entry idle_timeout now q)
       = map task_ ds ++ tasks_ q
    /\ fst (drain_v4 (size q) idle_timeout now q)
       = map task_ ds ++ tasks_ q.
Proof.
  intros Hdue.
  assert (Hgen : forall n q0, all_due now q0 ->
            fst (drain_with (fun q1 => pop entry idle_timeout now q1 []) n q0)
            = fst (drain_with (fun q1 => pop_v4 idle_timeout now q1 []) n q0)).
  { induction n as [|n IH]; intros q0 Hdue0; [reflexivity|].
    cbn [drain_with].
    destruct (pq_extract (delay_tasks_ q0)) as [[d rest]|] eqn:He.
    - destruct (pq_extract_min Hheap _ _ _ He) as [Hperm Hmin].
      assert (Hd : exec_tm_ d <= now).
      { unfold all_due in Hdue0. rewrite Hperm in Hdue0. now inversion Hdue0. }
      assert (Hsel : picked now q0 (OK, Some (task_ d), set_delay_tasks rest q0))
        by (left; eauto).
      unfold pop. rewrite (pop_loop_picked Hheap _ now q0 [] _ Hsel).
      rewrite (pop_v4_picked Hheap idle_timeout now q0 [] _ Hsel).
      specialize (IH (set_delay_tasks rest q0)).
      unfold pop in IH.
      destruct (drain_with _ n (set_delay_tasks rest q0)) as [a1 b1].
      destruct (drain_with _ n (set_delay_tasks rest q0)) as [a2 b2].
      cbn in *. f_equal. apply IH.
      unfold all_due in *. cbn. rewrite Hperm in Hdue0. now inversion Hdue0.
    - pose proof He as He0. apply (pq_extract_None Hheap) in He.
      destruct (tasks_ q0) as [|t ts] eqn:Ht.
      + unfold pop. cbn [pop_loop pop_v4].
        unfold pop_try, pop_try_v4, ready_delay_task, take_normal, pq_top.
        rewrite He0, He, Ht. cbn.
        destruct (stop_ q0); reflexivity.
      + assert (Hsel : picked now q0 (OK, Some t, set_tasks ts q0)).
        { right. left. split; [unfold ready_delay_task; now rewrite He0|eauto]. }
        unfold pop. rewrite (pop_loop_picked Hheap _ now q0 [] _ Hsel).
        rewrite (pop_v4_picked Hheap idle_timeout now q0 [] _ Hsel).
        specialize (IH (set_tasks ts q0)). unfold pop in IH.
        destruct (drain_with _ n (set_tasks ts q0)) as [a1 b1].
        destruct (drain_with _ n (set_tasks ts q0)) as [a2 b2].
        cbn in *. f_equal. apply IH.
        unfold all_due. cbn. rewrite He. constructor. }
  destruct (drain_with_order
              (fun q0 => pop entry idle_timeout now q0 []) now
              (fun q0 r H => pop_loop_picked Hheap _ now q0 [] r H)
              (size q) q eq_refl Hdue) as (ds & Hp & Hs & H1).
  exists ds. split; [assumption|]. split; [assumption|].
  split; [exact H1|]. unfold drain_v4.
  rewrite <- (Hgen (size q) q Hdue). exact H1.
Qed.

(** *** Time-outs *)

(** While the sum stays in the range of the 64-bit clock the idle
    deadline is the entry time plus the idle time. *)
Lemma idle_deadline_in_range (entry idle_timeout : Z) :
  - 2 ^ 63 <= entry + idle_timeout * ticks_per_second < 2 ^ 63 ->
  idle_deadline entry idle_timeout = entry + idle_timeout * ticks_per_second.
Proof.
  intros H. unfold idle_deadline, wrap_i64.
  rewrite Z.mod_small; lia.
Qed.

(** [pop] answers [TIMEOUT] only after a wait that ended by expiry, and
    hands out no task with it.  In [part_005] the expiry must be at or
    after the idle deadline as the code computes it (entry time plus idle
    time in 64-bit nanoseconds), and the queue is not looked at again: a
    task pushed meanwhile stays in the queue while the consumer is told
    [TIMEOUT].  In [_v4.hpp] the idle time is positive, and the queue
    found has an empty FIFO and no delayed task that is due. *)
Theorem timeout_is_reported_only_when
        (entry idle_timeout now : Z) q wakes (o : option Task) q' :
  (pop entry idle_timeout now q wakes = Some (TIMEOUT, o, q') ->
   o = None
   /\ exists w, In w wakes /\ wk_status w = timeout
                /\ idle_deadline entry idle_timeout <= wk_clock w
                /\ q' = wk_queue w)
  /\ (pop_v4 idle_timeout now q wakes = Some (TIMEOUT, o, q') ->
      o = None /\ 0 < idle_timeout
      /\ exists w, In w wakes /\ wk_status w = timeout /\ q' = wk_queue w
                   /\ tasks_ q' = []
                   /\ ready_delay_task (wk_clock w) q' = None)
  /\ (forall task : Task,
        pop entry idle_timeout now empty_queue
            [timed_out_at (idle_deadline entry idle_timeout)
                          (push task empty_queue)]
        = Some (TIMEOUT, None, push task empty_queue)).
Proof.
  split; [|split].
  - apply pop_loop_timeout.
  - intros H.
    apply pop_v4_timeout in H
      as (Ho & Hi & w & Hin & Hs & Hq & Ht & Hr & _).
    split; [assumption|]. split; [assumption|].
    exists w. auto.
  - intros task. unfold pop. cbn [pop_loop].
    unfold pop_try, ready_delay_task, take_normal, pq_top, empty_queue.
    cbn [stop_ delay_tasks_ tasks_ is_nil andb].
    rewrite (proj2 (pq_extract_None Hheap []) eq_refl).
    cbn [fmap option_fmap option_map timed_out_at wk_status wk_clock wk_queue
         is_timeout andb].
    now rewrite Z.leb_refl.
Qed.

(** [_v4.hpp] with an idle time of zero or less: on a queue that is
    empty and not stopped [pop] takes the [continue] of step 5 every time
    round, so it neither returns nor waits, whatever the other threads
    would have done to the queue: it never lets go of the mutex for them
    to do it. *)
Theorem pop_v4_spins_without_idle_time (idle_timeout now : Z) q wakes :
  idle_timeout <= 0 ->
  stop_ q = false -> tasks_ q = [] -> delay_tasks_ q = [] ->
  pop_v4 idle_timeout now q wakes = None.
Proof.
  intros Hi Hs Ht Hd. revert now.
  assert (Htry : forall now, pop_try_v4 now q = None).
  { intros now. unfold pop_try_v4, ready_delay_task, take_normal.
    now rewrite Hd, (proj2 (pq_extract_None Hheap []) eq_refl), Ht, Hs. }
  assert (Hwd : forall now, (wait_duration idle_timeout now q <=? 0) = true).
  { intros now. unfold wait_duration, pq_top.
    rewrite Hd, (proj2 (pq_extract_None Hheap []) eq_refl). cbn.
    apply Z.leb_le. lia. }
  induction wakes as [|w ws IH]; intros now; cbn [pop_v4]; rewrite Htry;
    [reflexivity|].
  rewrite Hwd. apply IH.
Qed.

End WithTask.

Lemma submissions_keep_their_order_witness :
  tasks_ (submit_all [Push 1%nat; PushPriority 2%nat; PushDelay 3%nat 5;
                      PushPriority 4%nat] empty_queue)
  = [4%nat; 2%nat; 1%nat].
Proof.
  apply (submissions_keep_their_order
           [Push 1%nat; PushPriority 2%nat; PushDelay 3%nat 5;
            PushPriority 4%nat] empty_queue).
  reflexivity.
Defined.

Lemma tasks_are_served_in_order_witness :
  exists ds,
    Permutation ds [mkTimeTask 9 30%nat; mkTimeTask 5 31%nat]
    /\ nondecreasing (map exec_tm_ ds) = true
    /\ fst (drain 4 0 2 10
              (mkTQ [4%nat; 2%nat]
                    [mkTimeTask 9 30%nat; mkTimeTask 5 31%nat] false []))
       = map task_ ds ++ [4%nat; 2%nat]
    /\ fst (drain_v4 4 2 10
              (mkTQ [4%nat; 2%nat]
                    [mkTimeTask 9 30%nat; mkTimeTask 5 31%nat] false []))
       = map task_ ds ++ [4%nat; 2%nat].
Proof.
  apply (tasks_are_served_in_order first_least_lawful 0 2 10
           (mkTQ [4%nat; 2%nat]
                 [mkTimeTask 9 30%nat; mkTimeTask 5 31%nat] false [])).
  repeat constructor; cbn; lia.
Defined.

(** An idle time of one second, and one of ten thousand million seconds:
    turned into nanoseconds the latter does not fit 64 bits, the deadline
    computed lies in the past and the first expiry is answered
    [TIMEOUT]. *)
Lemma timeout_is_reported_only_when_witness :
  pop 0 1 0 (@empty_queue nat)
      [timed_out_at (idle_deadline 0 1) (push 7%nat empty_queue)]
  = Some (TIMEOUT, None, push 7%nat empty_queue)
  /\ idle_deadline 0 1 = 1000000000
  /\ pop 0 10000000000 0 (@empty_queue nat)
         [timed_out_at (idle_deadline 0 10000000000) (push 7%nat empty_queue)]
     = Some (TIMEOUT, None, push 7%nat empty_queue)
  /\ idle_deadline 0 10000000000 = - 8446744073709551616.
Proof.
  destruct (timeout_is_reported_only_when
              (first_least_lawful (Task := nat)) 0 1 0
              empty_queue [] None empty_queue) as (_ & _ & H1).
  destruct (timeout_is_reported_only_when
              (first_least_lawful (Task := nat)) 0 10000000000 0
              empty_queue [] None empty_queue) as (_ & _ & H2).
  split; [apply H1|]. split; [reflexivity|].
  split; [apply H2|reflexivity].
Defined.

Lemma pop_v4_spins_without_idle_time_witness :
  pop_v4 0 0 (@empty_queue nat)
         [mkWake no_timeout (push 1%nat empty_queue) 5 5;
          mkWake no_timeout (stop empty_queue) 9 9] = None.
Proof.
  apply (pop_v4_spins_without_idle_time first_least_lawful 0 0
           (@empty_queue nat));
    [lia|reflexivity|reflexivity|reflexivity].
Defined.

End TaskQueueMore.

(** ** The worker pool at work *)
Module PoolOpsFacts.
Import ThreadPool ThreadPoolFacts PoolOps.

Section WithTask.
Context {Task : Type}.
Implicit Types (w : world Task) (p : pool Task).

Lemma with_pool_same w : with_pool (the_pool w) w = w.
Proof. now destruct w. Qed.

(** *** Spawning touches [workers_] only *)

Lemma spawn_worker_rest w :
  ids_fresh w ->
  queue_ (the_pool (spawn_worker w)) = queue_ (the_pool w)
  /\ dead_workers_ (the_pool (spawn_worker w)) = dead_workers_ (the_pool w)
  /\ idle_threads_ (the_pool (spawn_worker w)) = idle_threads_ (the_pool w)
  /\ stopping_ (the_pool (spawn_worker w)) = stopping_ (the_pool w)
  /\ Permutation (handles (the_pool (spawn_worker w)))
                 (handles (the_pool w) ++ [mkThread (next_thread_id w)]).
Proof.
  intros Hf. unfold spawn_worker, handles. cbn zeta. cbn [get_id].
  rewrite (Hf (next_thread_id w)) by lia. cbn.
  repeat split.
  rewrite map_to_list_insert by (apply Hf; lia). cbn.
  rewrite <- app_assoc.
  rewrite (Permutation_app_comm (dead_workers_ (the_pool w))).
  cbn. apply Permutation_cons_app. reflexivity.
Qed.

Lemma spawn_n_rest n : forall w,
  ids_fresh w ->
  queue_ (the_pool (spawn_n n w)) = queue_ (the_pool w)
  /\ dead_workers_ (the_pool (spawn_n n w)) = dead_workers_ (the_pool w)
  /\ idle_threads_ (the_pool (spawn_n n w)) = idle_threads_ (the_pool w)
  /\ stopping_ (the_pool (spawn_n n w)) = stopping_ (the_pool w)
  /\ Permutation (handles (the_pool (spawn_n n w)))
                 (handles (the_pool w)
                  ++ map mkThread (seq (next_thread_id w) n)).
Proof.
  induction n as [|n IH]; intros w Hf.
  - cbn. rewrite app_nil_r. auto.
  - cbn [spawn_n].
    destruct (spawn_worker_spec w Hf) as (Hf1 & _ & _ & Hn1 & _).
    destruct (spawn_worker_rest w Hf) as (Hq & Hd & Hi & Hs & Hh).
    destruct (IH _ Hf1) as (Hq' & Hd' & Hi' & Hs' & Hh').
    rewrite Hq', Hd', Hi', Hs', Hq, Hd, Hi, Hs. repeat split.
    rewrite Hh', Hh, Hn1. cbn [seq map]. now rewrite <- app_assoc.
Qed.

(** *** How many threads an expansion starts *)

Lemma wrap64_range z : 0 <= wrap64 z < 2 ^ 64.
Proof. unfold wrap64. apply Z.mod_pos_bound. lia. Qed.

Lemma threads_needed_bounds pending idle active max_threads :
  0 <= max_threads < 2 ^ 64 -> 0 <= active ->
  0 <= threads_needed pending idle active max_threads
  /\ active + threads_needed pending idle active max_threads
     <= Z.max active max_threads.
Proof.
  intros Hm Ha. unfold threads_needed. cbv zeta.
  rewrite (wrap64_small max_threads) by lia.
  destruct (Z.ltb_spec active max_threads) as [Hlt|Hge]; cbn [andb]; [|lia].
  destruct (_ <? pending); [|lia].
  rewrite (wrap64_small (max_threads - active)) by lia.
  pose proof (wrap64_range (pending - wrap64 idle)). lia.
Qed.

Lemma threads_needed_uncapped pending idle active max_threads :
  - 2 ^ 31 <= max_threads < 0 -> 0 <= active < 2 ^ 62 ->
  0 <= idle < 2 ^ 31 - 1 -> idle + 1 < pending < 2 ^ 62 ->
  threads_needed pending idle active max_threads = pending - idle.
Proof.
  intros Hm Ha Hi Hp. unfold threads_needed. cbv zeta.
  assert (Hw : wrap64 max_threads = 2 ^ 64 + max_threads).
  { unfold wrap64.
    replace max_threads with (2 ^ 64 + max_threads + (-1) * 2 ^ 64) at 1 by lia.
    rewrite Z.mod_add by lia. apply Z.mod_small. lia. }
  rewrite Hw.
  rewrite (wrap32_small (idle + 1)) by (unfold int_range; lia).
  rewrite (wrap64_small (idle + 1)) by lia.
  rewrite (wrap64_small idle) by lia.
  rewrite (wrap64_small (pending - idle)) by lia.
  rewrite (wrap64_small (2 ^ 64 + max_threads - active)) by lia.
  destruct (Z.ltb_spec active (2 ^ 64 + max_threads)); [|lia].
  destruct (Z.ltb_spec (idle + 1) pending); [|lia].
  cbn [andb]. apply Z.min_l. lia.
Qed.

Lemma threads_needed_small_backlog pending idle active max_threads :
  0 <= idle < 2 ^ 31 - 1 -> 0 <= pending <= idle + 1 ->
  threads_needed pending idle active max_threads = 0.
Proof.
  intros Hi Hp. unfold threads_needed. cbv zeta.
  rewrite (wrap32_small (idle + 1)) by (unfold int_range; lia).
  rewrite (wrap64_small (idle + 1)) by lia.
  destruct (Z.ltb_spec (idle + 1) pending); [lia|].
  now rewrite andb_false_r.
Qed.

Lemma clean_spec got_mutex p :
  let '(p1, joined) := clean_inactive_threads got_mutex p in
  workers_ p1 = workers_ p /\ queue_ p1 = queue_ p
  /\ idle_threads_ p1 = idle_threads_ p /\ stopping_ p1 = stopping_ p
  /\ max_threads_ p1 = max_threads_ p /\ min_threads_ p1 = min_threads_ p
  /\ handles p = handles p1 ++ joined
  /\ (got_mutex = true -> dead_workers_ p1 = [] /\ joined = dead_workers_ p)
  /\ (got_mutex = false -> p1 = p /\ joined = []).
Proof.
  unfold clean_inactive_threads, handles.
  destruct got_mutex; cbn [negb orb].
  - destruct (dead_workers_ p) eqn:Hd; cbn [TaskQueue.is_nil].
    + rewrite Hd, !app_nil_r. repeat split; auto; discriminate.
    + cbn. rewrite app_nil_r. repeat split; auto; discriminate.
  - repeat split; auto; try discriminate. now rewrite app_nil_r.
Qed.

Lemma expand_spec w :
  ids_fresh w ->
  let n := Z.to_nat (threads_needed
                       (wrap64 (Z.of_nat (TaskQueue.size (queue_ (the_pool w)))))
                       (idle_threads_ (the_pool w))
                       (Z.of_nat (size (workers_ (the_pool w))))
                       (max_threads_ (the_pool w))) in
  size (workers_ (the_pool (expand w))) = (size (workers_ (the_pool w)) + n)%nat
  /\ started (expand w) = started w ++ seq (next_thread_id w) n
  /\ queue_ (the_pool (expand w)) = queue_ (the_pool w)
  /\ dead_workers_ (the_pool (expand w)) = dead_workers_ (the_pool w)
  /\ Permutation (handles (the_pool (expand w)))
                 (handles (the_pool w)
                  ++ map mkThread (seq (next_thread_id w) n)).
Proof.
  intros Hf n. unfold expand. fold n.
  destruct (spawn_n_spec n w Hf) as (_ & Hsz & Hst & _).
  destruct (spawn_n_rest n w Hf) as (Hq & Hd & _ & _ & Hh).
  auto.
Qed.


Lemma ids_fresh_with_pool p w :
  workers_ p = workers_ (the_pool w) -> ids_fresh w ->
  ids_fresh (with_pool p w).
Proof. intros Hw Hf id Hid. cbn in *. rewrite Hw. now apply Hf. Qed.

(** What both versions of [try_expand_workers] come to on a pool that is
    not stopping. *)
Lemma try_expand_running got_mutex w :
  stopping_ (the_pool w) = false ->
  try_expand_workers got_mutex w
  = (expand (with_pool (fst (clean_inactive_threads got_mutex (the_pool w))) w),
     snd (clean_inactive_threads got_mutex (the_pool w)))
  /\ try_expand_workers_v4 got_mutex w = try_expand_workers got_mutex w.
Proof.
  intros Hs. unfold try_expand_workers, try_expand_workers_v4. rewrite Hs.
  pose proof (clean_spec got_mutex (the_pool w)) as Hc.
  destruct (clean_inactive_threads got_mutex (the_pool w)) as [p1 joined].
  destruct Hc as (_ & _ & _ & Hst & _). rewrite Hst, Hs. auto.
Qed.

Lemma try_expand_stopping got_mutex w :
  stopping_ (the_pool w) = true ->
  try_expand_workers got_mutex w
  = (with_pool (fst (clean_inactive_threads got_mutex (the_pool w))) w,
     snd (clean_inactive_threads got_mutex (the_pool w)))
  /\ try_expand_workers_v4 got_mutex w = (w, []).
Proof.
  intros Hs. unfold try_expand_workers, try_expand_workers_v4. rewrite Hs.
  pose proof (clean_spec got_mutex (the_pool w)) as Hc.
  destruct (clean_inactive_threads got_mutex (the_pool w)) as [p1 joined].
  destruct Hc as (_ & _ & _ & Hst & _). rewrite Hst, Hs. auto.
Qed.

(** [try_expand_workers] and the maximum.  With a maximum that is not
    negative an expansion never takes the number of workers past it, and
    never lowers it; on a stopping pool it starts nothing.  A negative
    maximum (both constructor arguments negative) is no bound at all: as
    a [size_t] it is huge, and a backlog of [pending > idle + 1] tasks
    starts [pending - idle] workers however many there are. *)
Theorem expansion_and_the_maximum (got_mutex : bool) w :
  ids_fresh w ->
  (forall w' joined,
     try_expand_workers got_mutex w = (w', joined)
     \/ try_expand_workers_v4 got_mutex w = (w', joined) ->
     (0 <= max_threads_ (the_pool w) < 2 ^ 31 ->
      (size (workers_ (the_pool w)) <= size (workers_ (the_pool w')))%nat
      /\ Z.of_nat (size (workers_ (the_pool w')))
         <= Z.max (Z.of_nat (size (workers_ (the_pool w))))
                  (max_threads_ (the_pool w)))
     /\ (stopping_ (the_pool w) = true ->
         started w' = started w
         /\ workers_ (the_pool w') = workers_ (the_pool w))
     /\ (stopping_ (the_pool w) = false ->
         - 2 ^ 31 <= max_threads_ (the_pool w) < 0 ->
         Z.of_nat (size (workers_ (the_pool w))) < 2 ^ 62 ->
         0 <= idle_threads_ (the_pool w) < 2 ^ 31 - 1 ->
         idle_threads_ (the_pool w) + 1
           < Z.of_nat (TaskQueue.size (queue_ (the_pool w))) < 2 ^ 62 ->
         Z.of_nat (size (workers_ (the_pool w')))
         = Z.of_nat (size (workers_ (the_pool w)))
           + (Z.of_nat (TaskQueue.size (queue_ (the_pool w)))
              - idle_threads_ (the_pool w)))).
Proof.
  intros Hf w' joined Hrun.
  pose proof (clean_spec got_mutex (the_pool w)) as Hc.
  destruct (stopping_ (the_pool w)) eqn:Hs.
  - (* stopping: nothing is started *)
    assert (Hsame : started w' = started w
                    /\ workers_ (the_pool w') = workers_ (the_pool w)).
    { destruct (try_expand_stopping got_mutex w Hs) as [E1 E2].
      rewrite E1, E2 in Hrun.
      destruct (clean_inactive_threads got_mutex (the_pool w)) as [p1 j].
      destruct Hc as (Hw & _).
      destruct Hrun as [[= <- _]|[= <- _]]; cbn; auto. }
    destruct Hsame as [Hst Hw]. rewrite Hw.
    split; [intros _; split; lia|]. split; [auto|discriminate].
  - destruct (try_expand_running got_mutex w Hs) as [E1 E2].
    rewrite E2, E1 in Hrun.
    destruct (clean_inactive_threads got_mutex (the_pool w)) as [p1 j].
    cbn [fst snd] in Hrun.
    destruct Hc as (Hw & Hq & Hi & Hst & Hmax & _).
    assert (Hw' : w' = expand (with_pool p1 w)).
    { destruct Hrun as [[= <- _]|[= <- _]]; reflexivity. }
    subst w'. clear Hrun.
    destruct (expand_spec (with_pool p1 w) (ids_fresh_with_pool p1 w Hw Hf))
      as (Hsz & _).
    cbn [the_pool with_pool] in Hsz. rewrite Hw, Hq, Hi, Hmax in Hsz.
    rewrite Hsz. split; [|split; [discriminate|]].
    + intros Hm.
      destruct (threads_needed_bounds
                  (wrap64 (Z.of_nat (TaskQueue.size (queue_ (the_pool w)))))
                  (idle_threads_ (the_pool w))
                  (Z.of_nat (size (workers_ (the_pool w))))
                  (max_threads_ (the_pool w))) as [H0 Hcap]; [lia|lia|].
      split; lia.
    + intros _ Hm Ha Hidle Hp.
      rewrite (wrap64_small (Z.of_nat (TaskQueue.size _))) by lia.
      rewrite threads_needed_uncapped by lia. lia.
Qed.

(** [stop], once and for all.  The first call sets the flag, stops the
    queue without touching its contents, and takes every thread object
    out of [workers_] and [dead_workers_] to join it.  After it a second
    [stop] does nothing and joins nothing, every submission is refused
    and the queue is not touched (an exception, or [false] from the
    [add_batch_task] of [_v4.hpp]), and no worker is started any
    more. *)
Theorem stop_once_and_for_all w :
  stopping_ (the_pool w) = false ->
  exists w1,
    stop w = (w1, handles (the_pool w))
    /\ stopping_ (the_pool w1) = true
    /\ queue_ (the_pool w1) = TaskQueue.stop (queue_ (the_pool w))
    /\ TaskQueue.tasks_ (queue_ (the_pool w1))
       = TaskQueue.tasks_ (queue_ (the_pool w))
    /\ TaskQueue.delay_tasks_ (queue_ (the_pool w1))
       = TaskQueue.delay_tasks_ (queue_ (the_pool w))
    /\ workers_ (the_pool w1) = ∅ /\ dead_workers_ (the_pool w1) = []
    /\ started w1 = started w
    /\ stop w1 = (w1, [])
    /\ (forall (task : Task) (task_list : list Task) (got_mutex : bool),
          add_task task got_mutex w1 = Thrown "ThreadPool has been stopped"
          /\ add_priority_task task got_mutex w1
             = Thrown "ThreadPool has been stopped"
          /\ add_batch_task task_list got_mutex w1
             = Thrown "ThreadPool has been stopped"
          /\ add_task_v4 task got_mutex w1
             = Thrown "ThreadPool has been stopped"
          /\ add_priority_task_v4 task got_mutex w1
             = Thrown "ThreadPool has been stopped"
          /\ add_batch_task_v4 task_list got_mutex w1 = (false, (w1, []))
          /\ try_expand_workers got_mutex w1 = (w1, [])
          /\ try_expand_workers_v4 got_mutex w1 = (w1, [])).
Proof.
  intros Hs. unfold stop. rewrite Hs. eexists. split; [reflexivity|].
  cbn. do 8 (split; [reflexivity|]).
  intros task task_list got_mutex.
  unfold try_expand_workers, clean_inactive_threads. cbn.
  rewrite orb_true_r. repeat split.
Qed.

(** A submission starts no worker while the backlog, the new task
    included, does not exceed the idle workers by more than one: the task
    is queued and that is all.  In particular the first task given to a
    pool without any worker is left in the queue with nobody to run
    it. *)
Theorem small_backlog_starts_no_worker
        (task : Task) (got_mutex : bool) w :
  running (the_pool w) ->
  0 <= idle_threads_ (the_pool w) < 2 ^ 31 - 1 ->
  Z.of_nat (TaskQueue.size (queue_ (the_pool w)))
    <= idle_threads_ (the_pool w) ->
  exists w' joined,
    add_task task got_mutex w = Returned (w', joined)
    /\ add_task_v4 task got_mutex w = Returned (w', joined)
    /\ started w' = started w
    /\ workers_ (the_pool w') = workers_ (the_pool w)
    /\ TaskQueue.tasks_ (queue_ (the_pool w'))
       = TaskQueue.tasks_ (queue_ (the_pool w)) ++ [task]
    /\ TaskQueue.delay_tasks_ (queue_ (the_pool w'))
       = TaskQueue.delay_tasks_ (queue_ (the_pool w)).
Proof.
  intros [Hs Hq] Hi Hp. unfold add_task, add_task_v4. rewrite Hs.
  set (w0 := with_pool _ w).
  assert (Hs0 : stopping_ (the_pool w0) = false) by exact Hs.
  destruct (try_expand_running got_mutex w0 Hs0) as [E1 E2].
  rewrite E2, E1.
  pose proof (clean_spec got_mutex (the_pool w0)) as Hc.
  destruct (clean_inactive_threads got_mutex (the_pool w0)) as [p1 j].
  cbn [fst snd].
  destruct Hc as (Hw & Hq1 & Hi1 & Hst & Hmax & _).
  eexists _, _. split; [reflexivity|]. split; [reflexivity|].
  unfold expand. cbn [the_pool with_pool]. rewrite Hq1, Hi1.
  assert (Hsize : TaskQueue.size (queue_ (the_pool w0))
                  = S (TaskQueue.size (queue_ (the_pool w)))).
  { subst w0. cbn. unfold TaskQueue.push. rewrite Hq.
    unfold TaskQueue.size. cbn. rewrite length_app. cbn. lia. }
  rewrite Hsize.
  replace (idle_threads_ (the_pool w0)) with (idle_threads_ (the_pool w))
    by reflexivity.
  rewrite wrap64_small by lia.
  rewrite threads_needed_small_backlog by lia.
  change (Z.to_nat 0) with O. cbn [spawn_n started the_pool with_pool].
  rewrite Hw, Hq1. subst w0. cbn. unfold TaskQueue.push. rewrite Hq. cbn. auto.
Qed.


(** *** Workers leaving *)

Lemma retire_handles my_id (t : thread) p :
  workers_ p !! my_id = Some t ->
  Permutation (handles (retire my_id t p)) (handles p)
  /\ size (workers_ p) = S (size (workers_ (retire my_id t p))).
Proof.
  intros Hl. unfold handles, retire. cbn. split.
  - rewrite <- (map_to_list_delete (workers_ p) my_id t Hl). cbn.
    rewrite app_assoc. rewrite <- Permutation_cons_append. reflexivity.
  - rewrite (map_size_delete_Some my_id (workers_ p)) by eauto.
    pose proof (map_size_ne_0_lookup_2 (workers_ p) my_id
                  (mk_is_Some _ _ Hl)).
    lia.
Qed.

Lemma idle_sub_spec p :
  int_range (idle_threads_ p - 1) ->
  idle_threads_ (idle_sub p) = idle_threads_ p - 1
  /\ workers_ (idle_sub p) = workers_ p
  /\ handles (idle_sub p) = handles p.
Proof.
  intros Hr. unfold idle_sub, handles. cbn. now rewrite wrap32_small.
Qed.

(** What a worker does with the answer of [pop], for a worker that is in
    [workers_].  In both files every way out of the loop takes it off the
    idle count exactly once and every way round the loop leaves the count
    as it was: the count does not leak; and the thread objects the pool
    holds stay the same.  A worker leaves on [STOPPED], on a [TIMEOUT]
    while the pool is stopping (whatever is still queued), and on a
    [TIMEOUT] of a running pool when the test on [min_threads_] lets it,
    in which case it moves its own thread object to [dead_workers_].  The
    test is [(int) workers_.size() > min_threads_] in [part_007] and
    [workers_.size() > (size_t) min_threads_] in [_v4.hpp]: the two files
    do the same when [min_threads_] is not negative, and time-outs then
    never take a running pool below [min_threads_]; with a negative
    [min_threads_] the worker of [part_007] leaves at every [TIMEOUT] and
    that of [_v4.hpp] never does. *)
Theorem worker_exit_accounting
        (my_id : thread_id) (t : thread)
        (result : TaskQueue.PopResult) p :
  sane p ->
  workers_ p !! my_id = Some t ->
  ((snd (after_pop my_id result p) = Exit ->
    idle_threads_ (fst (after_pop my_id result p)) = idle_threads_ p - 1)
   /\ (snd (after_pop my_id result p) = Continue ->
       idle_threads_ (fst (after_pop my_id result p)) = idle_threads_ p)
   /\ (snd (after_pop my_id result p) = Exit <->
       result = TaskQueue.STOPPED
       \/ result = TaskQueue.TIMEOUT
          /\ (stopping_ p = true
              \/ min_threads_ p < Z.of_nat (size (workers_ p))))
   /\ Permutation (handles (fst (after_pop my_id result p))) (handles p))
  /\ ((snd (after_pop_v4 my_id result p) = Exit ->
       idle_threads_ (fst (after_pop_v4 my_id result p)) = idle_threads_ p - 1)
      /\ (snd (after_pop_v4 my_id result p) = Continue ->
          idle_threads_ (fst (after_pop_v4 my_id result p)) = idle_threads_ p)
      /\ (snd (after_pop_v4 my_id result p) = Exit <->
          result = TaskQueue.STOPPED
          \/ result = TaskQueue.TIMEOUT
             /\ (stopping_ p = true
                 \/ wrap64 (min_threads_ p) < Z.of_nat (size (workers_ p))))
      /\ Permutation (handles (fst (after_pop_v4 my_id result p)))
                     (handles p))
  /\ (0 <= min_threads_ p ->
      after_pop_v4 my_id result p = after_pop my_id result p
      /\ (stopping_ p = false ->
          min_threads_ p <= Z.of_nat (size (workers_ p)) ->
          min_threads_ p
          <= Z.of_nat (size (workers_ (fst (after_pop my_id result p))))))
  /\ (min_threads_ p < 0 -> stopping_ p = false ->
      after_pop my_id TaskQueue.TIMEOUT p
      = (retire my_id t (idle_sub p), Exit)
      /\ after_pop_v4 my_id TaskQueue.TIMEOUT p = (p, Continue)).
Proof.
  intros (Hminr & Hsz & Hsub & Hadd) Hl.
  destruct (idle_sub_spec p Hsub) as (Hi & Hw & Hh).
  assert (Hretire := retire_handles my_id t (idle_sub p)
                       ltac:(rewrite Hw; exact Hl)).
  destruct Hretire as [Hperm Hsize]. rewrite Hw in Hsize. rewrite Hh in Hperm.
  assert (Hback : idle_threads_ (idle_add (idle_sub p)) = idle_threads_ p).
  { unfold idle_add. cbn [idle_threads_ set_idle_threads].
    rewrite Hi. replace (idle_threads_ p - 1 + 1) with (idle_threads_ p) by lia.
    apply wrap32_small. unfold int_range in *. lia. }
  assert (Hneg : min_threads_ p < 0 ->
                 wrap64 (min_threads_ p) = 2 ^ 64 + min_threads_ p).
  { intros Hn. unfold wrap64.
    replace (min_threads_ p)
      with (2 ^ 64 + min_threads_ p + (-1) * 2 ^ 64) at 1 by lia.
    rewrite Z.mod_add by lia. apply Z.mod_small.
    unfold int_range in Hminr. lia. }
  assert (H7 : forall next,
    after_pop my_id TaskQueue.TIMEOUT p = next ->
    stopping_ p = false ->
    (min_threads_ p < Z.of_nat (size (workers_ p))
     /\ next = (retire my_id t (idle_sub p), Exit))
    \/ (Z.of_nat (size (workers_ p)) <= min_threads_ p
        /\ next = (p, Continue))).
  { intros next <- Hs. unfold after_pop. rewrite Hs, (wrap32_small _ Hsz).
    destruct (Z.ltb_spec (min_threads_ p) (Z.of_nat (size (workers_ p))));
      [left; rewrite Hl; auto|right; auto]. }
  assert (H4 : forall next,
    after_pop_v4 my_id TaskQueue.TIMEOUT p = next ->
    stopping_ p = false ->
    (wrap64 (min_threads_ p) < Z.of_nat (size (workers_ p))
     /\ next = (retire my_id t (idle_sub p), Exit))
    \/ (Z.of_nat (size (workers_ p)) <= wrap64 (min_threads_ p)
        /\ next = (p, Continue))).
  { intros next <- Hs. unfold after_pop_v4. rewrite Hs. cbn [negb andb].
    destruct (Z.ltb_spec (wrap64 (min_threads_ p))
                         (Z.of_nat (size (workers_ p))));
      [left; rewrite Hl; auto|right; auto]. }
  assert (Hstop7 : stopping_ p = true ->
            after_pop my_id TaskQueue.TIMEOUT p = (idle_sub p, Exit)).
  { intros Hs. unfold after_pop. now rewrite Hs. }
  assert (Hstop4 : stopping_ p = true ->
            after_pop_v4 my_id TaskQueue.TIMEOUT p = (idle_sub p, Exit)).
  { intros Hs. unfold after_pop_v4. now rewrite Hs. }
  split; [|split; [|split]].
  - (* part_007 *)
    destruct result.
    + cbn [after_pop fst snd]. split; [discriminate|]. split; [auto|].
      split; [split; [discriminate|intros [?|[? _]]; discriminate]|].
      unfold handles. cbn. reflexivity.
    + cbn [after_pop fst snd]. split; [auto|]. split; [discriminate|].
      split; [split; auto|]. now rewrite Hh.
    + destruct (stopping_ p) eqn:Hs.
      * rewrite (Hstop7 eq_refl). cbn [fst snd].
        split; [auto|]. split; [discriminate|].
        split; [split; auto|]. now rewrite Hh.
      * destruct (H7 _ eq_refl eq_refl) as [[Hlt ->]|[Hge ->]]; cbn [fst snd].
        -- split; [intros _; unfold retire; cbn; exact Hi|].
           split; [discriminate|]. split; [split; auto|exact Hperm].
        -- split; [discriminate|]. split; [auto|].
           split; [|reflexivity].
           split; [discriminate|].
           intros [?|[_ [?|?]]]; [discriminate|discriminate|lia].
  - (* _v4.hpp *)
    destruct result.
    + cbn [after_pop_v4 fst snd]. split; [discriminate|]. split; [auto|].
      split; [split; [discriminate|intros [?|[? _]]; discriminate]|].
      unfold handles. cbn. reflexivity.
    + cbn [after_pop_v4 fst snd]. split; [auto|]. split; [discriminate|].
      split; [split; auto|]. now rewrite Hh.
    + destruct (stopping_ p) eqn:Hs.
      * rewrite (Hstop4 eq_refl). cbn [fst snd].
        split; [auto|]. split; [discriminate|].
        split; [split; auto|]. now rewrite Hh.
      * destruct (H4 _ eq_refl eq_refl) as [[Hlt ->]|[Hge ->]]; cbn [fst snd].
        -- split; [intros _; unfold retire; cbn; exact Hi|].
           split; [discriminate|]. split; [split; auto|exact Hperm].
        -- split; [discriminate|]. split; [auto|].
           split; [|reflexivity].
           split; [discriminate|].
           intros [?|[_ [?|?]]]; [discriminate|discriminate|lia].
  - (* a minimum that is not negative *)
    intros Hmin.
    assert (Hsame : wrap64 (min_threads_ p) = min_threads_ p).
    { apply wrap64_small. unfold int_range in Hminr. lia. }
    destruct result.
    + split; [reflexivity|]. cbn [after_pop fst]. auto.
    + split; [reflexivity|]. cbn [after_pop fst]. now rewrite Hw.
    + destruct (stopping_ p) eqn:Hs.
      * rewrite (Hstop7 eq_refl), (Hstop4 eq_refl).
        split; [reflexivity|discriminate].
      * destruct (H7 _ eq_refl eq_refl) as [[Hlt ->]|[Hge ->]];
          destruct (H4 _ eq_refl eq_refl) as [[Hlt4 ->]|[Hge4 ->]];
          rewrite Hsame in *; try lia; cbn [fst];
          (split; [reflexivity|]); intros _ Hle; lia.
  - (* a negative minimum *)
    intros Hmin Hs. specialize (Hneg Hmin).
    unfold int_range in Hsz, Hminr. split.
    + destruct (H7 _ eq_refl Hs) as [[_ ->]|[Hge _]]; [reflexivity|lia].
    + destruct (H4 _ eq_refl Hs) as [[Hlt _]|[_ ->]]; [lia|reflexivity].
Qed.

(** No thread object is dropped before it is joined (a [std::thread]
    destroyed while joinable ends the program): the objects the pool holds
    afterwards, together with those the call joined, are the ones it held
    before and the ones it started. *)
Theorem no_thread_handle_is_dropped
        (got_mutex : bool) (my_id : thread_id)
        (result : TaskQueue.PopResult) w :
  ids_fresh w ->
  (let '(p1, joined) := clean_inactive_threads got_mutex (the_pool w) in
   handles p1 ++ joined = handles (the_pool w))
  /\ (forall w' joined,
        try_expand_workers got_mutex w = (w', joined)
        \/ try_expand_workers_v4 got_mutex w = (w', joined) ->
        exists n,
          started w' = started w ++ seq (next_thread_id w) n
          /\ Permutation (handles (the_pool w') ++ joined)
                         (handles (the_pool w)
                          ++ map mkThread (seq (next_thread_id w) n)))
  /\ handles (the_pool (fst (stop w))) ++ snd (stop w) = handles (the_pool w)
  /\ Permutation (handles (fst (after_pop my_id result (the_pool w))))
                 (handles (the_pool w))
  /\ Permutation (handles (fst (after_pop_v4 my_id result (the_pool w))))
                 (handles (the_pool w)).
Proof.
  intros Hf.
  assert (Hleave : forall p (b : bool) (next : worker_next),
             Permutation
               (handles (fst (match workers_ p !! my_id with
                              | Some t => (retire my_id t (idle_sub p), Exit)
                              | None => (p, next)
                              end)))
               (handles p)).
  { intros p _ next. destruct (workers_ p !! my_id) as [t|] eqn:Hl;
      [|reflexivity].
    cbn [fst].
    destruct (retire_handles my_id t (idle_sub p) Hl) as [Hp _].
    rewrite Hp. reflexivity. }
  split; [|split; [|split; [|split]]].
  - pose proof (clean_spec got_mutex (the_pool w)) as Hc.
    destruct (clean_inactive_threads got_mutex (the_pool w)) as [p1 j].
    destruct Hc as (_ & _ & _ & _ & _ & _ & Hh & _). now rewrite Hh.
  - intros w' joined Hrun.
    pose proof (clean_spec got_mutex (the_pool w)) as Hc.
    destruct (stopping_ (the_pool w)) eqn:Hs.
    + destruct (try_expand_stopping got_mutex w Hs) as [E1 E2].
      rewrite E1, E2 in Hrun.
      destruct (clean_inactive_threads got_mutex (the_pool w)) as [p1 j].
      destruct Hc as (_ & _ & _ & _ & _ & _ & Hh & _).
      exists O. cbn [seq map]. rewrite !app_nil_r.
      destruct Hrun as [[= <- <-]|[= <- <-]]; cbn [started the_pool with_pool fst snd].
      * split; [reflexivity|]. now rewrite Hh.
      * split; [reflexivity|]. now rewrite app_nil_r.
    + destruct (try_expand_running got_mutex w Hs) as [E1 E2].
      rewrite E2, E1 in Hrun.
      destruct (clean_inactive_threads got_mutex (the_pool w)) as [p1 j].
      cbn [fst snd] in Hrun.
      destruct Hc as (Hw & _ & _ & _ & _ & _ & Hh & _).
      assert (Hw' : w' = expand (with_pool p1 w) /\ joined = j).
      { destruct Hrun as [[= <- <-]|[= <- <-]]; auto. }
      destruct Hw' as [-> ->].
      destruct (expand_spec (with_pool p1 w) (ids_fresh_with_pool p1 w Hw Hf))
        as (_ & Hst & _ & _ & Hp).
      eexists. split; [exact Hst|].
      rewrite Hp. cbn [the_pool with_pool next_thread_id]. rewrite Hh.
      rewrite <- !app_assoc. apply Permutation_app_head.
      apply Permutation_app_comm.
  - unfold stop. destruct (stopping_ (the_pool w)); cbn [fst snd].
    + apply app_nil_r.
    + unfold handles. cbn. rewrite map_to_list_empty. reflexivity.
  - unfold after_pop. destruct result; cbn [fst];
      try (unfold handles; cbn; reflexivity).
    destruct (stopping_ (the_pool w)); [unfold handles; cbn; reflexivity|].
    destruct (_ <? _); [|reflexivity]. apply (Hleave _ true).
  - unfold after_pop_v4. destruct result; cbn [fst];
      try (unfold handles; cbn; reflexivity).
    destruct (stopping_ (the_pool w)); [unfold handles; cbn; reflexivity|].
    destruct (_ && _); [|reflexivity]. apply (Hleave _ true).
Qed.

End WithTask.

(** A backlog of three tasks on a pool of at most four workers without
    any: three workers are started, threads 1, 2 and 3. *)
Lemma expansion_and_the_maximum_witness :
  started (fst (try_expand_workers true (backlog_of_three 7%nat)))
  = [1%nat; 2%nat; 3%nat]
  /\ size (workers_ (the_pool
             (fst (try_expand_workers true (backlog_of_three 7%nat))))) = 3%nat
  /\ (size (workers_ (the_pool (backlog_of_three 7%nat)))
      <= size (workers_ (the_pool
                 (fst (try_expand_workers true (backlog_of_three 7%nat))))))%nat
  /\ Z.of_nat (size (workers_ (the_pool
                 (fst (try_expand_workers true (backlog_of_three 7%nat))))))
     <= Z.max (Z.of_nat (size (workers_ (the_pool (backlog_of_three 7%nat)))))
              (max_threads_ (the_pool (backlog_of_three 7%nat))).
Proof.
  assert (Hf : ids_fresh (backlog_of_three 7%nat))
    by (intros id _; reflexivity).
  split; [reflexivity|]. split; [reflexivity|].
  destruct (expansion_and_the_maximum true (backlog_of_three 7%nat) Hf
              (fst (try_expand_workers true (backlog_of_three 7%nat)))
              (snd (try_expand_workers true (backlog_of_three 7%nat)))
              (or_introl (surjective_pairing _))) as (H & _).
  apply H. cbn. lia.
Defined.

Lemma stop_once_and_for_all_witness :
  exists w1,
    stop (@no_worker_yet nat) = (w1, handles (the_pool (@no_worker_yet nat)))
    /\ stopping_ (the_pool w1) = true.
Proof.
  destruct (stop_once_and_for_all (@no_worker_yet nat) eq_refl)
    as (w1 & H1 & H2 & _).
  exists w1. split; assumption.
Defined.

Lemma small_backlog_starts_no_worker_witness :
  exists w' joined,
    add_task 7%nat true no_worker_yet = Returned (w', joined)
    /\ add_task_v4 7%nat true no_worker_yet = Returned (w', joined)
    /\ started w' = []
    /\ workers_ (the_pool w') = ∅
    /\ TaskQueue.tasks_ (queue_ (the_pool w')) = [7%nat]
    /\ TaskQueue.delay_tasks_ (queue_ (the_pool w')) = [].
Proof.
  apply (small_backlog_starts_no_worker 7%nat true (@no_worker_yet nat)).
  - split; reflexivity.
  - cbn. lia.
  - cbn. lia.
Defined.

(** The only worker of a pool times out.  With a minimum of 0 it
    leaves, in both files, and the idle count goes from 1 to 0; with a
    minimum of -2 it leaves in [part_007] and stays in [_v4.hpp]. *)
Lemma worker_exit_accounting_witness :
  (snd (after_pop 1%nat TaskQueue.TIMEOUT (@one_idle_worker nat)) = Exit
   /\ after_pop_v4 1%nat TaskQueue.TIMEOUT (@one_idle_worker nat)
      = after_pop 1%nat TaskQueue.TIMEOUT (@one_idle_worker nat)
   /\ idle_threads_
        (fst (after_pop 1%nat TaskQueue.TIMEOUT (@one_idle_worker nat))) = 0)
  /\ snd (after_pop 1%nat TaskQueue.TIMEOUT
            (@one_idle_worker_negative_minimum nat)) = Exit
  /\ snd (after_pop_v4 1%nat TaskQueue.TIMEOUT
            (@one_idle_worker_negative_minimum nat)) = Continue.
Proof.
  assert (Hs0 : sane (@one_idle_worker nat)).
  { unfold sane, int_range. vm_compute. repeat split; congruence. }
  assert (Hs1 : sane (@one_idle_worker_negative_minimum nat)).
  { unfold sane, int_range. vm_compute. repeat split; congruence. }
  destruct (worker_exit_accounting 1%nat (mkThread 1%nat) TaskQueue.TIMEOUT
              (@one_idle_worker nat) Hs0 eq_refl)
    as ((Hexit & _ & Hiff & _) & _ & Hsame & _).
  destruct (worker_exit_accounting 1%nat (mkThread 1%nat) TaskQueue.TIMEOUT
              (@one_idle_worker_negative_minimum nat) Hs1 eq_refl)
    as (_ & _ & _ & Hneg).
  assert (Hleaves :
            snd (after_pop 1%nat TaskQueue.TIMEOUT (@one_idle_worker nat))
            = Exit).
  { apply Hiff. right. split; [reflexivity|]. right. vm_compute. reflexivity. }
  split.
  - split; [exact Hleaves|]. split.
    + apply Hsame. cbn. lia.
    + apply (Hexit Hleaves).
  - destruct Hneg as [H7 H4]; [cbn; lia|reflexivity|].
    rewrite H7, H4. split; reflexivity.
Defined.

(** Two workers and one retired thread: [stop] joins all three, and a
    cleaning joins the retired one and keeps the two workers. *)
Lemma no_thread_handle_is_dropped_witness :
  handles (the_pool (fst (stop (@two_workers_one_dead nat))))
  ++ snd (stop (@two_workers_one_dead nat))
  = handles (the_pool (@two_workers_one_dead nat))
  /\ length (snd (stop (@two_workers_one_dead nat))) = 3%nat
  /\ exists w' joined,
       try_expand_workers true (@two_workers_one_dead nat) = (w', joined)
       /\ joined = [mkThread 3%nat]
       /\ Permutation (handles (the_pool w') ++ joined)
                      (handles (the_pool (@two_workers_one_dead nat))).
Proof.
  assert (Hf : ids_fresh (@two_workers_one_dead nat)).
  { intros id Hid. cbn in Hid. cbn [the_pool workers_ two_workers_one_dead].
    rewrite lookup_insert_ne by lia. apply lookup_singleton_ne. lia. }
  destruct (no_thread_handle_is_dropped true 1%nat TaskQueue.OK
              (@two_workers_one_dead nat) Hf) as (_ & Hexp & Hstop & _).
  split; [exact Hstop|]. split; [reflexivity|].
  exists (fst (try_expand_workers true (@two_workers_one_dead nat))),
         (snd (try_expand_workers true (@two_workers_one_dead nat))).
  split; [apply surjective_pairing|]. split; [reflexivity|].
  destruct (Hexp _ _ (or_introl (surjective_pairing _)))
    as (n & Hst & Hperm).
  assert (Hn : n = O).
  { apply (f_equal (@length thread_id)) in Hst.
    rewrite length_app, length_seq in Hst.
    change (length (started (fst (try_expand_workers true
                                    (@two_workers_one_dead nat)))))
      with 3%nat in Hst.
    cbn in Hst. lia. }
  subst n. cbn [seq map] in Hperm. now rewrite app_nil_r in Hperm.
Defined.

End PoolOpsFacts.

(** ** Stopping with delayed tasks still to come *)
Module PoolStopFacts.
Import TaskQueue TaskQueueFacts Submissions ThreadPool PoolOps.

Section WithTask.
Context {Task : Type} {heap : DelayHeap Task} (Hheap : lawful heap).

Lemma top_is_late (t : Z) (q : TaskQueue Task) :
  delay_tasks_ q <> [] ->
  List.Forall (fun d => t < exec_tm_ d) (delay_tasks_ q) ->
  exists top rest,
    pq_extract (delay_tasks_ q) = Some (top, rest) /\ t < exec_tm_ top.
Proof.
  intros Hne Hall.
  destruct (pq_extract (delay_tasks_ q)) as [[top rest]|] eqn:E.
  - exists top, rest. split; [reflexivity|].
    destruct (pq_extract_min Hheap _ _ _ E) as [Hperm _].
    rewrite Hperm in Hall. now inversion Hall.
  - apply (pq_extract_None Hheap) in E. contradiction.
Qed.

(** A stopped queue whose FIFO is empty but whose delay heap holds tasks
    that are due only after the idle deadline: [pop] does not
    answer [STOPPED]; the consumer waits the idle time out and is told
    [TIMEOUT], the tasks staying in the heap.  A worker of a stopping pool
    that is told [TIMEOUT] leaves.  So the delayed tasks that are due
    later than one idle time after [stop] are left in the queue by every
    worker. *)
Theorem late_delayed_tasks_outlive_the_workers
        (my_id : thread_id) (entry idle_timeout now t : Z)
        (p : pool Task) :
  stopping_ p = true ->
  stop_ (queue_ p) = true ->
  tasks_ (queue_ p) = [] ->
  delay_tasks_ (queue_ p) <> [] ->
  List.Forall (fun d => t < exec_tm_ d) (delay_tasks_ (queue_ p)) ->
  now <= t ->
  (idle_deadline entry idle_timeout <= t ->
   pop entry idle_timeout now (queue_ p) [timed_out_at t (queue_ p)]
   = Some (TIMEOUT, None, queue_ p)
   /\ after_pop my_id TIMEOUT p = (idle_sub p, Exit))
  /\ (0 < idle_timeout ->
      List.Forall (fun d => now + idle_timeout * ticks_per_second
                            <= exec_tm_ d) (delay_tasks_ (queue_ p)) ->
      pop_v4 idle_timeout now (queue_ p) [timed_out_at t (queue_ p)]
      = Some (TIMEOUT, None, queue_ p)
      /\ after_pop_v4 my_id TIMEOUT p = (idle_sub p, Exit)).
Proof.
  intros Hstopping Hstop Htasks Hne Hlate Hnow.
  destruct (top_is_late t (queue_ p) Hne Hlate) as (top & rest & Htop & Ht).
  assert (Hnil : is_nil (delay_tasks_ (queue_ p)) = false).
  { destruct (delay_tasks_ (queue_ p)); [contradiction|reflexivity]. }
  split.
  - intros Hdeadline. split.
    + unfold pop. cbn [pop_loop].
      unfold pop_try, ready_delay_task, take_normal.
      rewrite Hstop, Hnil, Htop, Htasks. cbn [andb].
      destruct (Z.leb_spec (exec_tm_ top) now); [lia|].
      cbn [timed_out_at wk_status wk_clock wk_queue is_timeout andb].
      destruct (Z.leb_spec (idle_deadline entry idle_timeout) t);
        [reflexivity|lia].
    + unfold after_pop. now rewrite Hstopping.
  - intros Hidle Hfar. split.
    + assert (Hfartop : now + idle_timeout * ticks_per_second <= exec_tm_ top).
      { destruct (pq_extract_min Hheap _ _ _ Htop) as [Hperm _].
        rewrite Hperm in Hfar. now inversion Hfar. }
      assert (Hwd : wait_duration idle_timeout now (queue_ p)
                    = idle_timeout * 1000).
      { unfold wait_duration, pq_top. rewrite Htop. cbn [fmap option_fmap option_map fst].
        assert (Hq : idle_timeout * 1000
                     <= Z.quot (exec_tm_ top - now) ticks_per_millisecond).
        { apply Z.quot_le_lower_bound; [reflexivity|].
          unfold ticks_per_second, ticks_per_millisecond in *. lia. }
        destruct (Z.ltb_spec (Z.quot (exec_tm_ top - now) ticks_per_millisecond) 0);
          [lia|].
        destruct (Z.ltb_spec (Z.quot (exec_tm_ top - now) ticks_per_millisecond)
                             (idle_timeout * 1000)); [lia|reflexivity]. }
      cbn [pop_v4].
      unfold pop_try_v4, ready_delay_task, take_normal.
      rewrite Htop, Htasks, Hstop, Hnil.
      destruct (Z.leb_spec (exec_tm_ top) now); [lia|].
      cbn [andb is_nil]. rewrite Hwd.
      destruct (Z.leb_spec (idle_timeout * 1000) 0); [lia|].
      unfold after_wait_v4, timed_out_at. cbn [wk_status wk_queue wk_clock is_timeout].
      rewrite Hstop, Htasks, Hnil. unfold pq_top. rewrite Htop.
      cbn [fmap option_fmap option_map fst is_nil andb].
      destruct (Z.ltb_spec t (exec_tm_ top)); [|lia].
      now rewrite Z.leb_refl.
    + unfold after_pop_v4. now rewrite Hstopping.
Qed.

End WithTask.

Lemma late_delayed_tasks_outlive_the_workers_witness :
  pop 0 2 0 (mkTQ [] [mkTimeTask 5000000000 7%nat] true [])
      [timed_out_at 2000000000 (mkTQ [] [mkTimeTask 5000000000 7%nat] true [])]
  = Some (TIMEOUT, None, mkTQ [] [mkTimeTask 5000000000 7%nat] true [])
  /\ after_pop 1%nat TIMEOUT
       (mkPool 1 4 2 (mkTQ [] [mkTimeTask 5000000000 7%nat] true [])
               ∅ [] 1 true)
     = (idle_sub (mkPool 1 4 2 (mkTQ [] [mkTimeTask 5000000000 7%nat] true [])
                         ∅ [] 1 true), Exit).
Proof.
  assert (Hlate : List.Forall (fun d : TimeTask nat => 2000000000 < exec_tm_ d)
                    [mkTimeTask 5000000000 7%nat]).
  { constructor; [cbn; lia|constructor]. }
  destruct (late_delayed_tasks_outlive_the_workers first_least_lawful
              1%nat 0 2 0 2000000000
              (mkPool 1 4 2 (mkTQ [] [mkTimeTask 5000000000 7%nat] true [])
                      ∅ [] 1 true)
              eq_refl eq_refl eq_refl ltac:(discriminate) Hlate ltac:(lia))
    as [H _].
  apply H. vm_compute. discriminate.
Defined.

End PoolStopFacts.
